(** * Ashton Woods community scraper: a shallow embedding of
      [get_ashtonwoods_community.py] and the properties of its extraction
      and normalisation logic.

    A Python [str] is a sequence of Unicode code points: [string] below,
    with a code point as a number.  A literal of this file is read as
    UTF-8.  [str.isspace] is embedded in full; the decimal digits of [\d]
    and the case mappings of [str.upper] and [str.capitalize] are embedded
    in full on the ASCII range and are the interpreter's own beyond it
    (they change with its Unicode tables).  A Python [float] is a
    rational, an infinity or nan.  [None] is [option]'s [None]; a raised
    exception is the [Raise] branch of [result]. *)

From Stdlib Require Import List NArith ZArith QArith Lia Bool Arith Sorted.
From Stdlib.Strings Require Byte.
Import ListNotations.

Close Scope Q_scope.
Open Scope list_scope.
Open Scope nat_scope.

Set Implicit Arguments.

(* ================================================================== *)
(** * Definitions                                                      *)
(* ================================================================== *)

(** ** Text: sequences of code points *)

Definition char : Type := N.

Inductive string : Type :=
| EmptyString
| String (c : char) (s : string).

Definition byte_code (b : Byte.byte) : N := Byte.to_N b.

Definition is_continuation (b : Byte.byte) : bool :=
  ((128 <=? byte_code b) && (byte_code b <? 192))%N.

Definition payload (b : Byte.byte) : N := N.land (byte_code b) 63.

(** The code points of a UTF-8 text. *)
Fixpoint decode_utf8 (bs : list Byte.byte) : option string :=
  match bs with
  | [] => Some EmptyString
  | b :: rest =>
      let n := byte_code b in
      if (n <? 128)%N then option_map (String n) (decode_utf8 rest)
      else if (n <? 192)%N then None
      else if (n <? 224)%N then
        match rest with
        | b1 :: rest' =>
            if is_continuation b1
            then option_map (String (N.land n 31 * 64 + payload b1)%N)
                            (decode_utf8 rest')
            else None
        | _ => None
        end
      else if (n <? 240)%N then
        match rest with
        | b1 :: b2 :: rest' =>
            if is_continuation b1 && is_continuation b2
            then option_map
                   (String ((N.land n 15 * 64 + payload b1) * 64 + payload b2)%N)
                   (decode_utf8 rest')
            else None
        | _ => None
        end
      else if (n <? 248)%N then
        match rest with
        | b1 :: b2 :: b3 :: rest' =>
            if is_continuation b1 && is_continuation b2 && is_continuation b3
            then option_map
                   (String (((N.land n 7 * 64 + payload b1) * 64 + payload b2) * 64
                            + payload b3)%N)
                   (decode_utf8 rest')
            else None
        | _ => None
        end
      else None
  end.

Definition byte_of (n : N) : Byte.byte :=
  match Byte.of_N n with
  | Some b => b
  | None => Byte.x00
  end.

Definition encode_char (c : char) : list Byte.byte :=
  if (c <? 128)%N then [byte_of c]
  else if (c <? 2048)%N then [byte_of (192 + c / 64); byte_of (128 + c mod 64)]%N
  else if (c <? 65536)%N then
    [byte_of (224 + c / 4096); byte_of (128 + (c / 64) mod 64);
     byte_of (128 + c mod 64)]%N
  else
    [byte_of (240 + c / 262144); byte_of (128 + (c / 4096) mod 64);
     byte_of (128 + (c / 64) mod 64); byte_of (128 + c mod 64)]%N.

Fixpoint encode_utf8 (s : string) : list Byte.byte :=
  match s with
  | EmptyString => []
  | String c s' => encode_char c ++ encode_utf8 s'
  end.

Definition decode_char (bs : list Byte.byte) : option N :=
  match decode_utf8 bs with
  | Some (String c EmptyString) => Some c
  | _ => None
  end.

Definition encode_one (c : N) : option (list Byte.byte) := Some (encode_char c).

Declare Scope text_scope.
Delimit Scope text_scope with text.
Bind Scope text_scope with string.
Declare Scope cp_scope.
Delimit Scope cp_scope with cp.
Bind Scope cp_scope with char.

String Notation string decode_utf8 encode_utf8 : text_scope.
String Notation N decode_char encode_one : cp_scope.

(** [a + b] on [str] *)
Fixpoint append (a b : string) : string :=
  match a with
  | EmptyString => b
  | String c a' => String c (append a' b)
  end.

Notation "a ++ b" := (append a b) (right associativity, at level 60) : text_scope.

Open Scope text_scope.
Open Scope nat_scope.

Definition char_eqb (c d : char) : bool := N.eqb c d.

Arguments char_eqb : simpl nomatch.

(** [a == b] on [str] *)
Fixpoint str_eqb (a b : string) : bool :=
  match a, b with
  | EmptyString, EmptyString => true
  | String c a', String d b' => char_eqb c d && str_eqb a' b'
  | _, _ => false
  end.

(** [len(s)] *)
Fixpoint str_length (s : string) : nat :=
  match s with
  | EmptyString => 0
  | String _ s' => S (str_length s')
  end.

(** [s.startswith(p)] *)
Fixpoint prefix (p s : string) : bool :=
  match p with
  | EmptyString => true
  | String a p' =>
      match s with
      | EmptyString => false
      | String b s' => char_eqb a b && prefix p' s'
      end
  end.

(** ** Python exceptions and fallible results *)

Inductive exn : Type :=
| KeyError (key : string)
| IndexError
| ValueError
| OverflowError
| TypeError
| TimeoutException.

Inductive result (A : Type) : Type :=
| Ok (a : A)
| Raise (e : exn).

Arguments Ok {A} a.
Arguments Raise {A} e.

Definition bind {A B : Type} (r : result A) (k : A -> result B) : result B :=
  match r with
  | Ok a => k a
  | Raise e => Raise e
  end.

Notation "x <- r ;; k" := (bind r (fun x => k))
  (at level 61, r at next level, right associativity).

(** A list comprehension whose element expression can raise. *)
Fixpoint map_result {A B : Type} (f : A -> result B) (l : list A) : result (list B) :=
  match l with
  | [] => Ok []
  | a :: l' => b <- f a ;; bs <- map_result f l' ;; Ok (b :: bs)
  end.

(** ** Floats *)

(** A Python [float]: a finite value, an infinity or nan. *)
Inductive pyfloat : Type :=
| Finite (q : Q)
| PosInf
| NegInf
| NaN.

Definition Qlt_bool (a b : Q) : bool := negb (Qle_bool b a).

(** [a < b]: false whenever nan is compared. *)
Definition float_lt (a b : pyfloat) : bool :=
  match a, b with
  | NaN, _ => false
  | _, NaN => false
  | Finite x, Finite y => Qlt_bool x y
  | NegInf, NegInf => false
  | NegInf, _ => true
  | _, NegInf => false
  | PosInf, _ => false
  | Finite _, PosInf => true
  end.

(** [a == b]: nan equals nothing, itself included. *)
Definition float_eq (a b : pyfloat) : bool :=
  match a, b with
  | Finite x, Finite y => Qeq_bool x y
  | PosInf, PosInf => true
  | NegInf, NegInf => true
  | _, _ => false
  end.

(** [bool(x)]: only zero is falsy. *)
Definition float_truthy (x : pyfloat) : bool :=
  match x with
  | Finite q => negb (Qeq_bool q 0)
  | _ => true
  end.

(** [min] and [max] keep the first extremal item: [min] replaces its
    candidate by an item that is less, [max] by one that is greater. *)
Fixpoint py_min_from (m : pyfloat) (l : list pyfloat) : pyfloat :=
  match l with
  | [] => m
  | x :: l' => py_min_from (if float_lt x m then x else m) l'
  end.

Fixpoint py_max_from (m : pyfloat) (l : list pyfloat) : pyfloat :=
  match l with
  | [] => m
  | x :: l' => py_max_from (if float_lt m x then x else m) l'
  end.

(** [int(x)] of a float: truncation toward zero; an infinity raises
    [OverflowError] and nan raises [ValueError]. *)
Definition int_of_float (x : pyfloat) : result Z :=
  match x with
  | Finite q => Ok (Z.quot (Qnum q) (Zpos (Qden q)))
  | PosInf => Raise OverflowError
  | NegInf => Raise OverflowError
  | NaN => Raise ValueError
  end.

(** ** External collaborators *)

(** An element as [get_homesite_images] reads it. *)
Record Element : Type := {
  data_desktop_image : option string;
  src : option string;
  style : option string
}.

(** The rendered detail page: [find_all('div', class_='gallery-modal__item')]
    and [find_all(['div', 'img'])], in document order. *)
Record DetailPage : Type := {
  gallery_items : list Element;
  div_img_elements : list Element
}.

(** What the program asks of the outside world:
    - the interpreter's Unicode tables beyond ASCII: the decimal digits
      of [\d], [str.upper] and [str.capitalize];
    - Python's [float] on a string ([None] for a [ValueError]);
    - the browser behind [get_homesite_images] ([None] when the
      navigation or all three waits fail);
    - the geocoder behind [get_coordinates] ([None] when it finds nothing
      or raises);
    - whether [os.makedirs] and [open(path, 'w')] succeed for a path
      (a file that was opened is written whole);
    - the clock. *)
Record Env : Type := {
  unicode_decimal : char -> bool;
  unicode_upper : string -> string;
  unicode_capitalize : string -> string;
  float_of : string -> option pyfloat;
  driver_get : string -> option DetailPage;
  geocode : string -> option (pyfloat * pyfloat);
  can_open : string -> bool;
  now_isoformat : string
}.

Definition py_float (E : Env) (s : string) : result pyfloat :=
  match float_of E s with
  | Some x => Ok x
  | None => Raise ValueError
  end.

(** ** Character classes *)

Definition is_ascii_char (c : char) : bool := (c <? 128)%N.

(** [str.isspace] for one character, as [str.split] and [str.strip] use
    it. *)
Definition is_space (c : char) : bool :=
  (((9 <=? c) && (c <=? 13)) || ((28 <=? c) && (c <=? 32))
   || (c =? 133) || (c =? 160) || (c =? 5760)
   || ((8192 <=? c) && (c <=? 8202))
   || (c =? 8232) || (c =? 8233) || (c =? 8239) || (c =? 8287)
   || (c =? 12288))%N.

Definition is_ascii_digit (c : char) : bool := ((48 <=? c) && (c <=? 57))%N.

(** The regex class [\d]: a Unicode decimal digit. *)
Definition is_digit (E : Env) (c : char) : bool :=
  if is_ascii_char c then is_ascii_digit c else unicode_decimal E c.

(** The regex class [[\d,]]. *)
Definition is_price_char (E : Env) (c : char) : bool :=
  is_digit E c || char_eqb c ",".

Definition is_lower (c : char) : bool := ((97 <=? c) && (c <=? 122))%N.

Definition is_upper (c : char) : bool := ((65 <=? c) && (c <=? 90))%N.

Definition upper_char (c : char) : char :=
  if is_lower c then (c - 32)%N else c.

Definition lower_char (c : char) : char :=
  if is_upper c then (c + 32)%N else c.

(** ** String primitives of Python's [str] *)

Definition truthy (s : string) : bool :=
  match s with
  | EmptyString => false
  | String _ _ => true
  end.

(** [if x:] for an optional string: [None] and the empty string are falsy. *)
Definition truthy_opt (o : option string) : bool :=
  match o with
  | Some s => truthy s
  | None => false
  end.

Fixpoint str_map (f : char -> char) (s : string) : string :=
  match s with
  | EmptyString => EmptyString
  | String c s' => String (f c) (str_map f s')
  end.

Fixpoint str_forallb (p : char -> bool) (s : string) : bool :=
  match s with
  | EmptyString => true
  | String c s' => p c && str_forallb p s'
  end.

Definition is_ascii (s : string) : bool := str_forallb is_ascii_char s.

(** [s.upper()] *)
Definition upper (E : Env) (s : string) : string :=
  if is_ascii s then str_map upper_char s else unicode_upper E s.

(** [s.capitalize()] *)
Definition capitalize (E : Env) (s : string) : string :=
  if is_ascii s then
    match s with
    | EmptyString => EmptyString
    | String c s' => String (upper_char c) (str_map lower_char s')
    end
  else unicode_capitalize E s.

(** [s.lstrip()] *)
Fixpoint lstrip (s : string) : string :=
  match s with
  | EmptyString => EmptyString
  | String c s' => if is_space c then lstrip s' else s
  end.

(** [s.rstrip()] *)
Fixpoint rstrip (s : string) : string :=
  match s with
  | EmptyString => EmptyString
  | String c s' =>
      match rstrip s' with
      | EmptyString => if is_space c then EmptyString else String c EmptyString
      | r => String c r
      end
  end.

(** [s.strip()] *)
Definition strip (s : string) : string := rstrip (lstrip s).

(** Puts [c] in front of the first piece of a split. *)
Definition cons_first (c : char) (ws : list string) : list string :=
  match ws with
  | [] => [String c EmptyString]
  | w :: ws' => String c w :: ws'
  end.

(** [s.split()]: the maximal runs of non-whitespace characters. *)
Fixpoint split_ws (s : string) : list string :=
  match s with
  | EmptyString => []
  | String c s' =>
      if is_space c then split_ws s'
      else
        match s' with
        | EmptyString => [String c EmptyString]
        | String c' _ =>
            if is_space c' then String c EmptyString :: split_ws s'
            else cons_first c (split_ws s')
        end
  end.

(** [s.split(sep)] for a one-character separator: always at least one
    piece. *)
Fixpoint split_on (sep : char) (s : string) : list string :=
  match s with
  | EmptyString => [EmptyString]
  | String c s' =>
      if char_eqb c sep then EmptyString :: split_on sep s'
      else cons_first c (split_on sep s')
  end.

(** [sep.join(l)] *)
Fixpoint join (sep : string) (l : list string) : string :=
  match l with
  | [] => EmptyString
  | [w] => w
  | w :: l' => w ++ sep ++ join sep l'
  end.

(** [sub in s] *)
Fixpoint contains (sub s : string) : bool :=
  prefix sub s ||
  match s with
  | EmptyString => false
  | String _ s' => contains sub s'
  end.

Fixpoint replace_from (old new : string) (skip : nat) (s : string) : string :=
  match s with
  | EmptyString => EmptyString
  | String c s' =>
      match skip with
      | S k => replace_from old new k s'
      | O =>
          if prefix old s
          then new ++ replace_from old new (str_length old - 1) s'
          else String c (replace_from old new 0 s')
      end
  end.

(** [s.replace(old, new)] for a non-empty [old]: the non-overlapping
    occurrences, left to right. *)
Definition replace (old new s : string) : string := replace_from old new 0 s.

(** [l[-1]] of a non-empty list, and [l[i:-1]]. *)
Definition last_item (l : list string) : option string :=
  match l with
  | [] => None
  | _ => Some (last l EmptyString)
  end.

Definition slice_to_last (i : nat) (l : list string) : list string :=
  skipn i (removelast l).

Fixpoint str_of_uint (d : Decimal.uint) : string :=
  match d with
  | Decimal.Nil => EmptyString
  | Decimal.D0 d' => String "0" (str_of_uint d')
  | Decimal.D1 d' => String "1" (str_of_uint d')
  | Decimal.D2 d' => String "2" (str_of_uint d')
  | Decimal.D3 d' => String "3" (str_of_uint d')
  | Decimal.D4 d' => String "4" (str_of_uint d')
  | Decimal.D5 d' => String "5" (str_of_uint d')
  | Decimal.D6 d' => String "6" (str_of_uint d')
  | Decimal.D7 d' => String "7" (str_of_uint d')
  | Decimal.D8 d' => String "8" (str_of_uint d')
  | Decimal.D9 d' => String "9" (str_of_uint d')
  end.

(** [str(n)] of an integer. *)
Definition str_of_Z (z : Z) : string :=
  match Z.to_int z with
  | Decimal.Pos d => str_of_uint d
  | Decimal.Neg d => String "-" (str_of_uint d)
  end.

(** ** Text normalizer *)

(** [clean_text] *)
Definition clean_text (text : option string) : option string :=
  match text with
  | None => None
  | Some s =>
      if truthy s then Some (join " " (split_ws (strip s))) else None
  end.

(** The longest prefix of [s] made of [[\d,]] characters, and the rest. *)
Fixpoint span_price (E : Env) (s : string) : string * string :=
  match s with
  | EmptyString => (EmptyString, EmptyString)
  | String c s' =>
      if is_price_char E c
      then let (run, rest) := span_price E s' in (String c run, rest)
      else (EmptyString, s)
  end.

(** One anchored attempt of the currency regex at the head of [s]: a
    dollar sign, one or more digits or commas, an optional K.  Both
    quantifiers are greedy and nothing follows them, so the first attempt
    is the match. *)
Definition match_price_at (E : Env) (s : string) : option string :=
  match s with
  | String d s' =>
      if char_eqb d "$" then
        match span_price E s' with
        | (EmptyString, _) => None
        | (run, String k _) =>
            if char_eqb k "K" then Some (String "$" (run ++ "K"))
            else Some (String "$" run)
        | (run, EmptyString) => Some (String "$" run)
        end
      else None
  | EmptyString => None
  end.

Fixpoint findall_price_from (E : Env) (skip : nat) (s : string) : list string :=
  match s with
  | EmptyString => []
  | String _ s' =>
      match skip with
      | S k => findall_price_from E k s'
      | O =>
          match match_price_at E s with
          | Some tok => tok :: findall_price_from E (str_length tok - 1) s'
          | None => findall_price_from E 0 s'
          end
      end
  end.

(** [re.findall] of the currency regex: the non-overlapping matches,
    scanning left to right and resuming after each match. *)
Definition findall_price (E : Env) (s : string) : list string := findall_price_from E 0 s.

(** [extract_price_range] *)
Definition extract_price_range (E : Env) (text : option string) : option string :=
  match text with
  | None => None
  | Some s =>
      if truthy s then
        match findall_price E s with
        | [] => None
        | [p] => Some ("From " ++ p)
        | p :: q :: _ => Some (p ++ "-" ++ q)
        end
      else None
  end.

(** ** Regular-expression helpers *)

(** [s] without its prefix [p], when it starts with [p]. *)
Fixpoint strip_prefix (p s : string) : option string :=
  match p with
  | EmptyString => Some s
  | String a p' =>
      match s with
      | EmptyString => None
      | String b s' => if char_eqb a b then strip_prefix p' s' else None
      end
  end.

(** An anchored match of a sequence of one-character classes. *)
Fixpoint match_classes (ps : list (char -> bool)) (s : string) : bool :=
  match ps with
  | [] => true
  | p :: ps' =>
      match s with
      | EmptyString => false
      | String c s' => p c && match_classes ps' s'
      end
  end.

(** [re.search] of such a sequence: a match at some position. *)
Fixpoint search_classes (ps : list (char -> bool)) (s : string) : bool :=
  match_classes ps s ||
  match s with
  | EmptyString => false
  | String _ s' => search_classes ps s'
  end.

Fixpoint literal (s : string) : list (char -> bool) :=
  match s with
  | EmptyString => []
  | String c s' => char_eqb c :: literal s'
  end.

(** The price regex of the page: the literal text, a dollar sign and one
    or more digits or commas.  One such character after the dollar sign
    decides whether the pattern is found. *)
Definition plans_from_re (E : Env) : list (char -> bool) :=
  (literal "Plans from $" ++ [is_price_char E])%list.

(** The phone regex: three digits in parentheses, a space, three digits,
    a hyphen, four digits. *)
Definition phone_re (E : Env) : list (char -> bool) :=
  (literal "(" ++ [is_digit E; is_digit E; is_digit E] ++ literal ") "
   ++ [is_digit E; is_digit E; is_digit E] ++ literal "-"
   ++ [is_digit E; is_digit E; is_digit E; is_digit E])%list.

(** The amenity regex: one of four phrases. *)
Definition amenity_re (s : string) : bool :=
  contains "RV Garage" s || contains "Private Bedroom" s
  || contains "Covered Entry" s || contains "Sliding Door" s.

Definition double_quote : char := 34%N.

(** The regex class of the two quote characters. *)
Definition is_quote (c : char) : bool :=
  char_eqb c double_quote || char_eqb c "'".

Definition newline : char := 10%N.

(** The longest prefix of [s] without a single quote, and the rest. *)
Fixpoint span_not_quote (s : string) : string * string :=
  match s with
  | EmptyString => (EmptyString, EmptyString)
  | String c s' =>
      if char_eqb c "'" then (EmptyString, s)
      else let (run, rest) := span_not_quote s' in (String c run, rest)
  end.

(** The plan cards' style regex anchored at the head of [s]: the literal
    url, an opening parenthesis and a single quote, a greedy non-empty
    group of characters other than a single quote, then a single quote and
    a closing parenthesis.  The value is group 1. *)
Definition match_quoted_url_at (s : string) : option string :=
  match strip_prefix "url('" s with
  | Some r =>
      match span_not_quote r with
      | (EmptyString, _) => None
      | (run, rest) => if prefix "')" rest then Some run else None
      end
  | None => None
  end.

(** Group 1 of [re.search] with that regex: the leftmost match. *)
Fixpoint search_quoted_url (s : string) : option string :=
  match match_quoted_url_at s with
  | Some g => Some g
  | None =>
      match s with
      | EmptyString => None
      | String _ s' => search_quoted_url s'
      end
  end.

(** The lazy group of the detail pages' style regex with what follows it:
    the shortest run of characters other than a newline after which an
    optional quote and a closing parenthesis stand. *)
Fixpoint lazy_url_body (s : string) : option string :=
  match s with
  | EmptyString => None
  | String c s' =>
      if char_eqb c ")" then Some EmptyString
      else if is_quote c && prefix ")" s' then Some EmptyString
      else if char_eqb c newline then None
      else option_map (String c) (lazy_url_body s')
  end.

(** The detail pages' style regex anchored at the head of [s]: the literal
    url and an opening parenthesis, an optional quote, the lazy group, an
    optional quote and a closing parenthesis.  The value is group 1.  The
    opening quote, when present, is consumed: leaving it to the lazy group
    succeeds on no input on which consuming it fails. *)
Definition match_bg_url_at (s : string) : option string :=
  match strip_prefix "url(" s with
  | Some (String c r as body) =>
      if is_quote c then lazy_url_body r else lazy_url_body body
  | Some EmptyString => None
  | None => None
  end.

(** Group 1 of [re.search] with that regex: the leftmost match. *)
Fixpoint search_bg_url (s : string) : option string :=
  match match_bg_url_at s with
  | Some g => Some g
  | None =>
      match s with
      | EmptyString => None
      | String _ s' => search_bg_url s'
      end
  end.

(** ** Address resolver: the sales-office block *)

Record AddressInfo : Type := {
  full_address : string;
  city : string;
  state : string;
  market : string
}.

(** What [parse_address] finds in the page: the [image-content__main]
    block, its Sales Office paragraph, that paragraph's next sibling
    paragraph and its [stripped_strings]. *)
Inductive SalesOffice : Type :=
| NoContentDiv
| NoSalesOfficeLabel
| NoSiblingParagraph
| AddressParagraph (stripped_strings : list string).

Definition default_address : AddressInfo :=
  {| full_address := ""; city := ""; state := ""; market := "Phoenix" |}.

(** [l[i]] *)
Definition item {A : Type} (l : list A) (i : nat) : result A :=
  match nth_error l i with
  | Some a => Ok a
  | None => Raise IndexError
  end.

(** The body of [parse_address]'s [try]: [Ok None] when it falls through
    to the default return. *)
Definition parse_address_body (so : SalesOffice) : result (option AddressInfo) :=
  match so with
  | AddressParagraph strings =>
      let address_parts := map strip strings in
      if 2 <=? List.length address_parts then
        street <- item address_parts 0 ;;
        line2 <- item address_parts 1 ;;
        let city_state_zip := split_on "," line2 in
        if 2 <=? List.length city_state_zip then
          city0 <- item city_state_zip 0 ;;
          let city := strip city0 in
          part1 <- item city_state_zip 1 ;;
          let state_zip := split_ws (strip part1) in
          if 2 <=? List.length state_zip then
            state <- item state_zip 0 ;;
            zip_code <- item state_zip 1 ;;
            Ok (Some {| full_address :=
                          street ++ ", " ++ city ++ ", " ++ state ++ " " ++ zip_code;
                        city := city;
                        state := state;
                        market := "Phoenix" |})
          else Ok None
        else Ok None
      else Ok None
  | _ => Ok None
  end.

(** [parse_address]: any exception of the body is logged and the default
    is returned. *)
Definition parse_address (so : SalesOffice) : AddressInfo :=
  match parse_address_body so with
  | Ok (Some a) => a
  | Ok None => default_address
  | Raise _ => default_address
  end.

(** ** Homesite detail pages and their images *)

Definition is_valid_image_url (url : option string) : bool :=
  match url with
  | None => false
  | Some u =>
      if negb (truthy u) then false
      else if contains "bizible.com" u || contains "marvel-b1-cdn" u then false
      else if negb (contains "ashtonwoods.com" u || contains "widen.net" u) then false
      else true
  end.

(** [img_url in images] *)
Definition mem (u : string) (images : list string) : bool :=
  existsb (str_eqb u) images.

(** [if is_valid_image_url(img_url) and img_url not in images:
       images.append(img_url)] *)
Definition add_image (images : list string) (img_url : option string) : list string :=
  match img_url with
  | Some u =>
      if is_valid_image_url img_url && negb (mem u images)
      then (images ++ [u])%list
      else images
  | None => images
  end.

(** The background image of a [style] attribute. *)
Definition style_url (style : option string) : option string :=
  match style with
  | Some st =>
      if truthy st && contains "background-image" st then search_bg_url st
      else None
  | None => None
  end.

(** One turn of the loop over the main content area. *)
Definition scan_element (images : list string) (img : Element) : list string :=
  let images := add_image images (data_desktop_image img) in
  let images := add_image images (src img) in
  add_image images (style_url (style img)).

(** What [get_homesite_images] collects from a page that loaded. *)
Definition collect_images (page : DetailPage) : list string :=
  let images :=
    fold_left (fun images it => add_image images (data_desktop_image it))
              (gallery_items page) [] in
  let images :=
    match images with
    | [] => fold_left scan_element (div_img_elements page) images
    | _ => images
    end in
  firstn 12 images.

(** [get_homesite_images]: every exception ends in the empty list. *)
Definition get_homesite_images (E : Env) (url : string) : list string :=
  match driver_get E url with
  | Some page => collect_images page
  | None => []
  end.

(** ** Record assembler: numeric ranges *)

(** A value handed to [get_range_from_values]. *)
Inductive pyval : Type :=
| PNone
| PStr (s : string)
| PNum (x : pyfloat).

Definition is_not_none (v : pyval) : bool :=
  match v with
  | PNone => false
  | _ => true
  end.

(** [float(v)] *)
Definition to_float (E : Env) (v : pyval) : result pyfloat :=
  match v with
  | PNone => Raise TypeError
  | PStr s => py_float E s
  | PNum x => Ok x
  end.

(** [get_range_from_values]: the f-strings evaluate [int(min_val)] before
    [int(max_val)]. *)
Definition get_range_from_values (E : Env) (values : list pyval)
  : result (option string) :=
  match values with
  | [] => Ok None
  | _ =>
      floats <- map_result (to_float E) (filter is_not_none values) ;;
      match floats with
      | [] => Ok None
      | f :: fs =>
          let min_val := py_min_from f fs in
          let max_val := py_max_from f fs in
          if float_eq min_val max_val then
            lo <- int_of_float min_val ;;
            Ok (Some (str_of_Z lo))
          else
            lo <- int_of_float min_val ;;
            hi <- int_of_float max_val ;;
            Ok (Some (str_of_Z lo ++ " - " ++ str_of_Z hi))
      end
  end.

(** ** Plan and home cards *)

(** The link inside [h4.property-card__title]. *)
Record TitleLink : Type := {
  link_text : string;
  href : option string
}.

(** [a.property-card__image] *)
Record ImageAnchor : Type := {
  anchor_desktop_image : option string;
  anchor_style : option string
}.

(** [div.property-card__content]: the text of its list items and of its
    first paragraph. *)
Record CardContent : Type := {
  content_items : list string;
  content_paragraph : option string
}.

(** One [tabs__series-item] card as both extractors read it. *)
Record Card : Type := {
  card_title : option TitleLink;
  card_image : option ImageAnchor;
  card_price : option string;
  card_features : option (list string);
  card_content : option CardContent
}.

Module PlanDetails.
Record t : Type := {
  price : option string;
  beds : option string;
  baths : option string;
  sqft : option string;
  status : string;
  image_url : option string
}.
End PlanDetails.

Module HomePlan.
Record t : Type := {
  name : option string;
  url : option string;
  details : PlanDetails.t;
  includedFeatures : list (string * string);
  floorplan_images : list string
}.
End HomePlan.

Module Homesite.
Record t : Type := {
  name : option string;
  plan : option string;
  id : string;
  address : option string;
  price : option string;
  beds : option string;
  baths : option string;
  sqft : option string;
  status : string;
  image_url : option string;
  url : option string;
  latitude : option pyfloat;
  longitude : option pyfloat;
  overview : option string;
  images : list string
}.
End Homesite.

Definition site_root : string := "https://www.ashtonwoods.com".

Arguments site_root : simpl never.

(** [a['href']] *)
Definition href_of (l : TitleLink) : result string :=
  match href l with
  | Some h => Ok h
  | None => Raise (KeyError "href")
  end.

(** The price of a card: the cleaned text without its From prefix. *)
Definition card_price_text (c : Card) : option string :=
  match card_price c with
  | Some t =>
      match clean_text (Some t) with
      | Some price_text =>
          if truthy price_text then Some (replace "From " "" price_text) else None
      | None => None
      end
  | None => None
  end.

(** The beds, baths and sqft a feature list has set so far. *)
Record Features : Type := {
  f_beds : option string;
  f_baths : option string;
  f_sqft : option string
}.

Definition no_features : Features :=
  {| f_beds := None; f_baths := None; f_sqft := None |}.

(** One turn of the loop over the feature list's items. *)
Definition parse_feature (acc : Features) (li_text : string) : result Features :=
  match clean_text (Some li_text) with
  | None => Raise TypeError
  | Some text =>
      if contains "Beds" text then
        b <- item (split_ws text) 0 ;;
        Ok {| f_beds := Some b; f_baths := f_baths acc; f_sqft := f_sqft acc |}
      else if contains "Baths" text then
        let bath_parts := split_on "|" text in
        part0 <- item bath_parts 0 ;;
        main_baths <- item (split_ws (strip part0)) 0 ;;
        let half :=
          match bath_parts with
          | _ :: part1 :: _ => contains "Half" part1
          | _ => false
          end in
        Ok {| f_beds := f_beds acc;
              f_baths := Some (if half then main_baths ++ ".5" else main_baths);
              f_sqft := f_sqft acc |}
      else if contains "sq. ft." text then
        s <- item (split_ws text) 0 ;;
        Ok {| f_beds := f_beds acc; f_baths := f_baths acc;
              f_sqft := Some (replace "," "" s) |}
      else Ok acc
  end.

Fixpoint parse_features (acc : Features) (lis : list string) : result Features :=
  match lis with
  | [] => Ok acc
  | li :: lis' => acc' <- parse_feature acc li ;; parse_features acc' lis'
  end.

Definition card_feature_list (c : Card) : result Features :=
  match card_features c with
  | Some lis => parse_features no_features lis
  | None => Ok no_features
  end.

(** The image of a plan card. *)
Definition plan_image (c : Card) : option string :=
  match card_image c with
  | Some a =>
      if truthy_opt (anchor_desktop_image a) then anchor_desktop_image a
      else if truthy_opt (anchor_style a) then
        match anchor_style a with
        | Some st => search_quoted_url st
        | None => None
        end
      else None
  | None => None
  end.

(** [enumerate] over the highlight items, keeping those with text. *)
Fixpoint included_features (idx : nat) (items : list string) : list (string * string) :=
  match items with
  | [] => []
  | it :: items' =>
      match clean_text (Some it) with
      | Some feature_text =>
          if truthy feature_text
          then (str_of_Z (Z.of_nat idx), feature_text) :: included_features (S idx) items'
          else included_features (S idx) items'
      | None => included_features (S idx) items'
      end
  end.

(** The body of the [try] of [parse_homeplans] for one card: [Ok None]
    when the plan lacks its required data and is not appended. *)
Definition parse_plan_card (c : Card) : result (option HomePlan.t) :=
  name_url <-
    match card_title c with
    | Some l =>
        let name := clean_text (Some (link_text l)) in
        h <- href_of l ;; Ok (name, Some (site_root ++ h))
    | None => Ok (None, None)
    end ;;
  let image := plan_image c in
  let price := card_price_text c in
  fs <- card_feature_list c ;;
  let features :=
    match card_content c with
    | Some cc => included_features 0 (content_items cc)
    | None => []
    end in
  let plan_data :=
    {| HomePlan.name := fst name_url;
       HomePlan.url := snd name_url;
       HomePlan.details :=
         {| PlanDetails.price := price;
            PlanDetails.beds := f_beds fs;
            PlanDetails.baths := f_baths fs;
            PlanDetails.sqft := f_sqft fs;
            PlanDetails.status := "Actively selling";
            PlanDetails.image_url := image |};
       HomePlan.includedFeatures := features;
       HomePlan.floorplan_images := [] |} in
  if truthy_opt (HomePlan.name plan_data) && truthy_opt (HomePlan.url plan_data)
  then Ok (Some plan_data)
  else Ok None.

(** What one card adds to [homeplans]: a card that raises is logged and
    skipped. *)
Definition plan_card_output (c : Card) : list HomePlan.t :=
  match parse_plan_card c with
  | Ok (Some p) => [p]
  | _ => []
  end.

(** [parse_homeplans] *)
Definition parse_homeplans (panel : option (list Card)) : list HomePlan.t :=
  match panel with
  | Some plan_elements => flat_map plan_card_output plan_elements
  | None => []
  end.

(** ** Homesites *)

(** The street address rebuilt from a homesite URL: the address and the
    display name, or [None] when the slug has fewer than four tokens. *)
Definition parse_homesite_address (E : Env) (url : string) : option (string * string) :=
  let url_parts := split_on "/" url in
  match last_item url_parts with
  | Some lot_address =>
      let address_parts := split_on "-" lot_address in
      if 4 <=? List.length address_parts then
        match nth_error address_parts 2, nth_error address_parts 3 with
        | Some street_number, Some direction =>
            let street_direction := upper E direction in
            let street_name :=
              join " " (map (capitalize E) (slice_to_last 4 address_parts)) in
            let address := street_number ++ " " ++ street_direction ++ " "
                           ++ street_name ++ ", Laveen, AZ 85339" in
            let name_without_zip := street_number ++ " " ++ street_direction ++ " "
                                    ++ street_name ++ ", Laveen, AZ" in
            Some (address, name_without_zip)
        | _, _ => None
        end
      else None
  | None => None
  end.

Definition community_latitude : pyfloat := Finite (333539 # 10000)%Q.
Definition community_longitude : pyfloat := Finite (- (1121597 # 10000))%Q.

(** [get_coordinates] and the [if lat and lon] of its caller: the
    geocoder's pair when it found the address and neither coordinate is
    zero, else the community's. *)
Definition coordinates (E : Env) (address : string) : pyfloat * pyfloat :=
  match geocode E address with
  | Some (lat, lon) =>
      if float_truthy lat && float_truthy lon then (lat, lon)
      else (community_latitude, community_longitude)
  | None => (community_latitude, community_longitude)
  end.

(** The body of the [try] of [parse_homesites] for the card numbered
    [idx]: [Ok None] when the home lacks its required data. *)
Definition parse_home_card (E : Env) (idx : nat) (c : Card)
  : result (option Homesite.t) :=
  titled <-
    match card_title c with
    | Some l =>
        let plan := clean_text (Some (link_text l)) in
        h <- href_of l ;;
        let url := site_root ++ h in
        let detail_images := get_homesite_images E url in
        let shown :=
          match detail_images with
          | [] => ([], None)
          | first :: _ => (detail_images, Some first)
          end in
        let located :=
          match parse_homesite_address E url with
          | Some (address, name_without_zip) =>
              let (lat, lon) := coordinates E address in
              (Some address, Some name_without_zip, Some lat, Some lon)
          | None => (None, None, None, None)
          end in
        Ok (plan, Some url, shown, located)
    | None => Ok (None, None, ([], None), (None, None, None, None))
    end ;;
  let '(plan, url, (images, image_url), (address, name, lat, lon)) := titled in
  let price := card_price_text c in
  fs <- card_feature_list c ;;
  let overview :=
    match card_content c with
    | Some cc =>
        match content_paragraph cc with
        | Some p => clean_text (Some p)
        | None => None
        end
    | None => None
    end in
  let home_data :=
    {| Homesite.name := name;
       Homesite.plan := plan;
       Homesite.id := str_of_Z (Z.of_nat idx);
       Homesite.address := address;
       Homesite.price := price;
       Homesite.beds := f_beds fs;
       Homesite.baths := f_baths fs;
       Homesite.sqft := f_sqft fs;
       Homesite.status := "Move-in Ready";
       Homesite.image_url := image_url;
       Homesite.url := url;
       Homesite.latitude := lat;
       Homesite.longitude := lon;
       Homesite.overview := overview;
       Homesite.images := images |} in
  if truthy_opt (Homesite.name home_data) && truthy_opt (Homesite.url home_data)
  then Ok (Some home_data)
  else Ok None.

(** What one card adds to [homesites]: a card that raises is logged and
    skipped. *)
Definition home_card_output (E : Env) (idx : nat) (c : Card) : list Homesite.t :=
  match parse_home_card E idx c with
  | Ok (Some h) => [h]
  | _ => []
  end.

Fixpoint parse_home_cards (E : Env) (idx : nat) (cards : list Card) : list Homesite.t :=
  match cards with
  | [] => []
  | c :: cards' => (home_card_output E idx c ++ parse_home_cards E (S idx) cards')%list
  end.

(** [parse_homesites]: the cards are numbered from 1. *)
Definition parse_homesites (E : Env) (panel : option (list Card)) : list Homesite.t :=
  match panel with
  | Some home_elements => parse_home_cards E 1 home_elements
  | None => []
  end.

(** ** The community page and its record *)

(** The rendered community page as [parse_community_data] queries it. *)
Record CommunityPage : Type := {
  soup_h1 : option string;
  soup_strings : list string;
  soup_sales_office : SalesOffice;
  soup_description : option (option (option string));
  soup_carousel : option (list (option string));
  soup_home_plans : option (list Card);
  soup_quick_move_ins : option (list Card)
}.

Record Location : Type := {
  loc_latitude : pyfloat;
  loc_longitude : pyfloat;
  loc_city : string;
  loc_state : string;
  loc_market : string
}.

Module Details.
Record t : Type := {
  price_range : option string;
  sqft_range : option string;
  bed_range : option string;
  bath_range : option string;
  stories_range : string;
  community_count : Z
}.
End Details.

Record Amenity : Type := {
  amenity_name : option string;
  amenity_description : option string;
  icon_url : option string
}.

Record Collection : Type := {
  collection_name : string;
  collection_id : string;
  isActive : bool;
  nearbySchools : list string
}.

(** The values the community record holds. *)
Inductive value : Type :=
| VText (o : option string)
| VStrings (l : list string)
| VLocation (loc : Location)
| VHomeplans (l : list HomePlan.t)
| VHomesites (l : list Homesite.t)
| VDetails (d : Details.t)
| VAmenities (l : list Amenity)
| VNearby (l : list string)
| VCollections (l : list Collection).

(** The community record: a Python dict, keys in insertion order. *)
Definition Data : Type := list (string * value).

Fixpoint lookup (k : string) (d : Data) : option value :=
  match d with
  | [] => None
  | (k', v) :: d' => if str_eqb k' k then Some v else lookup k d'
  end.

(** [data[k] = v] *)
Fixpoint assign (k : string) (v : value) (d : Data) : Data :=
  match d with
  | [] => [(k, v)]
  | (k', v') :: d' =>
      if str_eqb k' k then (k, v) :: d' else (k', v') :: assign k v d'
  end.

Definition keys (d : Data) : list string := map fst d.

(** Statements that update the record and can raise: the record as it
    stands comes back either way. *)
Definition M (A : Type) : Type := Data -> Data * result A.

Definition ret {A : Type} (a : A) : M A := fun d => (d, Ok a).

Definition mbind {A B : Type} (m : M A) (k : A -> M B) : M B :=
  fun d =>
    match m d with
    | (d', Ok a) => k a d'
    | (d', Raise e) => (d', Raise e)
    end.

Notation "x <~ m ;; k" := (mbind m (fun x => k))
  (at level 61, m at next level, right associativity).
Notation "m ;;; k" := (mbind m (fun _ => k))
  (at level 61, right associativity).

Definition set_item (k : string) (v : value) : M unit :=
  fun d => (assign k v d, Ok tt).

(** [data[k]] *)
Definition get_item (k : string) : M value :=
  fun d =>
    match lookup k d with
    | Some v => (d, Ok v)
    | None => (d, Raise (KeyError k))
    end.

Definition lift {A : Type} (r : result A) : M A := fun d => (d, r).

Definition when (b : bool) (m : M unit) : M unit := if b then m else ret tt.

(** The text a record entry holds ([price_from] and [images] only ever
    hold these shapes). *)
Definition as_text (v : value) : option string :=
  match v with
  | VText o => o
  | _ => None
  end.

Definition as_strings (v : value) : list string :=
  match v with
  | VStrings l => l
  | _ => []
  end.

(** [soup.find(string=re.compile(...))]: the first text node on which the
    regex is found. *)
Definition find_string (re : string -> bool) (p : CommunityPage) : option string :=
  find re (soup_strings p).

(** The first item of a list with a truthy field. *)
Definition first_truthy {A : Type} (f : A -> option string) (l : list A) : option string :=
  match find (fun a => truthy_opt (f a)) l with
  | Some a => f a
  | None => None
  end.

(** The truthy values of a field over a list of records. *)
Definition truthy_fields {A : Type} (f : A -> option string) (l : list A) : list string :=
  flat_map (fun a =>
              match f a with
              | Some s => if truthy s then [s] else []
              | None => []
              end) l.

(** The three value lists the ranges are computed from. *)
Record RangeValues : Type := {
  sqft_values : list string;
  bed_values : list string;
  bath_values : list pyfloat
}.

Definition plan_sqft (p : HomePlan.t) : option string := PlanDetails.sqft (HomePlan.details p).
Definition plan_beds (p : HomePlan.t) : option string := PlanDetails.beds (HomePlan.details p).
Definition plan_baths (p : HomePlan.t) : option string := PlanDetails.baths (HomePlan.details p).

(** The selection of range values in [parse_community_data]: homesites
    first, then for each list that came out empty the homeplans. *)
Definition range_values (E : Env) (homesites : list Homesite.t)
           (homeplans : list HomePlan.t) : result RangeValues :=
  let sqft_values := truthy_fields Homesite.sqft homesites in
  let bed_values := truthy_fields Homesite.beds homesites in
  bath_values <- map_result (py_float E) (truthy_fields Homesite.baths homesites) ;;
  let sqft_values :=
    match sqft_values with
    | [] => truthy_fields plan_sqft homeplans
    | _ => sqft_values
    end in
  let bed_values :=
    match bed_values with
    | [] => truthy_fields plan_beds homeplans
    | _ => bed_values
    end in
  bath_values <-
    match bath_values with
    | [] => map_result (py_float E) (truthy_fields plan_baths homeplans)
    | _ => Ok bath_values
    end ;;
  Ok {| sqft_values := sqft_values;
        bed_values := bed_values;
        bath_values := bath_values |}.

Definition parse_amenities (p : CommunityPage) : list Amenity :=
  map (fun text =>
         {| amenity_name := clean_text (Some text);
            amenity_description := clean_text (Some text);
            icon_url := None |})
      (filter amenity_re (soup_strings p)).

Definition parse_nearby_places (p : CommunityPage) : list string := [].

Definition parse_collections (p : CommunityPage) : list Collection :=
  map (fun name =>
         {| collection_name := name;
            collection_id := "0";
            isActive := true;
            nearbySchools := [] |})
      ["Estates at Estrella Crossing"].

(** The body of the [try] of [parse_community_data]. *)
Definition parse_community_body (E : Env) (p : CommunityPage) : M unit :=
  (* WebDriverWait for an h1 *)
  lift (match soup_h1 p with
        | Some _ => Ok tt
        | None => Raise TimeoutException
        end) ;;;
  set_item "name" (VText (match soup_h1 p with
                          | Some t => clean_text (Some t)
                          | None => None
                          end)) ;;;
  (match find_string (search_classes (plans_from_re E)) p with
   | Some price_text =>
       when (truthy price_text)
            (set_item "price_from" (VText (extract_price_range E (Some price_text))))
   | None => ret tt
   end) ;;;
  let address_info := parse_address (soup_sales_office p) in
  set_item "address" (VText (Some (full_address address_info))) ;;;
  set_item "location"
           (VLocation {| loc_latitude := community_latitude;
                         loc_longitude := community_longitude;
                         loc_city := city address_info;
                         loc_state := state address_info;
                         loc_market := market address_info |}) ;;;
  set_item "phone"
           (VText (match find_string (search_classes (phone_re E)) p with
                   | Some phone_elem =>
                       if truthy phone_elem then clean_text (Some phone_elem) else None
                   | None => None
                   end)) ;;;
  set_item "description" (VText None) ;;;
  (match soup_description p with
   | Some (Some (Some first_p)) =>
       set_item "description" (VText (clean_text (Some first_p)))
   | _ => ret tt
   end) ;;;
  set_item "images" (VStrings []) ;;;
  (match soup_carousel p with
   | Some slides =>
       match first_truthy (fun slide => slide) slides with
       | Some img => set_item "images" (VStrings [img])
       | None => ret tt
       end
   | None => ret tt
   end) ;;;
  let homeplans := parse_homeplans (soup_home_plans p) in
  set_item "homeplans" (VHomeplans homeplans) ;;;
  let homesites := parse_homesites E (soup_quick_move_ins p) in
  set_item "homesites" (VHomesites homesites) ;;;
  images <~ get_item "images" ;;
  (match as_strings images with
   | [] =>
       match first_truthy (fun plan => PlanDetails.image_url (HomePlan.details plan))
                          homeplans with
       | Some img => set_item "images" (VStrings [img])
       | None =>
           match first_truthy Homesite.image_url homesites with
           | Some img => set_item "images" (VStrings [img])
           | None => ret tt
           end
       end
   | _ => ret tt
   end) ;;;
  rv <~ lift (range_values E homesites homeplans) ;;
  price_from <~ get_item "price_from" ;;
  sqft_range <~ lift (get_range_from_values E (map PStr (sqft_values rv))) ;;
  bed_range <~ lift (get_range_from_values E (map PStr (bed_values rv))) ;;
  bath_range <~ lift (get_range_from_values E (map PNum (bath_values rv))) ;;
  set_item "details"
           (VDetails {| Details.price_range := as_text price_from;
                        Details.sqft_range := sqft_range;
                        Details.bed_range := bed_range;
                        Details.bath_range := bath_range;
                        Details.stories_range := "1 - 2";
                        Details.community_count := 1%Z |}) ;;;
  set_item "amenities" (VAmenities (parse_amenities p)) ;;;
  set_item "nearbyplaces" (VNearby (parse_nearby_places p)) ;;;
  set_item "collections" (VCollections (parse_collections p)).

Definition initial_data (E : Env) (url : string) : Data :=
  [("timestamp", VText (Some (now_isoformat E)));
   ("url", VText (Some url));
   ("builder", VText (Some "Ashton Woods"));
   ("status", VText None)].

(** [parse_community_data] with the exception its handler logged, if any:
    the record is returned as it stood when the body stopped. *)
Definition run_parse_community_data (E : Env) (url : string) (p : CommunityPage)
  : Data * option exn :=
  match parse_community_body E p (initial_data E url) with
  | (data, Ok _) => (data, None)
  | (data, Raise e) => (data, Some e)
  end.

Definition parse_community_data (E : Env) (url : string) (p : CommunityPage) : Data :=
  fst (run_parse_community_data E url p).

(** ** Orchestrator: the two output files *)

Inductive file : Type :=
| HtmlFile (page_source : CommunityPage)
| JsonFile (data : Data).

(** The files on disk, by path. *)
Definition FS : Type := list (string * file).

Fixpoint path_exists (path : string) (fs : FS) : bool :=
  match fs with
  | [] => false
  | (p, _) :: fs' => str_eqb p path || path_exists path fs'
  end.

Fixpoint read_file (path : string) (fs : FS) : option file :=
  match fs with
  | [] => None
  | (p, f) :: fs' => if str_eqb p path then Some f else read_file path fs'
  end.

(** A successful [open(path, 'w')] and its write: the file is created or
    replaced. *)
Fixpoint write_file (path : string) (f : file) (fs : FS) : FS :=
  match fs with
  | [] => [(path, f)]
  | (p, g) :: fs' =>
      if str_eqb p path then (path, f) :: fs' else (p, g) :: write_file path f fs'
  end.

(** [l[-2]] *)
Definition item_before_last (l : list string) : result string :=
  match rev l with
  | _ :: x :: _ => Ok x
  | _ => Raise IndexError
  end.

(** The file-name slug of a community URL. *)
Definition community_name_of (url : string) : result string :=
  let parts := split_on "/" url in
  name <-
    match last_item parts with
    | Some l => if prefix "#" l then item_before_last parts else Ok l
    | None => Raise IndexError
    end ;;
  item (split_on "?" name) 0.

Definition output_file_of (community_name : string) : string :=
  "data/ashtonwoods/json/ashtonwoods_" ++ community_name ++ ".json".

Definition html_file_of (community_name : string) : string :=
  "data/ashtonwoods/html/ashtonwoods_" ++ community_name ++ ".html".

(** [process_community_url]: [p] is the page the driver shows after
    [driver.get(url)], without a heading when the navigation or the wait
    fails.  Every exception is logged and ends the call: a bad URL, the
    wait that times out, and the [OSError] of [os.makedirs] or [open] for
    either file.  The snapshot is written before the record is parsed. *)
Definition process_community_url (E : Env) (fs : FS) (url : string)
           (p : CommunityPage) : FS :=
  match community_name_of url with
  | Raise _ => fs
  | Ok community_name =>
      let output_file := output_file_of community_name in
      if path_exists output_file fs then fs
      else
        match soup_h1 p with
        | None => fs
        | Some _ =>
            let html_file := html_file_of community_name in
            if can_open E html_file then
              let fs := write_file html_file (HtmlFile p) fs in
              let data := parse_community_data E url p in
              if can_open E output_file
              then write_file output_file (JsonFile data) fs
              else fs
            else fs
        end
  end.

(** ** Text normalizer: number ranges *)

(** The longest prefix of [s] made of digits, and the rest. *)
Fixpoint span_digits (E : Env) (s : string) : string * string :=
  match s with
  | EmptyString => (EmptyString, EmptyString)
  | String c s' =>
      if is_digit E c
      then let (run, rest) := span_digits E s' in (String c run, rest)
      else (EmptyString, s)
  end.

(** One anchored attempt of the number regex at the head of [s]: one or
    more digits, then optionally a comma with one or more digits.  The
    quantifiers are greedy and nothing follows the optional group, so the
    first attempt is the match. *)
Definition match_number_at (E : Env) (s : string) : option string :=
  match span_digits E s with
  | (EmptyString, _) => None
  | (digits, String k rest) =>
      if char_eqb k "," then
        match span_digits E rest with
        | (EmptyString, _) => Some digits
        | (more, _) => Some (digits ++ String "," more)
        end
      else Some digits
  | (digits, EmptyString) => Some digits
  end.

Fixpoint findall_number_from (E : Env) (skip : nat) (s : string) : list string :=
  match s with
  | EmptyString => []
  | String _ s' =>
      match skip with
      | S k => findall_number_from E k s'
      | O =>
          match match_number_at E s with
          | Some tok => tok :: findall_number_from E (str_length tok - 1) s'
          | None => findall_number_from E 0 s'
          end
      end
  end.

(** [re.findall] of the number regex. *)
Definition findall_number (E : Env) (s : string) : list string := findall_number_from E 0 s.

(** [extract_number_range] *)
Definition extract_number_range (E : Env) (text : option string) : option string :=
  match text with
  | None => None
  | Some s =>
      if truthy s then
        match findall_number E s with
        | [] => None
        | [n] => Some n
        | n :: rest => Some (n ++ " - " ++ last rest n)
        end
      else None
  end.

(** ** Orchestrator: the command line *)

(** The parsed arguments: [--url] and [--batch]. *)
Record Args : Type := {
  arg_url : option string;
  arg_batch : bool
}.

(** The file [ashtonwoods_links.json] as [main] finds it: missing, not
    loadable, or a list of URL strings. *)
Inductive LinksFile : Type :=
| LinksMissing
| LinksInvalid
| Links (urls : list string).

Definition default_url : string :=
  "https://www.ashtonwoods.com/phoenix/estrella-crossing-community?comm=PHO|MCESCR#quick-move-ins".

(** The loop of the batch mode: [browser url] is the page the driver
    shows after [driver.get(url)]. *)
Definition process_urls (browser : string -> CommunityPage) (E : Env)
           (fs : FS) (urls : list string) : FS :=
  fold_left (fun fs url => process_community_url E fs url (browser url)) urls fs.

(** [main]: the files after the run.  [driver_started] tells whether
    [setup_driver] returned; when it raised, nothing is processed. *)
Definition main (browser : string -> CommunityPage) (E : Env) (driver_started : bool)
           (args : Args) (links : LinksFile) (fs : FS) : FS :=
  if driver_started then
    if truthy_opt (arg_url args) then
      match arg_url args with
      | Some url => process_community_url E fs url (browser url)
      | None => fs
      end
    else if arg_batch args then
      match links with
      | LinksMissing => fs
      | LinksInvalid => fs
      | Links urls => process_urls browser E fs urls
      end
    else process_community_url E fs default_url (browser default_url)
  else fs.

(** ** A concrete environment for worked examples *)

Fixpoint digits_value (acc : Z) (s : string) : option Z :=
  match s with
  | EmptyString => Some acc
  | String c s' =>
      if is_ascii_digit c
      then digits_value (10 * acc + Z.of_N (c - 48))%Z s'
      else None
  end.

(** [float] on plain decimal literals (digits, optionally a point and
    more digits) and on the spellings of the infinities and of nan.  What
    it accepts Python accepts, with this value; Python accepts more. *)
Definition decimal_float (s : string) : option pyfloat :=
  if str_eqb s "inf" then Some PosInf
  else if str_eqb s "-inf" then Some NegInf
  else if str_eqb s "nan" then Some NaN
  else
    match split_on "." s with
    | [whole] =>
        if truthy whole
        then option_map (fun z => Finite (inject_Z z)) (digits_value 0 whole)
        else None
    | [whole; frac] =>
        if truthy whole && truthy frac then
          match digits_value 0 whole, digits_value 0 frac with
          | Some w, Some f =>
              let scale := (10 ^ Z.of_nat (str_length frac))%Z in
              Some (Finite (Qmake (w * scale + f) (Z.to_pos scale)))
          | _, _ => None
          end
        else None
    | _ => None
    end.

(** An interpreter whose tables know no digit beyond ASCII and leave
    other text as it is; no detail page loads, no address is geocoded and
    every file can be written. *)
Definition offline_env : Env :=
  {| unicode_decimal := fun _ => false;
     unicode_upper := fun s => s;
     unicode_capitalize := fun s => s;
     float_of := decimal_float;
     driver_get := fun _ => None;
     geocode := fun _ => None;
     can_open := fun _ => true;
     now_isoformat := "2024-01-01T00:00:00" |}.

(** The same, on a disk that refuses every file. *)
Definition read_only_env : Env :=
  {| unicode_decimal := fun _ => false;
     unicode_upper := fun s => s;
     unicode_capitalize := fun s => s;
     float_of := decimal_float;
     driver_get := fun _ => None;
     geocode := fun _ => None;
     can_open := fun _ => false;
     now_isoformat := "2024-01-01T00:00:00" |}.

(** A quick-move-in card whose slug has three tokens. *)
Definition short_slug_card : Card :=
  {| card_title := Some {| link_text := "Jade";
                           href := Some "/phoenix/estrella/lot-584-5510" |};
     card_image := None;
     card_price := Some "From $450,000";
     card_features := Some ["4 Beds"; "3 Baths"; "2,345 sq. ft."];
     card_content := None |}.

(** A detail page with a repeated image, a tracking pixel, a foreign host
    and fourteen distinct gallery images. *)
Definition crowded_gallery : DetailPage :=
  {| gallery_items :=
       map (fun u => {| data_desktop_image := Some u; src := None; style := None |})
           ["https://cdn.ashtonwoods.com/a.jpg";
            "https://cdn.ashtonwoods.com/a.jpg";
            "https://cdn.bizible.com/ashtonwoods.com/pixel.gif";
            "https://example.org/b.jpg";
            "https://x.widen.net/01.jpg"; "https://x.widen.net/02.jpg";
            "https://x.widen.net/03.jpg"; "https://x.widen.net/04.jpg";
            "https://x.widen.net/05.jpg"; "https://x.widen.net/06.jpg";
            "https://x.widen.net/07.jpg"; "https://x.widen.net/08.jpg";
            "https://x.widen.net/09.jpg"; "https://x.widen.net/10.jpg";
            "https://x.widen.net/11.jpg"; "https://x.widen.net/12.jpg";
            "https://x.widen.net/13.jpg"];
     div_img_elements := [] |}.

(** Every detail page shows [crowded_gallery]. *)
Definition gallery_env : Env :=
  {| unicode_decimal := fun _ => false;
     unicode_upper := fun s => s;
     unicode_capitalize := fun s => s;
     float_of := decimal_float;
     driver_get := fun _ => Some crowded_gallery;
     geocode := fun _ => None;
     can_open := fun _ => true;
     now_isoformat := "2024-01-01T00:00:00" |}.

(** A complete card, and cards that lack the title link but have every
    other field, lack the [href], or have a blank link text. *)
Definition jade_card : Card :=
  {| card_title := Some {| link_text := "Jade";
                           href := Some "/phoenix/estrella/lot-584-5510-w-paseo-way-jade" |};
     card_image := None;
     card_price := Some "From $450,000";
     card_features := Some ["4 Beds"; "3 Baths"; "2,345 sq. ft."];
     card_content := None |}.

Definition untitled_card : Card :=
  {| card_title := None;
     card_image := Some {| anchor_desktop_image := Some "https://x.widen.net/p.jpg";
                           anchor_style := None |};
     card_price := Some "From $450,000";
     card_features := Some ["4 Beds"; "3 Baths | 1 Half"; "2,345 sq. ft."];
     card_content := Some {| content_items := ["Covered Entry"];
                             content_paragraph := Some "Overview" |} |}.

Definition unlinked_card : Card :=
  {| card_title := Some {| link_text := "Jade"; href := None |};
     card_image := None;
     card_price := Some "From $450,000";
     card_features := Some ["4 Beds"];
     card_content := None |}.

Definition blank_title_card : Card :=
  {| card_title := Some {| link_text := "  ";
                           href := Some "/phoenix/estrella/lot-584-5510-w-paseo-way-jade" |};
     card_image := None;
     card_price := Some "From $450,000";
     card_features := Some ["4 Beds"];
     card_content := None |}.

(** A quick-move-in card that states only its area, and a plan card that
    states beds, baths and area. *)
Definition area_only_card : Card :=
  {| card_title := Some {| link_text := "Jade";
                           href := Some "/phoenix/estrella/lot-584-5510-w-paseo-way-jade" |};
     card_image := None;
     card_price := None;
     card_features := Some ["2,000 sq. ft."];
     card_content := None |}.

Definition full_plan_card : Card :=
  {| card_title := Some {| link_text := "Opal"; href := Some "/phoenix/estrella/opal" |};
     card_image := None;
     card_price := Some "From $400,000";
     card_features := Some ["3 Beds"; "2 Baths"; "1,800 sq. ft."];
     card_content := None |}.

(** A quick-move-in card whose bath count is spelled out. *)
Definition spelled_baths_card : Card :=
  {| card_title := Some {| link_text := "Jade";
                           href := Some "/phoenix/estrella/lot-584-5510-w-paseo-way-jade" |};
     card_image := None;
     card_price := Some "From $450,000";
     card_features := Some ["4 Beds"; "Two Baths"; "2,345 sq. ft."];
     card_content := None |}.

(** A rendered community page without a price text. *)
Definition unpriced_page (homes : list Card) : CommunityPage :=
  {| soup_h1 := Some "Estrella Crossing";
     soup_strings := ["Estrella Crossing"; "Sales Office"; "Covered Entry"];
     soup_sales_office := AddressParagraph ["123 Main St"; "Laveen, AZ 85339"];
     soup_description := None;
     soup_carousel := None;
     soup_home_plans := Some [full_plan_card];
     soup_quick_move_ins := Some homes |}.

Definition estrella_url : string :=
  "https://www.ashtonwoods.com/phoenix/estrella-crossing-community?comm=PHO|MCESCR#quick-move-ins".

(** A disk that already holds the record of another community, a browser
    that shows the unpriced page for every URL, and a command line without
    arguments. *)
Definition stored_record_fs : FS :=
  [(output_file_of "laveen-meadows", JsonFile [("builder", VText (Some "Ashton Woods"))])].

Definition estrella_browser (url : string) : CommunityPage :=
  unpriced_page [jade_card].

Definition no_args : Args := {| arg_url := None; arg_batch := false |}.

(** A rendered community page with a price text, a phone number and a
    carousel. *)
Definition priced_page : CommunityPage :=
  {| soup_h1 := Some "Estrella Crossing";
     soup_strings := ["Estrella Crossing"; "Plans from $300K to $450,000";
                      "Call (602) 555-0100"; "Covered Entry"];
     soup_sales_office := AddressParagraph ["123 Main St"; "Laveen, AZ 85339"];
     soup_description := Some (Some (Some "  A new   community. "));
     soup_carousel := Some [None; Some "https://x.widen.net/hero.jpg"];
     soup_home_plans := Some [full_plan_card];
     soup_quick_move_ins := Some [jade_card] |}.

(** The priced page with a homesite that states only its area, and the
    details of its record. *)
Definition mixed_page : CommunityPage :=
  {| soup_h1 := Some "Estrella Crossing";
     soup_strings := ["Estrella Crossing"; "Plans from $300K to $450,000";
                      "Call (602) 555-0100"; "Covered Entry"];
     soup_sales_office := AddressParagraph ["123 Main St"; "Laveen, AZ 85339"];
     soup_description := Some (Some (Some "  A new   community. "));
     soup_carousel := Some [None; Some "https://x.widen.net/hero.jpg"];
     soup_home_plans := Some [full_plan_card];
     soup_quick_move_ins := Some [area_only_card] |}.

Definition mixed_details : Details.t :=
  {| Details.price_range := Some "$300K-$450,000";
     Details.sqft_range := Some "2000";
     Details.bed_range := Some "3";
     Details.bath_range := Some "2";
     Details.stories_range := "1 - 2";
     Details.community_count := 1%Z |}.

(** A geocoder that finds every address at one place, and one that
    answers with a zero longitude. *)
Definition found_env : Env :=
  {| unicode_decimal := fun _ => false;
     unicode_upper := fun s => s;
     unicode_capitalize := fun s => s;
     float_of := decimal_float;
     driver_get := fun _ => None;
     geocode := fun _ => Some (Finite (334 # 10), Finite (- (1122 # 10)))%Q;
     can_open := fun _ => true;
     now_isoformat := "2024-01-01T00:00:00" |}.

Definition zero_longitude_env : Env :=
  {| unicode_decimal := fun _ => false;
     unicode_upper := fun s => s;
     unicode_capitalize := fun s => s;
     float_of := decimal_float;
     driver_get := fun _ => None;
     geocode := fun _ => Some (Finite (33 # 1), Finite 0)%Q;
     can_open := fun _ => true;
     now_isoformat := "2024-01-01T00:00:00" |}.

(** ** Vocabulary of the properties *)

(** A word: a non-empty run of characters that are not whitespace. *)
Definition is_word (w : string) : Prop :=
  w <> "" /\ str_forallb (fun c => negb (is_space c)) w = true.

(** Whitespace collapsed and ends trimmed: the text does not begin with
    whitespace, and each whitespace character in it is one space with a
    character that is not whitespace right after it. *)
Fixpoint single_spaced (s : string) : bool :=
  match s with
  | EmptyString => true
  | String c s' =>
      (if is_space c
       then char_eqb c " " &&
            match s' with
            | EmptyString => false
            | String c' _ => negb (is_space c')
            end
       else true) && single_spaced s'
  end.

Definition normalized (s : string) : Prop :=
  single_spaced s = true /\
  match s with
  | EmptyString => True
  | String c _ => is_space c = false
  end.

(** [seg] is the trailing path segment of [url]: what stands after the
    last slash. *)
Definition final_segment (url seg : string) : Prop :=
  (exists site, url = site ++ String "/" seg) /\
  str_forallb (fun c => negb (char_eqb c "/")) seg = true.

(** An image URL the detail-page scan may keep: from neither tracking
    domain, and from one of the two allowed domains. *)
Definition allowed_image (u : string) : Prop :=
  contains "bizible.com" u = false /\
  contains "marvel-b1-cdn" u = false /\
  (contains "ashtonwoods.com" u = true \/ contains "widen.net" u = true).

(** What the image list satisfies at every point of the scan. *)
Definition images_ok (images : list string) : Prop :=
  NoDup images /\ Forall allowed_image images.

(** A plan and a homesite with both a name and a URL. *)
Definition plan_complete (p : HomePlan.t) : Prop :=
  exists n u, HomePlan.name p = Some n /\ n <> "" /\
              HomePlan.url p = Some u /\ u <> "".

Definition home_complete (h : Homesite.t) : Prop :=
  exists n u, Homesite.name h = Some n /\ n <> "" /\
              Homesite.url h = Some u /\ u <> "".

(** The range as the specification words it: entries that do not convert
    to a number are dropped, the rest is ranged. *)
Definition convertible (E : Env) (v : pyval) : list pyfloat :=
  match v with
  | PNone => []
  | PStr s => match float_of E s with Some (Finite q) => [Finite q] | _ => [] end
  | PNum (Finite q) => [Finite q]
  | PNum _ => []
  end.

Definition rangeOf_claimed (E : Env) (values : list pyval) : option string :=
  match flat_map (convertible E) values with
  | [] => None
  | f :: fs =>
      let min_val := py_min_from f fs in
      let max_val := py_max_from f fs in
      match int_of_float min_val, int_of_float max_val with
      | Ok lo, Ok hi =>
          Some (if float_eq min_val max_val
                then str_of_Z lo
                else str_of_Z lo ++ " - " ++ str_of_Z hi)
      | _, _ => None
      end
  end.

(** The list a range field is computed from: the homesites' values, or
    the homeplans' when the homesites have none. *)
Definition first_nonempty (from_homesites from_homeplans : list string) : list string :=
  match from_homesites with
  | [] => from_homeplans
  | _ => from_homesites
  end.

(** The keys of a community record whose page shows no price text. *)
Definition unpriced_keys : list string :=
  ["timestamp"; "url"; "builder"; "status"; "name"; "address"; "location";
   "phone"; "description"; "images"; "homeplans"; "homesites"].

(** The address as a function of the hyphen-separated tokens of the
    trailing path segment. *)
Definition address_of_tokens (E : Env) (tokens : list string) : option (string * string) :=
  match tokens with
  | _ :: _ :: number :: direction :: more =>
      let street_name := join " " (map (capitalize E) (removelast more)) in
      Some (number ++ " " ++ upper E direction ++ " " ++ street_name
              ++ ", Laveen, AZ 85339",
            number ++ " " ++ upper E direction ++ " " ++ street_name
              ++ ", Laveen, AZ")
  | _ => None
  end.

(** A currency token: a dollar sign, one or more digits or commas, and
    optionally a K. *)
Definition price_token (E : Env) (t : string) : Prop :=
  exists run,
    run <> "" /\ str_forallb (is_price_char E) run = true /\
    (t = String "$" run \/ t = String "$" (run ++ "K")).

(** The currency token as the specification words it: a dollar sign,
    digits with optional thousands separators, that is one or more groups
    of digits with a comma between two groups, and optionally a K. *)
Definition claimed_price_token (E : Env) (t : string) : Prop :=
  exists groups,
    groups <> [] /\
    Forall (fun g => g <> "" /\ str_forallb (is_digit E) g = true) groups /\
    (t = String "$" (join "," groups) \/ t = String "$" (join "," groups ++ "K")).

(** [tok] stands somewhere in [text]. *)
Definition occurs (tok text : string) : Prop :=
  exists pre post, text = pre ++ tok ++ post.

(** One of the four amenity phrases stands in [text]. *)
Definition names_amenity (text : string) : Prop :=
  occurs "RV Garage" text \/ occurs "Private Bedroom" text
  \/ occurs "Covered Entry" text \/ occurs "Sliding Door" text.

Definition no_price_in (E : Env) (text : string) : Prop :=
  forall tok, price_token E tok -> ~ occurs tok text.

(** A currency token starts at the head of [s]. *)
Definition starts_price (E : Env) (s : string) : bool :=
  match s with
  | String d (String c _) => char_eqb d "$" && is_price_char E c
  | _ => false
  end.

(** A number token: one or more digits, optionally followed by a comma
    and one or more digits. *)
Definition number_token (E : Env) (t : string) : Prop :=
  exists digits,
    digits <> "" /\ str_forallb (is_digit E) digits = true /\
    (t = digits \/
     exists more, more <> "" /\ str_forallb (is_digit E) more = true /\
                  t = digits ++ String "," more).

(** Why a call of [process_community_url] leaves the files alone: the URL
    gives no slug, the record is already on disk, the page never shows
    its heading, or the snapshot cannot be opened. *)
Definition skipped (E : Env) (fs : FS) (url : string) (p : CommunityPage) : Prop :=
  (exists e, community_name_of url = Raise e) \/
  (exists name, community_name_of url = Ok name /\
                (path_exists (output_file_of name) fs = true \/
                 soup_h1 p = None \/
                 can_open E (html_file_of name) = false)).

(** The call for [url] writes the snapshot of the community [name] when
    the record of [name] is not on disk. *)
Definition snapshot_call (browser : string -> CommunityPage) (E : Env)
           (name url : string) : bool :=
  match community_name_of url with
  | Ok m =>
      str_eqb m name
      && match soup_h1 (browser url) with Some _ => true | None => false end
      && can_open E (html_file_of name)
  | Raise _ => false
  end.

(** *** The steps of [parse_community_data] *)

(** The branching statements of the body of [parse_community_data], each
    under a name. *)
Definition price_step (E : Env) (p : CommunityPage) : M unit :=
  match find_string (search_classes (plans_from_re E)) p with
  | Some price_text =>
      when (truthy price_text)
           (set_item "price_from" (VText (extract_price_range E (Some price_text))))
  | None => ret tt
  end.

Definition description_step (p : CommunityPage) : M unit :=
  match soup_description p with
  | Some (Some (Some first_p)) =>
      set_item "description" (VText (clean_text (Some first_p)))
  | _ => ret tt
  end.

Definition carousel_step (p : CommunityPage) : M unit :=
  match soup_carousel p with
  | Some slides =>
      match first_truthy (fun slide => slide) slides with
      | Some img => set_item "images" (VStrings [img])
      | None => ret tt
      end
  | None => ret tt
  end.

Definition fallback_step (homeplans : list HomePlan.t) (homesites : list Homesite.t)
  : M unit :=
  images <~ get_item "images" ;;
  match as_strings images with
  | [] =>
      match first_truthy (fun plan => PlanDetails.image_url (HomePlan.details plan))
                         homeplans with
      | Some img => set_item "images" (VStrings [img])
      | None =>
          match first_truthy Homesite.image_url homesites with
          | Some img => set_item "images" (VStrings [img])
          | None => ret tt
          end
      end
  | _ => ret tt
  end.

Definition details_steps (E : Env) (p : CommunityPage)
           (homeplans : list HomePlan.t) (homesites : list Homesite.t) : M unit :=
  rv <~ lift (range_values E homesites homeplans) ;;
  price_from <~ get_item "price_from" ;;
  sqft_range <~ lift (get_range_from_values E (map PStr (sqft_values rv))) ;;
  bed_range <~ lift (get_range_from_values E (map PStr (bed_values rv))) ;;
  bath_range <~ lift (get_range_from_values E (map PNum (bath_values rv))) ;;
  set_item "details"
           (VDetails {| Details.price_range := as_text price_from;
                        Details.sqft_range := sqft_range;
                        Details.bed_range := bed_range;
                        Details.bath_range := bath_range;
                        Details.stories_range := "1 - 2";
                        Details.community_count := 1%Z |}) ;;;
  set_item "amenities" (VAmenities (parse_amenities p)) ;;;
  set_item "nearbyplaces" (VNearby (parse_nearby_places p)) ;;;
  set_item "collections" (VCollections (parse_collections p)).

(** *** What the steps leave in the record *)

Definition price_from_of (E : Env) (p : CommunityPage) : option value :=
  match find_string (search_classes (plans_from_re E)) p with
  | Some price_text =>
      if truthy price_text
      then Some (VText (extract_price_range E (Some price_text)))
      else None
  | None => None
  end.

Definition description_of (p : CommunityPage) : option string :=
  match soup_description p with
  | Some (Some (Some first_p)) => clean_text (Some first_p)
  | _ => None
  end.

Definition phone_of (E : Env) (p : CommunityPage) : option string :=
  match find_string (search_classes (phone_re E)) p with
  | Some phone_elem =>
      if truthy phone_elem then clean_text (Some phone_elem) else None
  | None => None
  end.

Definition carousel_images (p : CommunityPage) : list string :=
  match soup_carousel p with
  | Some slides =>
      match first_truthy (fun slide => slide) slides with
      | Some img => [img]
      | None => []
      end
  | None => []
  end.

Definition plan_images (homeplans : list HomePlan.t) : list string :=
  match first_truthy (fun plan => PlanDetails.image_url (HomePlan.details plan))
                     homeplans with
  | Some img => [img]
  | None => []
  end.

Definition homesite_images (homesites : list Homesite.t) : list string :=
  match first_truthy Homesite.image_url homesites with
  | Some img => [img]
  | None => []
  end.

(** The images of the community: the carousel's, else a plan's, else a
    homesite's. *)
Definition community_images (E : Env) (p : CommunityPage) : list string :=
  first_nonempty (carousel_images p)
    (first_nonempty (plan_images (parse_homeplans (soup_home_plans p)))
                    (homesite_images (parse_homesites E (soup_quick_move_ins p)))).

Definition community_location (a : AddressInfo) : Location :=
  {| loc_latitude := community_latitude;
     loc_longitude := community_longitude;
     loc_city := city a;
     loc_state := state a;
     loc_market := market a |}.

(** The record of a rendered page when the details are about to be
    assembled. *)
Definition record_before_details (E : Env) (url : string) (p : CommunityPage) : Data :=
  (initial_data E url
   ++ [("name", VText (match soup_h1 p with
                       | Some t => clean_text (Some t)
                       | None => None
                       end))]
   ++ match price_from_of E p with
      | Some v => [("price_from", v)]
      | None => []
      end
   ++ [("address", VText (Some (full_address (parse_address (soup_sales_office p)))));
       ("location", VLocation (community_location (parse_address (soup_sales_office p))));
       ("phone", VText (phone_of E p));
       ("description", VText (description_of p));
       ("images", VStrings (community_images E p));
       ("homeplans", VHomeplans (parse_homeplans (soup_home_plans p)));
       ("homesites", VHomesites (parse_homesites E (soup_quick_move_ins p)))])%list.

Definition priced_keys : list string :=
  ["timestamp"; "url"; "builder"; "status"; "name"; "price_from"; "address";
   "location"; "phone"; "description"; "images"; "homeplans"; "homesites"].

Definition closing_keys : list string :=
  ["details"; "amenities"; "nearbyplaces"; "collections"].

(** Every number the ranges are computed from converts to a finite
    value. *)
Definition numbers_convert (E : Env) (homesites : list Homesite.t)
           (homeplans : list HomePlan.t) : Prop :=
  forall s,
    In s (truthy_fields Homesite.sqft homesites ++ truthy_fields plan_sqft homeplans
          ++ truthy_fields Homesite.beds homesites ++ truthy_fields plan_beds homeplans
          ++ truthy_fields Homesite.baths homesites
          ++ truthy_fields plan_baths homeplans)%list ->
    exists q, float_of E s = Some (Finite q).

(** The end of the body as it is written: the rest runs under the binding
    of the images read back. *)
Definition closing_steps (E : Env) (p : CommunityPage)
           (homeplans : list HomePlan.t) (homesites : list Homesite.t) : M unit :=
  images <~ get_item "images" ;;
  (match as_strings images with
   | [] =>
       match first_truthy (fun plan => PlanDetails.image_url (HomePlan.details plan))
                          homeplans with
       | Some img => set_item "images" (VStrings [img])
       | None =>
           match first_truthy Homesite.image_url homesites with
           | Some img => set_item "images" (VStrings [img])
           | None => ret tt
           end
       end
   | _ => ret tt
   end) ;;;
  details_steps E p homeplans homesites.

(** The values a feature list can leave: beds is a single word, baths is
    a single word with or without the half-bath suffix, and the area is
    free of whitespace and of commas. *)
Definition features_ok (beds baths sqft : option string) : Prop :=
  (forall b, beds = Some b -> is_word b) /\
  (forall b, baths = Some b -> exists w, is_word w /\ (b = w \/ b = w ++ ".5")) /\
  (forall s, sqft = Some s ->
             str_forallb (fun c => negb (is_space c) && negb (char_eqb c ",")) s = true).

(** The list items of the highlights of a card. *)
Definition card_items (c : Card) : list string :=
  match card_content c with
  | Some cc => content_items cc
  | None => []
  end.

(** The entry [e] of the included features stands for the list item at
    position [n], counted from [start]: it carries that position in
    decimal and the item's cleaned text, which is not empty. *)
Definition feature_at (start : nat) (items : list string) (n : nat)
           (e : string * string) : Prop :=
  start <= n < start + List.length items /\
  fst e = str_of_Z (Z.of_nat n) /\
  exists raw,
    nth_error items (n - start) = Some raw /\
    clean_text (Some raw) = Some (snd e) /\ snd e <> "".

(** [u] is the desktop image of a gallery item of [page] and passes the
    URL check. *)
Definition valid_gallery_image (page : DetailPage) (u : string) : Prop :=
  exists it,
    In it (gallery_items page) /\ data_desktop_image it = Some u /\
    is_valid_image_url (Some u) = true.


(** The URLs a run of [main] hands to [process_community_url], in
    order. *)
Definition requested_urls (args : Args) (links : LinksFile) : list string :=
  match arg_url args with
  | Some url => if truthy url then [url] else
                  if arg_batch args
                  then match links with Links urls => urls | _ => [] end
                  else [default_url]
  | None => if arg_batch args
            then match links with Links urls => urls | _ => [] end
            else [default_url]
  end.


(** Letter case, as the claims word it.  [d] is the capital of [c] when
    [c] is one of the small letters a to z, and [c] itself otherwise;
    [d] is the small letter of [c] when [c] is one of the capitals A to
    Z, and [c] itself otherwise. *)
Definition capital_of (c d : char) : Prop :=
  ((97 <= c <= 122)%N -> d = (c - 32)%N) /\
  (~ (97 <= c <= 122)%N -> d = c).

Definition small_of (c d : char) : Prop :=
  ((65 <= c <= 90)%N -> d = (c + 32)%N) /\
  (~ (65 <= c <= 90)%N -> d = c).

(** [r] is [w] with each character replaced by a related one. *)
Inductive pointwise (R : char -> char -> Prop) : string -> string -> Prop :=
| pointwise_nil : pointwise R EmptyString EmptyString
| pointwise_cons : forall c d w r,
    R c d -> pointwise R w r -> pointwise R (String c w) (String d r).

(** [r] is [w] in capitals. *)
Definition upper_cased (w r : string) : Prop := pointwise capital_of w r.

(** [r] is [w] with a capital first letter and the rest in small
    letters. *)
Definition capitalized (w r : string) : Prop :=
  match w, r with
  | EmptyString, EmptyString => True
  | String c w', String d r' => capital_of c d /\ pointwise small_of w' r'
  | _, _ => False
  end.

(** The numbers [get_range_from_values] works on when no string is
    rejected: the [None] entries are left out. *)
Definition converted (E : Env) (v : pyval) : list pyfloat :=
  match v with
  | PNone => []
  | PStr s => match float_of E s with Some x => [x] | None => [] end
  | PNum x => [x]
  end.

Definition not_nan (x : pyfloat) : bool :=
  match x with
  | NaN => false
  | _ => true
  end.

Definition is_finite (x : pyfloat) : bool :=
  match x with
  | Finite _ => true
  | _ => false
  end.

(** The order of the extended reals; nan is not compared. *)
Definition float_le (a b : pyfloat) : Prop :=
  match a, b with
  | NaN, _ => False
  | _, NaN => False
  | NegInf, _ => True
  | _, PosInf => True
  | Finite x, Finite y => (x <= y)%Q
  | _, _ => False
  end.

(** A rational truncated toward zero. *)
Definition truncate (q : Q) : Z := Z.quot (Qnum q) (Zpos (Qden q)).

(** The text of a range from [lo] to [hi]. *)
Definition range_text (lo hi : Q) : string :=
  if Qeq_bool lo hi then str_of_Z (truncate lo)
  else str_of_Z (truncate lo) ++ " - " ++ str_of_Z (truncate hi).

(** The float is a zero. *)
Definition is_zero (x : pyfloat) : Prop :=
  exists q, x = Finite q /\ (q == 0)%Q.

(** No digit stands in [s]. *)
Definition no_digit_in (E : Env) (s : string) : Prop :=
  str_forallb (fun c => negb (is_digit E c)) s = true.
(* ================================================================== *)
(** * Properties                                                       *)
(* ================================================================== *)

(** ** Strings *)

Lemma char_eqb_spec (c d : char) : reflect (c = d) (char_eqb c d).
Proof. apply N.eqb_spec. Qed.

Lemma char_eqb_eq (c d : char) : char_eqb c d = true <-> c = d.
Proof. apply N.eqb_eq. Qed.

Lemma char_eqb_refl (c : char) : char_eqb c c = true.
Proof. apply N.eqb_refl. Qed.

Lemma char_eqb_neq (c d : char) : char_eqb c d = false <-> c <> d.
Proof. apply N.eqb_neq. Qed.

Lemma str_eqb_eq (a b : string) : str_eqb a b = true <-> a = b.
Proof.
  revert b. induction a as [|c a IH]; intros [|d b]; simpl;
    try (split; [discriminate | congruence]); [tauto|].
  rewrite andb_true_iff, char_eqb_eq, IH. split.
  - intros [-> ->]. reflexivity.
  - intros H. injection H as -> ->. auto.
Qed.

Lemma str_eqb_refl (a : string) : str_eqb a a = true.
Proof. now apply str_eqb_eq. Qed.

Lemma str_eqb_neq (a b : string) : str_eqb a b = false <-> a <> b.
Proof.
  rewrite <- str_eqb_eq. destruct (str_eqb a b); split; congruence.
Qed.

Lemma str_eqb_spec (a b : string) : reflect (a = b) (str_eqb a b).
Proof. apply iff_reflect. symmetry. apply str_eqb_eq. Qed.

Lemma str_app_nil_r (s : string) : s ++ "" = s.
Proof. induction s as [|c s IH]; simpl; [reflexivity | now rewrite IH]. Qed.

Lemma str_app_assoc (a b c : string) : (a ++ b) ++ c = a ++ (b ++ c).
Proof. induction a as [|x a IH]; simpl; [reflexivity | now rewrite IH]. Qed.

Lemma str_length_app (a b : string) :
  str_length (a ++ b) = str_length a + str_length b.
Proof. induction a as [|x a IH]; simpl; [reflexivity | now rewrite IH]. Qed.

Lemma truthy_true (s : string) : truthy s = true <-> s <> "".
Proof. destruct s; simpl; split; intros H; congruence. Qed.

Lemma truthy_false (s : string) : truthy s = false <-> s = "".
Proof. destruct s; simpl; split; intros H; congruence. Qed.

Lemma split_ws_all_space (s : string) :
  str_forallb is_space s = true <-> split_ws s = [].
Proof.
  induction s as [|c s IH]; simpl.
  - tauto.
  - destruct (is_space c) eqn:Hc; simpl.
    + exact IH.
    + split; [discriminate|].
      destruct s as [|c' s']; [discriminate|].
      destruct (is_space c'); [discriminate|].
      destruct (split_ws (String c' s')); discriminate.
Qed.

Lemma split_ws_words (s : string) : Forall is_word (split_ws s).
Proof.
  induction s as [|c s IH]; simpl.
  - constructor.
  - destruct (is_space c) eqn:Hc; [exact IH|].
    assert (Hone : is_word (String c "")).
    { split; [discriminate|]. simpl. now rewrite Hc. }
    destruct s as [|c' s']; [now constructor|].
    destruct (is_space c') eqn:Hc'.
    + now constructor.
    + destruct (split_ws (String c' s')) as [|w ws]; simpl.
      * now constructor.
      * inversion IH as [|? ? [Hw1 Hw2] Hws]; subst.
        constructor; [|assumption].
        split; [discriminate|]. simpl. now rewrite Hc, Hw2.
Qed.

Lemma split_ws_lstrip (s : string) : split_ws (lstrip s) = split_ws s.
Proof.
  induction s as [|c s IH]; [reflexivity|].
  simpl lstrip. destruct (is_space c) eqn:Hc.
  - rewrite IH. simpl. now rewrite Hc.
  - reflexivity.
Qed.

Lemma rstrip_head (c : char) (s : string) :
  rstrip (String c s) = "" \/ exists r, rstrip (String c s) = String c r.
Proof.
  simpl. destruct (rstrip s) as [|x r].
  - destruct (is_space c); [now left | right; now exists ""].
  - right. now exists (String x r).
Qed.

Lemma rstrip_empty (s : string) :
  rstrip s = "" <-> str_forallb is_space s = true.
Proof.
  induction s as [|c s IH]; simpl; [tauto|].
  destruct (rstrip s) as [|x r] eqn:Hr.
  - destruct (is_space c); simpl.
    + split; intros _; [now apply IH | reflexivity].
    + split; discriminate.
  - split; [discriminate|]. intros H.
    apply andb_true_iff in H as [_ H]. apply IH in H. discriminate.
Qed.

Lemma split_ws_cons2 (c c' : char) (t : string) :
  split_ws (String c (String c' t)) =
  if is_space c then split_ws (String c' t)
  else if is_space c' then String c "" :: split_ws (String c' t)
       else cons_first c (split_ws (String c' t)).
Proof. reflexivity. Qed.

Lemma split_ws_rstrip (s : string) : split_ws (rstrip s) = split_ws s.
Proof.
  induction s as [|c s IH]; [reflexivity|].
  simpl rstrip. destruct (rstrip s) as [|x r] eqn:Hr.
  - assert (Hall : str_forallb is_space s = true) by now apply rstrip_empty.
    assert (Hnil : split_ws s = []) by now apply split_ws_all_space.
    destruct (is_space c) eqn:Hc.
    + simpl. now rewrite Hc.
    + simpl. rewrite Hc. destruct s as [|c' s']; [reflexivity|].
      simpl in Hall. apply andb_true_iff in Hall as [Hc' _].
      rewrite Hc'. now rewrite Hnil.
  - destruct s as [|c' s']; [discriminate|].
    destruct (rstrip_head c' s') as [He | [r' He]]; rewrite He in Hr;
      [discriminate|].
    injection Hr as Hx Hr'. subst x r'.
    rewrite !split_ws_cons2, IH. reflexivity.
Qed.

Lemma split_ws_strip (s : string) : split_ws (strip s) = split_ws s.
Proof.
  unfold strip. now rewrite split_ws_rstrip, split_ws_lstrip.
Qed.

Lemma word_head (w : string) :
  is_word w -> exists c w', w = String c w' /\ is_space c = false.
Proof.
  intros [Hne Hall]. destruct w as [|c w']; [congruence|].
  exists c, w'. split; [reflexivity|].
  simpl in Hall. apply andb_true_iff in Hall as [Hc _].
  now apply negb_true_iff in Hc.
Qed.

Lemma word_tail (c c' : char) (w : string) :
  is_word (String c (String c' w)) -> is_word (String c' w).
Proof.
  intros [_ Hall]. split; [discriminate|].
  simpl in Hall. now apply andb_true_iff in Hall as [_ Hall].
Qed.

Lemma split_ws_word (w : string) : is_word w -> split_ws w = [w].
Proof.
  induction w as [|c w IH]; intros Hw.
  - destruct Hw as [Hne _]. congruence.
  - destruct (word_head Hw) as (c0 & w0 & E & Hc). injection E as <- <-.
    destruct w as [|c' w'].
    + simpl. now rewrite Hc.
    + pose proof (word_tail Hw) as Hw'.
      destruct (word_head Hw') as (c1 & w1 & E & Hc'). injection E as <- <-.
      rewrite split_ws_cons2, Hc, Hc', (IH Hw'). reflexivity.
Qed.

Lemma split_ws_word_space (w t : string) :
  is_word w -> split_ws (w ++ String " " t) = w :: split_ws t.
Proof.
  induction w as [|c w IH]; intros Hw.
  - destruct Hw as [Hne _]. congruence.
  - destruct (word_head Hw) as (c0 & w0 & E & Hc). injection E as <- <-.
    destruct w as [|c' w'].
    + simpl append. rewrite split_ws_cons2, Hc. reflexivity.
    + pose proof (word_tail Hw) as Hw'.
      destruct (word_head Hw') as (c1 & w1 & E & Hc'). injection E as <- <-.
      change (String c (String c' w') ++ String " " t)
        with (String c (String c' (w' ++ String " " t))).
      rewrite split_ws_cons2, Hc, Hc'.
      change (String c' (w' ++ String " " t)) with (String c' w' ++ String " " t).
      rewrite (IH Hw'). reflexivity.
Qed.

Lemma single_spaced_word (w : string) : is_word w -> single_spaced w = true.
Proof.
  intros [_ Hall]. induction w as [|c w IH]; [reflexivity|].
  simpl in Hall. apply andb_true_iff in Hall as [Hc Hall].
  apply negb_true_iff in Hc. simpl. rewrite Hc. simpl. now apply IH.
Qed.

Lemma single_spaced_word_space (w t : string) :
  is_word w -> normalized t -> t <> "" ->
  single_spaced (w ++ String " " t) = true.
Proof.
  intros [_ Hall] [Ht Hhead] Hne. induction w as [|c w IH].
  - destruct t as [|c' t']; [congruence|].
    simpl append. simpl in Ht |- *. rewrite Hhead in Ht |- *. simpl. exact Ht.
  - simpl in Hall. apply andb_true_iff in Hall as [Hc Hall].
    apply negb_true_iff in Hc. simpl. rewrite Hc. simpl. now apply IH.
Qed.

(** Joining words with single spaces gives a normalized text with exactly
    those words. *)
Lemma join_words (ws : list string) :
  Forall is_word ws ->
  split_ws (join " " ws) = ws /\ normalized (join " " ws) /\
  (ws <> [] -> join " " ws <> "").
Proof.
  induction ws as [|w ws IH]; intros Hws.
  - repeat split; simpl; auto; congruence.
  - inversion Hws as [|? ? Hw Hws']; subst.
    destruct (IH Hws') as (Hsplit & Hnorm & Hne).
    destruct (word_head Hw) as (c & w' & -> & Hc).
    destruct ws as [|w2 ws'].
    + simpl join. repeat split.
      * now apply split_ws_word.
      * now apply single_spaced_word.
      * exact Hc.
      * discriminate.
    + change (join " " (String c w' :: w2 :: ws'))
        with (String c w' ++ String " " (join " " (w2 :: ws'))).
      repeat split.
      * rewrite split_ws_word_space by assumption. now rewrite Hsplit.
      * apply single_spaced_word_space; [assumption|assumption|].
        apply Hne. discriminate.
      * exact Hc.
      * discriminate.
Qed.


Lemma str_eqb_sym (a b : string) : str_eqb a b = str_eqb b a.
Proof.
  destruct (str_eqb_spec a b) as [->|H].
  - now rewrite str_eqb_refl.
  - symmetry. apply str_eqb_neq. congruence.
Qed.
(** ** C10: [clean_text] *)

(** C10, as the text normalizer behaves: [clean_text] is absent exactly
    for a missing or empty text; for any other text it returns the text's
    words joined by single spaces, which is normalized, has the words of
    the input, and is the empty string exactly when the input is made of
    whitespace only. *)
Theorem clean_text_normalizes (text : option string) :
  match text with
  | None => clean_text text = None
  | Some s =>
      if truthy s then
        exists r, clean_text text = Some r /\
                  r = join " " (split_ws s) /\
                  normalized r /\
                  split_ws r = split_ws s /\
                  (r = "" <-> str_forallb is_space s = true)
      else clean_text text = None
  end.
Proof.
  destruct text as [s|]; [|reflexivity].
  unfold clean_text. destruct (truthy s); [|reflexivity].
  rewrite split_ws_strip.
  destruct (join_words (split_ws_words s)) as (Hsplit & Hnorm & Hne).
  exists (join " " (split_ws s)).
  split; [reflexivity|]. split; [reflexivity|].
  split; [exact Hnorm|]. split; [exact Hsplit|]. split.
  - intros Hr. apply split_ws_all_space.
    destruct (split_ws s) as [|w ws] eqn:Hs; [reflexivity|].
    exfalso. apply Hne; [discriminate | exact Hr].
  - intros Hall. apply split_ws_all_space in Hall. now rewrite Hall.
Qed.

(** C10 as stated fails: a text of whitespace only is cleaned to the
    empty string, not to the absent marker. *)
Lemma clean_text_whitespace_only :
  clean_text (Some "   ") = Some "" /\
  ~ (forall text r, clean_text text = Some r -> r <> "").
Proof.
  split; [reflexivity|].
  intros H. apply (H (Some "   ") ""); reflexivity.
Qed.


(** A no-break space and an em space are whitespace like any other. *)
Lemma clean_text_no_break_space :
  clean_text (Some (String 160%N ("4" ++ String 160%N ("Beds" ++ String 8195%N ""))))
  = Some "4 Beds".
Proof. reflexivity. Qed.
(** ** C1: [extract_price_range] *)

Lemma span_price_spec (E : Env) (s : string) :
  s = fst (span_price E s) ++ snd (span_price E s) /\
  str_forallb (is_price_char E) (fst (span_price E s)) = true /\
  match snd (span_price E s) with
  | EmptyString => True
  | String c _ => is_price_char E c = false
  end.
Proof.
  induction s as [|c s (IH1 & IH2 & IH3)]; simpl.
  - auto.
  - destruct (is_price_char E c) eqn:Hc.
    + destruct (span_price E s) as [run rest]. simpl in *.
      rewrite Hc. repeat split; auto. now rewrite <- IH1.
    + simpl. rewrite Hc. auto.
Qed.

(** The greedy run is the only split of [s] into price characters and a
    rest that does not go on with one. *)
Lemma span_price_unique (E : Env) (a b : string) :
  str_forallb (is_price_char E) a = true ->
  match b with
  | EmptyString => True
  | String c _ => is_price_char E c = false
  end ->
  span_price E (a ++ b) = (a, b).
Proof.
  intros Ha Hb. induction a as [|c a IH]; simpl.
  - destruct b as [|c b]; [reflexivity|]. simpl. now rewrite Hb.
  - simpl in Ha. apply andb_true_iff in Ha as [Hc Ha].
    rewrite Hc, (IH Ha). reflexivity.
Qed.

(** Every run of price characters at the head of [s] is within the greedy
    one. *)
Lemma span_price_longest (E : Env) (a b : string) :
  str_forallb (is_price_char E) a = true ->
  str_length a <= str_length (fst (span_price E (a ++ b))).
Proof.
  intros Ha. induction a as [|c a IH]; simpl.
  - lia.
  - simpl in Ha. apply andb_true_iff in Ha as [Hc Ha].
    rewrite Hc. specialize (IH Ha).
    destruct (span_price E (a ++ b)) as [run rest]. simpl in *. lia.
Qed.

Lemma price_token_starts (E : Env) (t post : string) :
  price_token E t -> starts_price E (t ++ post) = true.
Proof.
  intros (run & Hne & Hall & [-> | ->]);
    destruct run as [|c run]; try congruence;
    simpl in Hall; apply andb_true_iff in Hall as [Hc _]; exact Hc.
Qed.

Lemma match_price_at_none (E : Env) (s : string) :
  match_price_at E s = None <-> starts_price E s = false.
Proof.
  unfold match_price_at, starts_price.
  destruct s as [|d s]; [tauto|].
  destruct (char_eqb_spec d "$") as [->|Hd]; cbn [andb].
  - destruct s as [|c s]; [simpl; tauto|].
    cbn [span_price]. destruct (is_price_char E c) eqn:Hc.
    + destruct (span_price E s) as [run rest].
      split; [|discriminate].
      destruct rest as [|k rest]; [discriminate|].
      destruct (char_eqb k "K"); discriminate.
    + tauto.
  - destruct s; tauto.
Qed.

(** What an anchored match returns: a token at the head of [s], the
    longest one there. *)
Lemma match_price_at_some (E : Env) (s tok : string) :
  match_price_at E s = Some tok ->
  exists tok' post,
    tok = String "$" tok' /\ s = tok ++ post /\ price_token E tok /\
    (forall t r, price_token E t -> s = t ++ r ->
                 str_length t <= str_length tok).
Proof.
  unfold match_price_at. destruct s as [|d s]; [discriminate|].
  destruct (char_eqb_spec d "$") as [->|Hd]; [|discriminate].
  destruct (span_price_spec E s) as (Hs & Hall & Hrest).
  destruct (span_price E s) as [run rest] eqn:Hspan. simpl in Hs, Hall, Hrest.
  destruct run as [|c run]; [discriminate|].
  assert (Hlong : forall a b, s = a ++ b -> str_forallb (is_price_char E) a = true ->
                              str_length a <= str_length (String c run)).
  { intros a b -> Ha. pose proof (span_price_longest E a b Ha) as H.
    now rewrite Hspan in H. }
  assert (Hmax : forall t r, price_token E t -> String "$" s = t ++ r ->
                 str_length t <= S (str_length (String c run)) \/
                 (str_length t = S (S (str_length (String c run))) /\
                  exists rest', rest = String "K" rest')).
  { intros t r (rt & Hne & Hrt & [-> | ->]) Heq; simpl in Heq; injection Heq as Heq.
    - left. specialize (Hlong rt r Heq Hrt). simpl in *. lia.
    - right. rewrite str_app_assoc in Heq.
      assert (Hu : span_price E (rt ++ "K" ++ r) = (rt, "K" ++ r))
        by (apply span_price_unique; [assumption | reflexivity]).
      rewrite <- Heq, Hspan in Hu. injection Hu as Hu1 Hu2.
      split.
      + rewrite <- Hu1. simpl. rewrite str_length_app. simpl. lia.
      + exists r. now rewrite Hu2. }
  assert (Htok1 : price_token E (String "$" (String c run))).
  { exists (String c run). repeat split; [discriminate | assumption | now left]. }
  assert (Htok2 : price_token E (String "$" (String c run ++ "K"))).
  { exists (String c run). repeat split; [discriminate | assumption | now right]. }
  destruct rest as [|k rest].
  - intros Heq. injection Heq as <-.
    exists (String c run), "". repeat split.
    + simpl. now rewrite Hs.
    + exact Htok1.
    + intros t r Ht Heq. destruct (Hmax t r Ht Heq) as [Hle | [_ [? ?]]];
        [simpl in *; lia | discriminate].
  - destruct (char_eqb_spec k "K") as [->|Hk].
    + intros Heq. injection Heq as <-.
      exists (String c run ++ "K"), rest. repeat split.
      * simpl. rewrite str_app_assoc. simpl. now rewrite Hs.
      * exact Htok2.
      * intros t r Ht Heq. simpl. rewrite str_length_app. simpl.
        destruct (Hmax t r Ht Heq) as [Hle | [Hl _]]; simpl in *; lia.
    + intros Heq.
      assert (E0 : tok = String "$" (String c run)) by congruence.
      subst tok.
      exists (String c run), (String k rest). repeat split.
      * simpl. now rewrite Hs.
      * exact Htok1.
      * intros t r Ht E'. destruct (Hmax t r Ht E') as [Hle | [_ [? Ek]]];
          [simpl in *; lia | congruence].
Qed.

(** Skipping the characters of a match resumes the scan right after it. *)
Lemma findall_price_skip (E : Env) (a b : string) :
  findall_price_from E (str_length a) (a ++ b) = findall_price E b.
Proof.
  induction a as [|c a IH]; simpl.
  - destruct b; reflexivity.
  - exact IH.
Qed.

Lemma occurs_cons (tok : string) (c : char) (s : string) :
  occurs tok (String c s) ->
  (exists post, String c s = tok ++ post) \/ occurs tok s.
Proof.
  intros (pre & post & Heq). destruct pre as [|d pre].
  - left. now exists post.
  - right. simpl in Heq. injection Heq as _ Heq. now exists pre, post.
Qed.

Lemma no_price_in_cons (E : Env) (c : char) (s rest : string) :
  starts_price E (String c (s ++ rest)) = false ->
  no_price_in E s -> no_price_in E (String c s).
Proof.
  intros Hstart Hs tok Htok Hocc.
  destruct (occurs_cons Hocc) as [[post Heq] | Hin].
  - assert (H : starts_price E ((tok ++ post) ++ rest) = true)
      by (rewrite str_app_assoc; now apply price_token_starts).
    rewrite <- Heq in H. simpl append in H. congruence.
  - exact (Hs tok Htok Hin).
Qed.

Lemma no_price_in_empty (E : Env) : no_price_in E "".
Proof.
  intros tok (run & Hne & _ & Ht) (pre & post & Heq).
  destruct pre; [|discriminate]. simpl in Heq.
  destruct Ht as [-> | ->]; discriminate.
Qed.

(** When the scan finds nothing, no currency token stands in the text. *)
Lemma findall_price_nil (E : Env) (s : string) :
  findall_price E s = [] -> no_price_in E s.
Proof.
  unfold findall_price. induction s as [|c s IH]; intros H.
  - exact (@no_price_in_empty E).
  - cbn [findall_price_from] in H.
    destruct (match_price_at E (String c s)) as [tok|] eqn:Hm; [discriminate|].
    apply match_price_at_none in Hm.
    apply no_price_in_cons with (rest := ""); [now rewrite str_app_nil_r | auto].
Qed.

(** The first match of the scan: the leftmost token of the text, the
    longest one at its place, and the scan goes on after it. *)
Lemma findall_price_cons (E : Env) (s p : string) (rest : list string) :
  findall_price E s = p :: rest ->
  exists pre post,
    s = pre ++ p ++ post /\ price_token E p /\ no_price_in E pre /\
    (forall t r, price_token E t -> p ++ post = t ++ r ->
                 str_length t <= str_length p) /\
    findall_price E post = rest.
Proof.
  unfold findall_price. induction s as [|c s IH]; intros H; [discriminate|].
  cbn [findall_price_from] in H.
  destruct (match_price_at E (String c s)) as [tok|] eqn:Hm.
  - injection H as -> Hrest.
    destruct (match_price_at_some E _ Hm) as (tok' & post & -> & Heq & Htok & Hmax).
    exists "", post. simpl in Heq. injection Heq as -> ->.
    split; [reflexivity|]. split; [exact Htok|].
    split; [exact (@no_price_in_empty E)|]. split; [exact Hmax|].
    simpl in Hrest. rewrite Nat.sub_0_r in Hrest.
    now rewrite findall_price_skip in Hrest.
  - destruct (IH H) as (pre & post & Heq & Htok & Hpre & Hmax & Hrest).
    exists (String c pre), post. split; [simpl; now rewrite Heq|].
    split; [exact Htok|]. split; [|now split].
    apply match_price_at_none in Hm. rewrite Heq in Hm.
    now apply no_price_in_cons with (rest := p ++ post).
Qed.

Lemma findall_price_nil_iff (E : Env) (s : string) :
  findall_price E s = [] <-> no_price_in E s.
Proof.
  split; [apply findall_price_nil|].
  intros Hno. destruct (findall_price E s) as [|p rest] eqn:Hf; [reflexivity|].
  destruct (findall_price_cons E _ Hf) as (pre & post & Heq & Htok & _).
  exfalso. apply (Hno p Htok). now exists pre, post.
Qed.

(** C1: [extract_price_range] is absent exactly when no currency token
    stands in the text; with one match it returns From and the match; with
    two or more it returns the first two matches joined by a hyphen.  The
    matches are the tokens found from left to right: each is the leftmost
    token of what is left of the text and the longest at its place.  A
    token is a dollar sign, then one or more characters that are digits
    or commas in any arrangement, then optionally a K. *)
Theorem extract_price_range_spec (E : Env) (text : string) :
  (extract_price_range E (Some text) = None <-> no_price_in E text) /\
  (forall p, findall_price E text = [p] ->
     extract_price_range E (Some text) = Some ("From " ++ p)) /\
  (forall p q rest, findall_price E text = p :: q :: rest ->
     extract_price_range E (Some text) = Some (p ++ "-" ++ q) /\
     exists pre mid post,
       text = pre ++ p ++ mid ++ q ++ post /\
       price_token E p /\ price_token E q /\
       no_price_in E pre /\ no_price_in E mid) /\
  (forall p rest, findall_price E text = p :: rest ->
     exists pre post,
       text = pre ++ p ++ post /\ price_token E p /\ no_price_in E pre /\
       (forall t r, price_token E t -> p ++ post = t ++ r ->
                    str_length t <= str_length p) /\
       findall_price E post = rest) /\
  extract_price_range E None = None /\
  extract_price_range E (Some "$300K") = Some "From $300K" /\
  extract_price_range E (Some "$300K $450K") = Some "$300K-$450K".
Proof.
  assert (Hnil : findall_price E "" = []) by reflexivity.
  split; [|split; [|split; [|split; [|repeat split]]]].
  - unfold extract_price_range. destruct (truthy text) eqn:Ht.
    + rewrite <- findall_price_nil_iff.
      destruct (findall_price E text) as [|p [|q rest]]; split; intros H;
        try reflexivity; discriminate.
    + apply truthy_false in Ht. subst text.
      split; [intros _; exact (@no_price_in_empty E) | reflexivity].
  - intros p Hp. unfold extract_price_range.
    destruct (truthy text) eqn:Ht.
    + now rewrite Hp.
    + apply truthy_false in Ht. subst text. discriminate.
  - intros p q rest Hp. split.
    + unfold extract_price_range. destruct (truthy text) eqn:Ht.
      * now rewrite Hp.
      * apply truthy_false in Ht. subst text. discriminate.
    + destruct (findall_price_cons E _ Hp) as (pre & post & Heq & Htok & Hpre & _ & Hrest).
      destruct (findall_price_cons E _ Hrest) as (mid & post' & E' & Htok' & Hmid & _).
      exists pre, mid, post'. subst post. now repeat split.
  - intros p rest Hp. exact (findall_price_cons E _ Hp).
Qed.

(** An instance of the theorem: the two matches of a text with prose
    around them. *)
Lemma extract_price_range_spec_example (E : Env) :
  findall_price E "Homes from $300K to $450,000 today" = ["$300K"; "$450,000"] /\
  extract_price_range E (Some "Homes from $300K to $450,000 today")
  = Some "$300K-$450,000".
Proof. split; reflexivity. Qed.


Lemma claimed_price_token_head (E : Env) (t : string) :
  claimed_price_token E t ->
  exists c rest, t = String "$" (String c rest) /\ is_digit E c = true.
Proof.
  intros (groups & Hne & Hall & Ht).
  destruct groups as [|g gs]; [congruence|].
  inversion Hall as [|? ? [Hg Hdigits] _]; subst.
  destruct g as [|c g']; [congruence|].
  simpl in Hdigits. apply andb_true_iff in Hdigits as [Hc _].
  assert (Hjoin : exists rest, join "," (String c g' :: gs) = String c rest).
  { destruct gs; simpl; eexists; reflexivity. }
  destruct Hjoin as (rest & Hrest). rewrite Hrest in Ht.
  destruct Ht as [-> | ->]; eexists; eexists; (split; [reflexivity | exact Hc]).
Qed.

(** C1 as stated fails: the pattern asks for no digit.  In the text of a
    dollar sign and a comma no token of a dollar sign followed by digits
    with thousands separators stands, and the result is not absent; and a
    comma right after an amount is taken into the match. *)
Lemma extract_price_range_bare_comma :
  (forall tok, claimed_price_token offline_env tok -> ~ occurs tok "$,") /\
  extract_price_range offline_env (Some "$,") = Some "From $," /\
  extract_price_range offline_env (Some "Plans from $399,990, call")
  = Some "From $399,990,".
Proof.
  split; [|split; reflexivity].
  intros tok Htok (pre & post & Heq).
  destruct (claimed_price_token_head Htok) as (c & rest & -> & Hc).
  destruct pre as [|a [|b pre]]; simpl in Heq.
  - injection Heq as Hcomma _. subst c. discriminate.
  - discriminate.
  - destruct pre; discriminate.
Qed.
(** ** Splitting on a separator *)

Lemma split_on_nonempty (sep : char) (s : string) : split_on sep s <> [].
Proof.
  destruct s as [|c s]; simpl; [discriminate|].
  destruct (char_eqb c sep); [discriminate|].
  destruct (split_on sep s); discriminate.
Qed.

Lemma split_on_no_sep (sep : char) (s : string) :
  str_forallb (fun c => negb (char_eqb c sep)) s = true ->
  split_on sep s = [s].
Proof.
  induction s as [|c s IH]; simpl; intros H; [reflexivity|].
  apply andb_true_iff in H as [Hc H]. apply negb_true_iff in Hc.
  now rewrite Hc, (IH H).
Qed.

Lemma last_item_cons (x : string) (l : list string) :
  l <> [] -> last_item (x :: l) = last_item l.
Proof. destruct l; [congruence | reflexivity]. Qed.

Lemma last_item_cons_first (c : char) (l : list string) :
  2 <= List.length l -> last_item (cons_first c l) = last_item l.
Proof.
  destruct l as [|w [|w' l]]; simpl; intros H; try lia. reflexivity.
Qed.

Lemma split_on_sep_length (sep : char) (a seg : string) :
  2 <= List.length (split_on sep (a ++ String sep seg)).
Proof.
  pose proof (split_on_nonempty sep seg) as Hne.
  induction a as [|c a IH]; simpl.
  - rewrite char_eqb_refl. simpl.
    destruct (split_on sep seg); [congruence | simpl; lia].
  - destruct (char_eqb c sep); simpl; [lia|].
    destruct (split_on sep (a ++ String sep seg)) as [|w [|w' l]];
      simpl in *; lia.
Qed.

Lemma last_item_split_on (sep : char) (a seg : string) :
  last_item (split_on sep (a ++ String sep seg)) = last_item (split_on sep seg).
Proof.
  induction a as [|c a IH]; simpl.
  - rewrite char_eqb_refl. apply last_item_cons, split_on_nonempty.
  - destruct (char_eqb c sep).
    + rewrite last_item_cons by apply split_on_nonempty. exact IH.
    + rewrite last_item_cons_first by apply split_on_sep_length. exact IH.
Qed.

Lemma final_segment_last (url seg : string) :
  final_segment url seg -> last_item (split_on "/" url) = Some seg.
Proof.
  intros [[site ->] Hseg].
  rewrite last_item_split_on, (split_on_no_sep _ _ Hseg). reflexivity.
Qed.

Lemma slice_to_last_4 (t0 t1 t2 t3 : string) (more : list string) :
  slice_to_last 4 (t0 :: t1 :: t2 :: t3 :: more) = removelast more.
Proof.
  unfold slice_to_last. destruct more as [|m more]; reflexivity.
Qed.

(** ** Home cards *)

(** What an emitted homesite tells about its card. *)
Lemma parse_home_card_emitted (E : Env) (idx : nat) (c : Card) (h : Homesite.t) :
  parse_home_card E idx c = Ok (Some h) ->
  exists l hr address name,
    card_title c = Some l /\ href l = Some hr /\
    parse_homesite_address E (site_root ++ hr) = Some (address, name) /\
    Homesite.url h = Some (site_root ++ hr) /\
    Homesite.name h = Some name /\
    Homesite.address h = Some address /\
    Homesite.images h = get_homesite_images E (site_root ++ hr) /\
    Homesite.image_url h = hd_error (get_homesite_images E (site_root ++ hr)).
Proof.
  unfold parse_home_card. intros H.
  destruct (card_title c) as [l|] eqn:Hl; cbn [bind] in H.
  - unfold href_of in H.
    destruct (href l) as [hr|] eqn:Hhr; cbn [bind] in H; [|discriminate].
    destruct (card_feature_list c) as [fs|e]; cbn [bind] in H;
      [|destruct (get_homesite_images E (site_root ++ hr));
        destruct (parse_homesite_address E (site_root ++ hr)) as [[? ?]|];
        [destruct (coordinates E _)| |destruct (coordinates E _)|]; discriminate].
    destruct (parse_homesite_address E (site_root ++ hr)) as [[address name]|] eqn:Ha.
    + destruct (coordinates E address) as [lat lon].
      destruct (get_homesite_images E (site_root ++ hr)) as [|first imgs] eqn:Hi;
        cbn in H; (destruct (truthy name); cbn in H; [|discriminate]);
        injection H as <-; exists l, hr, address, name; cbn;
        repeat split; try reflexivity; try assumption;
        rewrite Hi; reflexivity.
    + destruct (get_homesite_images E (site_root ++ hr)); cbn in H; discriminate.
  - cbn [bind] in H. destruct (card_feature_list c) as [fs|e]; cbn in H; discriminate.
Qed.

Lemma parse_home_cards_in (E : Env) (cards : list Card) (idx : nat) (h : Homesite.t) :
  In h (parse_home_cards E idx cards) ->
  exists i c, In c cards /\ parse_home_card E i c = Ok (Some h).
Proof.
  revert idx. induction cards as [|c cards IH]; intros idx; simpl; [tauto|].
  intros Hin. apply in_app_or in Hin as [Hin | Hin].
  - unfold home_card_output in Hin.
    destruct (parse_home_card E idx c) as [[h'|]|e] eqn:Hc; simpl in Hin; try tauto.
    destruct Hin as [<- | []]. exists idx, c. auto.
  - destruct (IH _ Hin) as (i & c' & Hc' & Hp). exists i, c'. auto.
Qed.

Lemma parse_homesites_in (E : Env) (panel : option (list Card)) (h : Homesite.t) :
  In h (parse_homesites E panel) ->
  exists i c, parse_home_card E i c = Ok (Some h).
Proof.
  destruct panel as [cards|]; simpl; [|tauto].
  intros Hin. destruct (parse_home_cards_in _ _ _ _ Hin) as (i & c & _ & Hp).
  now exists i, c.
Qed.

(** ** C5 and C9: the address of a homesite *)

Lemma parse_homesite_address_segment (E : Env) (url seg : string) :
  final_segment url seg ->
  parse_homesite_address E url = address_of_tokens E (split_on "-" seg).
Proof.
  intros Hseg. unfold parse_homesite_address.
  rewrite (final_segment_last Hseg).
  destruct (split_on "-" seg) as [|t0 [|t1 [|t2 [|t3 more]]]]; try reflexivity.
  cbn [List.length Nat.leb nth_error address_of_tokens].
  now rewrite slice_to_last_4.
Qed.

Lemma upper_char_capital (c : char) : capital_of c (upper_char c).
Proof.
  unfold capital_of, upper_char, is_lower.
  destruct ((97 <=? c)%N) eqn:H1; destruct ((c <=? 122)%N) eqn:H2; simpl;
    try apply N.leb_le in H1; try apply N.leb_le in H2;
    try apply N.leb_gt in H1; try apply N.leb_gt in H2;
    split; intros H; try reflexivity; lia.
Qed.

Lemma lower_char_small (c : char) : small_of c (lower_char c).
Proof.
  unfold small_of, lower_char, is_upper.
  destruct ((65 <=? c)%N) eqn:H1; destruct ((c <=? 90)%N) eqn:H2; simpl;
    try apply N.leb_le in H1; try apply N.leb_le in H2;
    try apply N.leb_gt in H1; try apply N.leb_gt in H2;
    split; intros H; try reflexivity; lia.
Qed.

Lemma str_map_pointwise (R : char -> char -> Prop) (f : char -> char) (w : string) :
  (forall c, R c (f c)) -> pointwise R w (str_map f w).
Proof.
  intros Hf. induction w as [|c w IH]; simpl; constructor; auto.
Qed.

(** On ASCII text [str.upper] and [str.capitalize] are what their names
    say, letter by letter. *)
Lemma upper_ascii (E : Env) (w : string) :
  is_ascii w = true -> upper_cased w (upper E w).
Proof.
  intros Hw. unfold upper. rewrite Hw.
  apply str_map_pointwise, upper_char_capital.
Qed.

Lemma capitalize_ascii (E : Env) (w : string) :
  is_ascii w = true -> capitalized w (capitalize E w).
Proof.
  intros Hw. unfold capitalize. rewrite Hw.
  destruct w as [|c w]; simpl; [exact I|].
  split; [apply upper_char_capital|].
  apply str_map_pointwise, lower_char_small.
Qed.

(** C5: the trailing path segment of a homesite URL is split on hyphens.
    With fewer than four tokens there is no address, and no homesite is
    emitted with an address that did not come from its URL.  Otherwise
    the address is token 2, a space, the upper-cased token 3, a space,
    the capitalized tokens from the fifth up to but not including the
    last one joined by spaces, and the fixed city, state and zip.  For
    ASCII tokens upper-casing replaces each small letter by its capital,
    and capitalizing does so for the first character and replaces each
    capital after it by its small letter. *)
Theorem parse_homesite_address_spec (E : Env) (url seg : string) :
  final_segment url seg ->
  (List.length (split_on "-" seg) < 4 -> parse_homesite_address E url = None) /\
  (forall t0 t1 number direction more,
      split_on "-" seg = t0 :: t1 :: number :: direction :: more ->
      exists dir street,
        parse_homesite_address E url =
        Some (number ++ " " ++ dir ++ " " ++ join " " street
                ++ ", Laveen, AZ 85339",
              number ++ " " ++ dir ++ " " ++ join " " street ++ ", Laveen, AZ") /\
        dir = upper E direction /\
        street = map (capitalize E) (removelast more) /\
        (is_ascii direction = true -> upper_cased direction dir) /\
        Forall2 (fun w r => is_ascii w = true -> capitalized w r)
                (removelast more) street) /\
  (forall idx c h,
      parse_home_card E idx c = Ok (Some h) ->
      Homesite.url h = Some url ->
      Homesite.address h = option_map fst (parse_homesite_address E url) /\
      4 <= List.length (split_on "-" seg)).
Proof.
  intros Hseg. pose proof (parse_homesite_address_segment E Hseg) as Heq.
  split; [|split].
  - intros Hlen. rewrite Heq.
    destruct (split_on "-" seg) as [|t0 [|t1 [|t2 [|t3 more]]]];
      simpl in *; try reflexivity; lia.
  - intros t0 t1 number direction more Htok.
    exists (upper E direction), (map (capitalize E) (removelast more)).
    split; [rewrite Heq, Htok; reflexivity|].
    split; [reflexivity|]. split; [reflexivity|].
    split; [apply upper_ascii|].
    induction (removelast more) as [|w ws IH]; simpl; constructor;
      [apply capitalize_ascii | exact IH].
  - intros idx c h Hcard Hurl.
    destruct (parse_home_card_emitted _ _ _ Hcard)
      as (l & hr & address & name & _ & _ & Ha & Hu & _ & Haddr & _).
    assert (Hurl' : url = site_root ++ hr) by congruence. subst url.
    rewrite Haddr, Ha. split; [reflexivity|].
    rewrite Heq in Ha.
    destruct (split_on "-" seg) as [|t0 [|t1 [|t2 [|t3 more]]]];
      simpl in *; try discriminate; lia.
Qed.

(** A slug in mixed case: the direction comes out in capitals and each
    word of the street name with a capital first letter only. *)
Lemma parse_homesite_address_spec_witness :
  parse_homesite_address offline_env
    "https://www.ashtonwoods.com/phoenix/estrella/lot-584-5510-w-pASEO-wAy-jade"
  = Some ("5510 W Paseo Way, Laveen, AZ 85339", "5510 W Paseo Way, Laveen, AZ").
Proof.
  assert (Hseg : final_segment
            "https://www.ashtonwoods.com/phoenix/estrella/lot-584-5510-w-pASEO-wAy-jade"
            "lot-584-5510-w-pASEO-wAy-jade").
  { split; [|reflexivity].
    exists "https://www.ashtonwoods.com/phoenix/estrella". reflexivity. }
  destruct (parse_homesite_address_spec offline_env Hseg) as (_ & H & _).
  destruct (H "lot" "584" "5510" "w" ["pASEO"; "wAy"; "jade"] eq_refl)
    as (dir & street & Ha & -> & -> & _).
  exact Ha.
Defined.

(** Capitalizing touches the first character of a token only: a letter
    after a digit or an apostrophe stays small. *)
Lemma parse_homesite_address_capitalizes :
  parse_homesite_address offline_env
    "https://www.ashtonwoods.com/phoenix/estrella/lot-12-77-n-5th-o'neil-jade"
  = Some ("77 N 5th O'neil, Laveen, AZ 85339", "77 N 5th O'neil, Laveen, AZ").
Proof. reflexivity. Qed.

(** The slug of the specification's example, whatever the interpreter's
    tables are. *)
Lemma parse_homesite_address_example (E : Env) :
  parse_homesite_address E
    "https://www.ashtonwoods.com/phoenix/estrella/lot-584-5510-w-paseo-way-jade"
  = Some ("5510 W Paseo Way, Laveen, AZ 85339", "5510 W Paseo Way, Laveen, AZ").
Proof. reflexivity. Qed.

(** C9: a quick-move-in card whose URL slug has fewer than four tokens
    adds nothing to the homesites, though its title link and URL are
    there; no emitted homesite carries that URL. *)
Theorem short_slug_homesite_excluded
        (E : Env) (idx : nat) (c : Card) (l : TitleLink) (hr seg : string) :
  card_title c = Some l ->
  href l = Some hr ->
  final_segment (site_root ++ hr) seg ->
  List.length (split_on "-" seg) < 4 ->
  home_card_output E idx c = [] /\
  (forall h, parse_home_card E idx c <> Ok (Some h)) /\
  (forall panel h, In h (parse_homesites E panel) ->
                   Homesite.url h <> Some (site_root ++ hr)).
Proof.
  intros Hl Hhr Hseg Hlen.
  assert (Hnone : parse_homesite_address E (site_root ++ hr) = None).
  { rewrite (parse_homesite_address_segment E Hseg).
    destruct (split_on "-" seg) as [|t0 [|t1 [|t2 [|t3 more]]]];
      simpl in *; try reflexivity; lia. }
  assert (Hcard : forall h, parse_home_card E idx c <> Ok (Some h)).
  { intros h Hc.
    destruct (parse_home_card_emitted _ _ _ Hc)
      as (l' & hr' & address & name & Hl' & Hhr' & Ha & _).
    rewrite Hl in Hl'. injection Hl' as <-.
    rewrite Hhr in Hhr'. injection Hhr' as <-. congruence. }
  split; [|split].
  - unfold home_card_output.
    destruct (parse_home_card E idx c) as [[h|]|e] eqn:Hc; try reflexivity.
    exfalso. exact (Hcard h eq_refl).
  - exact Hcard.
  - intros panel h Hin Hurl.
    destruct (parse_homesites_in _ _ _ Hin) as (i & c' & Hc').
    destruct (parse_home_card_emitted _ _ _ Hc')
      as (l' & hr' & address & name & _ & _ & Ha & Hu & _).
    assert (Hurl' : site_root ++ hr' = site_root ++ hr) by congruence.
    rewrite Hurl' in Ha. congruence.
Qed.

(** A card with a title link whose slug has three tokens. *)
Lemma short_slug_homesite_excluded_witness :
  home_card_output offline_env 1 short_slug_card = [].
Proof.
  refine (proj1 (@short_slug_homesite_excluded offline_env 1 short_slug_card
                   {| link_text := "Jade";
                      href := Some "/phoenix/estrella/lot-584-5510" |}
                   "/phoenix/estrella/lot-584-5510" "lot-584-5510"
                   eq_refl eq_refl _ _)).
  - split; [|reflexivity].
    exists "https://www.ashtonwoods.com/phoenix/estrella". reflexivity.
  - simpl. lia.
Defined.

(** ** C8: cards without a name or a URL *)

Lemma site_root_url_nonempty (hr : string) : site_root ++ hr <> "".
Proof. unfold site_root. simpl. discriminate. Qed.

(** What an emitted plan tells about its card. *)
Lemma parse_plan_card_emitted (c : Card) (p : HomePlan.t) :
  parse_plan_card c = Ok (Some p) ->
  exists l hr n,
    card_title c = Some l /\ href l = Some hr /\
    clean_text (Some (link_text l)) = Some n /\ n <> "" /\
    HomePlan.name p = Some n /\ HomePlan.url p = Some (site_root ++ hr).
Proof.
  unfold parse_plan_card. intros H.
  destruct (card_title c) as [l|] eqn:Hl; cbn [bind] in H.
  - unfold href_of in H.
    destruct (href l) as [hr|] eqn:Hhr; cbn [bind] in H; [|discriminate].
    destruct (card_feature_list c) as [fs|e]; cbn [bind] in H; [|discriminate].
    cbn [fst snd HomePlan.name HomePlan.url] in H.
    destruct (clean_text (Some (link_text l))) as [n|] eqn:Hn; cbn in H;
      [|discriminate].
    destruct (truthy n) eqn:Ht; cbn in H; [|discriminate].
    injection H as <-. exists l, hr, n. cbn.
    repeat split; try reflexivity; try assumption.
    now apply truthy_true.
  - destruct (card_feature_list c) as [fs|e]; cbn in H; discriminate.
Qed.

Lemma home_card_output_complete (E : Env) (idx : nat) (c : Card) :
  Forall home_complete (home_card_output E idx c).
Proof.
  unfold home_card_output.
  destruct (parse_home_card E idx c) as [[h|]|e] eqn:Hc; constructor; [|constructor].
  destruct (parse_home_card_emitted _ _ _ Hc)
    as (l & hr & address & name & _ & _ & Ha & Hu & Hn & _).
  exists name, (site_root ++ hr). repeat split; try assumption.
  - intros ->. pose proof Ha as Ha'. unfold parse_homesite_address in Ha'.
    destruct (last_item (split_on "/" (site_root ++ hr))); [|discriminate].
    destruct (4 <=? List.length (split_on "-" s)); [|discriminate].
    destruct (nth_error (split_on "-" s) 2); [|discriminate].
    destruct (nth_error (split_on "-" s) 3); [|discriminate].
    injection Ha' as _ Hname.
    destruct s0; simpl in Hname; discriminate.
  - apply site_root_url_nonempty.
Qed.

Lemma parse_home_cards_complete (E : Env) (cards : list Card) (idx : nat) :
  Forall home_complete (parse_home_cards E idx cards).
Proof.
  revert idx. induction cards as [|c cards IH]; intros idx; simpl.
  - constructor.
  - apply Forall_app. split; [apply home_card_output_complete | apply IH].
Qed.

Lemma plan_card_output_complete (c : Card) :
  Forall plan_complete (plan_card_output c).
Proof.
  unfold plan_card_output.
  destruct (parse_plan_card c) as [[p|]|e] eqn:Hc; constructor; [|constructor].
  destruct (parse_plan_card_emitted _ Hc) as (l & hr & n & _ & _ & _ & Hne & Hn & Hu).
  exists n, (site_root ++ hr). repeat split; try assumption.
  apply site_root_url_nonempty.
Qed.

(** C8: every plan and every homesite in the output has a name and a URL,
    neither absent nor empty; a card without its title link adds nothing
    to either list whatever else it holds, and so does a plan card whose
    link has no [href] or whose link text cleans to nothing. *)
Theorem cards_need_name_and_url
        (E : Env) (plans_panel homes_panel : option (list Card)) :
  Forall plan_complete (parse_homeplans plans_panel) /\
  Forall home_complete (parse_homesites E homes_panel) /\
  (forall idx c,
      card_title c = None ->
      plan_card_output c = [] /\ home_card_output E idx c = []) /\
  (forall idx c l,
      card_title c = Some l -> href l = None ->
      plan_card_output c = [] /\ home_card_output E idx c = []) /\
  (forall c l,
      card_title c = Some l ->
      split_ws (link_text l) = [] ->
      plan_card_output c = []).
Proof.
  split; [|split; [|split; [|split]]].
  - destruct plans_panel as [cards|]; simpl; [|constructor].
    induction cards as [|c cards IH]; simpl; [constructor|].
    apply Forall_app. split; [apply plan_card_output_complete | exact IH].
  - destruct homes_panel as [cards|]; simpl; [|constructor].
    apply parse_home_cards_complete.
  - intros idx c Hc. split.
    + unfold plan_card_output.
      destruct (parse_plan_card c) as [[p|]|e] eqn:Hp; try reflexivity.
      destruct (parse_plan_card_emitted _ Hp) as (l & ? & ? & Hl & _). congruence.
    + unfold home_card_output.
      destruct (parse_home_card E idx c) as [[h|]|e] eqn:Hp; try reflexivity.
      destruct (parse_home_card_emitted _ _ _ Hp) as (l & ? & ? & ? & Hl & _).
      congruence.
  - intros idx c l Hc Hh. split.
    + unfold plan_card_output.
      destruct (parse_plan_card c) as [[p|]|e] eqn:Hp; try reflexivity.
      destruct (parse_plan_card_emitted _ Hp) as (l' & ? & ? & Hl & Hh' & _).
      congruence.
    + unfold home_card_output.
      destruct (parse_home_card E idx c) as [[h|]|e] eqn:Hp; try reflexivity.
      destruct (parse_home_card_emitted _ _ _ Hp) as (l' & ? & ? & ? & Hl & Hh' & _).
      congruence.
  - intros c l Hc Hblank.
    unfold plan_card_output.
    destruct (parse_plan_card c) as [[p|]|e] eqn:Hp; try reflexivity.
    destruct (parse_plan_card_emitted _ Hp) as (l' & hr & n & Hl & _ & Hn & Hne & _).
    assert (l' = l) by congruence. subst l'.
    unfold clean_text in Hn.
    destruct (truthy (link_text l)); [|discriminate].
    rewrite split_ws_strip, Hblank in Hn. simpl in Hn. congruence.
Qed.

(** Four cards of which only the complete one is emitted, by either
    extractor. *)
Lemma cards_need_name_and_url_example :
  map HomePlan.name
      (parse_homeplans (Some [untitled_card; jade_card; unlinked_card; blank_title_card]))
  = [Some "Jade"] /\
  map Homesite.id
      (parse_homesites offline_env (Some [untitled_card; jade_card; unlinked_card]))
  = ["2"].
Proof. split; reflexivity. Qed.

(** ** C7: the images of a homesite *)

Lemma mem_false (u : string) (images : list string) :
  mem u images = false -> ~ In u images.
Proof.
  unfold mem. intros H Hin.
  assert (Ht : existsb (str_eqb u) images = true).
  { apply existsb_exists. exists u. split; [assumption | apply str_eqb_refl]. }
  congruence.
Qed.

Lemma is_valid_image_url_allowed (u : string) :
  is_valid_image_url (Some u) = true -> allowed_image u.
Proof.
  unfold is_valid_image_url, allowed_image.
  destruct (truthy u); simpl; [|discriminate].
  destruct (contains "bizible.com" u); simpl; [discriminate|].
  destruct (contains "marvel-b1-cdn" u); simpl; [discriminate|].
  destruct (contains "ashtonwoods.com" u); simpl; [auto|].
  destruct (contains "widen.net" u); simpl; [auto | discriminate].
Qed.

Lemma NoDup_snoc (u : string) (l : list string) :
  NoDup l -> ~ In u l -> NoDup (l ++ [u])%list.
Proof.
  induction l as [|x l IH]; simpl; intros Hnd Hnot.
  - constructor; [tauto | constructor].
  - inversion Hnd as [|? ? Hx Hnd']; subst.
    constructor.
    + intros Hin. apply in_app_or in Hin as [Hin | [-> | []]]; tauto.
    + apply IH; tauto.
Qed.

Lemma add_image_ok (images : list string) (img_url : option string) :
  images_ok images -> images_ok (add_image images img_url).
Proof.
  intros [Hnd Hall]. unfold add_image.
  destruct img_url as [u|]; [|now split].
  destruct (is_valid_image_url (Some u)) eqn:Hv; simpl; [|now split].
  destruct (mem u images) eqn:Hm; simpl; [now split|].
  split.
  - apply NoDup_snoc; [assumption | now apply mem_false].
  - apply Forall_app. split; [assumption|].
    constructor; [now apply is_valid_image_url_allowed | constructor].
Qed.

Lemma scan_element_ok (images : list string) (img : Element) :
  images_ok images -> images_ok (scan_element images img).
Proof.
  intros H. unfold scan_element. now repeat apply add_image_ok.
Qed.

Lemma fold_left_ok {A : Type} (f : list string -> A -> list string) (l : list A) :
  (forall images a, images_ok images -> images_ok (f images a)) ->
  forall images, images_ok images -> images_ok (fold_left f l images).
Proof.
  intros Hf. induction l as [|a l IH]; simpl; intros images H; [assumption|].
  apply IH, Hf, H.
Qed.

Lemma firstn_ok (n : nat) (images : list string) :
  images_ok images -> images_ok (firstn n images).
Proof.
  intros [Hnd Hall]. revert n.
  induction images as [|u images IH]; intros n.
  - rewrite firstn_nil. now split.
  - destruct n as [|n]; simpl; [split; constructor|].
    inversion Hnd as [|? ? Hnot Hnd']; subst.
    inversion Hall as [|? ? Hu Hall']; subst.
    destruct (IH Hnd' Hall' n) as [IH1 IH2].
    split; constructor; try assumption.
    intros Hin. apply Hnot.
    rewrite <- (firstn_skipn n images). apply in_or_app. now left.
Qed.

Lemma collect_images_ok (page : DetailPage) : images_ok (collect_images page).
Proof.
  unfold collect_images. apply firstn_ok.
  assert (Hg : images_ok
                 (fold_left (fun images it => add_image images (data_desktop_image it))
                            (gallery_items page) [])).
  { apply fold_left_ok; [intros; now apply add_image_ok | split; constructor]. }
  destruct (fold_left _ (gallery_items page) []) as [|u images]; [|exact Hg].
  apply fold_left_ok; [apply scan_element_ok | exact Hg].
Qed.

(** C7: the list [get_homesite_images] returns has no URL twice, has at
    most twelve entries, and holds only URLs from an allowed domain and
    from no tracking domain; every emitted homesite carries the list
    returned for its URL, and its primary image is the first entry of a
    non-empty list. *)
Theorem homesite_images_invariant
        (E : Env) (url : string) (panel : option (list Card)) :
  NoDup (get_homesite_images E url) /\
  List.length (get_homesite_images E url) <= 12 /\
  Forall allowed_image (get_homesite_images E url) /\
  Forall (fun h =>
            exists u,
              Homesite.url h = Some u /\
              Homesite.images h = get_homesite_images E u /\
              match Homesite.images h with
              | [] => Homesite.image_url h = None
              | first :: _ => Homesite.image_url h = Some first
              end)
         (parse_homesites E panel).
Proof.
  assert (Hok : images_ok (get_homesite_images E url)).
  { unfold get_homesite_images. destruct (driver_get E url) as [page|].
    - apply collect_images_ok.
    - split; constructor. }
  destruct Hok as [Hnd Hall].
  split; [exact Hnd|]. split; [|split; [exact Hall|]].
  - unfold get_homesite_images. destruct (driver_get E url) as [page|].
    + unfold collect_images. apply firstn_le_length.
    + simpl. lia.
  - apply Forall_forall. intros h Hin.
    destruct (parse_homesites_in _ _ _ Hin) as (i & c & Hc).
    destruct (parse_home_card_emitted _ _ _ Hc)
      as (l & hr & address & name & _ & _ & _ & Hu & _ & _ & Hi & Hf).
    exists (site_root ++ hr). split; [exact Hu|]. split; [exact Hi|].
    rewrite Hi, Hf. destruct (get_homesite_images E (site_root ++ hr)); reflexivity.
Qed.

(** A crowded detail page: the repeated, the tracking and the foreign URL
    are left out and twelve images are kept, the first one as the primary
    image. *)
Lemma homesite_images_invariant_example :
  List.length (get_homesite_images gallery_env "u") = 12 /\
  hd_error (get_homesite_images gallery_env "u")
  = Some "https://cdn.ashtonwoods.com/a.jpg" /\
  map Homesite.image_url (parse_homesites gallery_env (Some [jade_card]))
  = [Some "https://cdn.ashtonwoods.com/a.jpg"].
Proof. repeat split; reflexivity. Qed.

(** ** C4: [parse_address] *)

Lemma item_nth {A : Type} (l : list A) (i : nat) (d : A) :
  i < List.length l -> item l i = Ok (nth i l d).
Proof.
  intros H. unfold item. now rewrite (nth_error_nth' l d H).
Qed.

(** C4, as the address resolver behaves: [parse_address] never raises and
    always carries the fixed market label.  It returns the all-empty
    address when the label or its sibling block is absent, when the block
    has fewer than two lines, when the second line has fewer than two
    comma-separated parts, or when the second of these parts has fewer
    than two whitespace-separated tokens.  Otherwise the address is built
    from the street, the first comma part and the first two tokens;
    further parts and tokens are ignored. *)
Theorem parse_address_shape (so : SalesOffice) :
  (exists r, parse_address_body so = Ok r) /\
  market (parse_address so) = "Phoenix" /\
  match so with
  | AddressParagraph (line1 :: line2 :: _) =>
      let parts := split_on "," (strip line2) in
      let tokens := split_ws (nth 1 parts "") in
      if (2 <=? List.length parts) && (2 <=? List.length tokens)
      then parse_address so =
           {| full_address := strip line1 ++ ", " ++ strip (nth 0 parts "") ++ ", "
                              ++ nth 0 tokens "" ++ " " ++ nth 1 tokens "";
              city := strip (nth 0 parts "");
              state := nth 0 tokens "";
              market := "Phoenix" |}
      else parse_address so = default_address
  | _ => parse_address so = default_address
  end.
Proof.
  assert (Hdefault :
            forall so', parse_address_body so' = Ok None ->
                        (exists r, parse_address_body so' = Ok r) /\
                        market (parse_address so') = "Phoenix" /\
                        parse_address so' = default_address).
  { intros so' H. unfold parse_address. rewrite H.
    split; [now eexists | split; reflexivity]. }
  destruct so as [| | |lines]; try (apply Hdefault; reflexivity).
  destruct lines as [|line1 [|line2 lines]]; try (apply Hdefault; reflexivity).
  cbv zeta.
  assert (Hbody :
            parse_address_body (AddressParagraph (line1 :: line2 :: lines)) =
            let parts := split_on "," (strip line2) in
            let tokens := split_ws (nth 1 parts "") in
            if (2 <=? List.length parts) && (2 <=? List.length tokens)
            then Ok (Some {| full_address :=
                               strip line1 ++ ", " ++ strip (nth 0 parts "") ++ ", "
                               ++ nth 0 tokens "" ++ " " ++ nth 1 tokens "";
                             city := strip (nth 0 parts "");
                             state := nth 0 tokens "";
                             market := "Phoenix" |})
            else Ok None).
  { unfold parse_address_body.
    change (2 <=? List.length (map strip (line1 :: line2 :: lines))) with true.
    cbn [map item nth_error bind]. cbv zeta.
    destruct (2 <=? List.length (split_on "," (strip line2))) eqn:Hparts;
      [|reflexivity].
    apply Nat.leb_le in Hparts.
    rewrite (item_nth _ "" (i := 0)), (item_nth _ "" (i := 1)) by lia.
    cbn [bind andb]. rewrite split_ws_strip.
    destruct (2 <=? List.length (split_ws (nth 1 (split_on "," (strip line2)) "")))
      eqn:Htok; [|reflexivity].
    apply Nat.leb_le in Htok.
    rewrite (item_nth _ "" (i := 0)), (item_nth _ "" (i := 1)) by lia.
    reflexivity. }
  cbv zeta in Hbody.
  destruct ((2 <=? List.length (split_on "," (strip line2))) &&
            (2 <=? List.length (split_ws (nth 1 (split_on "," (strip line2)) ""))))
    eqn:Hshape.
  - unfold parse_address. rewrite Hbody.
    split; [now eexists | split; reflexivity].
  - now apply Hdefault.
Qed.

(** C4 as stated fails: a second line with three comma-separated parts,
    or a state part with three tokens, still yields an address. *)
Lemma parse_address_more_than_two_parts :
  List.length (split_on "," "Laveen, AZ 85339, USA") = 3 /\
  parse_address (AddressParagraph ["123 Main St"; "Laveen, AZ 85339, USA"])
  = {| full_address := "123 Main St, Laveen, AZ 85339";
       city := "Laveen"; state := "AZ"; market := "Phoenix" |} /\
  List.length (split_ws " AZ 85339 1234") = 3 /\
  parse_address (AddressParagraph ["123 Main St"; "Laveen, AZ 85339 1234"])
  = {| full_address := "123 Main St, Laveen, AZ 85339";
       city := "Laveen"; state := "AZ"; market := "Phoenix" |} /\
  parse_address (AddressParagraph ["123 Main St"; "Laveen, AZ 85339, USA"])
  <> default_address.
Proof. repeat split; try reflexivity. discriminate. Qed.

(** The specification's two address examples. *)
Lemma parse_address_examples :
  parse_address (AddressParagraph ["123 Main St"; "Laveen, AZ 85339"])
  = {| full_address := "123 Main St, Laveen, AZ 85339";
       city := "Laveen"; state := "AZ"; market := "Phoenix" |} /\
  parse_address (AddressParagraph ["123 Main St"; "Laveen AZ 85339"])
  = default_address.
Proof. split; reflexivity. Qed.


(** A no-break space between state and zip separates them like a space. *)
Lemma parse_address_no_break_space :
  parse_address (AddressParagraph ["123 Main St"; "Laveen, AZ" ++ String 160%N "85339"])
  = {| full_address := "123 Main St, Laveen, AZ 85339";
       city := "Laveen"; state := "AZ"; market := "Phoenix" |}.
Proof. reflexivity. Qed.
(** ** C2: [get_range_from_values] *)

Lemma Qlt_bool_true (a b : Q) : Qlt_bool a b = true -> (a < b)%Q.
Proof.
  unfold Qlt_bool. intros H. apply negb_true_iff in H.
  apply Qnot_le_lt. intros Hle. apply Qle_bool_iff in Hle. congruence.
Qed.

Lemma Qlt_bool_false (a b : Q) : Qlt_bool a b = false -> (b <= a)%Q.
Proof.
  unfold Qlt_bool. intros H. apply negb_false_iff in H.
  now apply Qle_bool_iff.
Qed.

Lemma float_le_refl (x : pyfloat) : not_nan x = true -> float_le x x.
Proof. destruct x; simpl; try discriminate; auto. intros _. apply Qle_refl. Qed.

Lemma float_le_trans (x y z : pyfloat) :
  float_le x y -> float_le y z -> float_le x z.
Proof.
  destruct x, y, z; simpl; try tauto. apply Qle_trans.
Qed.

Lemma float_lt_le (x y : pyfloat) : float_lt x y = true -> float_le x y.
Proof.
  destruct x, y; simpl; try discriminate; auto.
  intros H. apply Qlt_le_weak. now apply Qlt_bool_true.
Qed.

Lemma float_not_lt_le (x y : pyfloat) :
  not_nan x = true -> not_nan y = true ->
  float_lt x y = false -> float_le y x.
Proof.
  destruct x, y; simpl; try discriminate; auto.
  intros _ _ H. now apply Qlt_bool_false.
Qed.

(** A nan that is not the first item never becomes the candidate of
    [min] or [max], and no item replaces a candidate that is nan. *)
Lemma py_min_from_nan (l : list pyfloat) : py_min_from NaN l = NaN.
Proof.
  induction l as [|x l IH]; simpl; [reflexivity|].
  now destruct x.
Qed.

Lemma py_max_from_nan (l : list pyfloat) : py_max_from NaN l = NaN.
Proof. induction l as [|x l IH]; simpl; [reflexivity | exact IH]. Qed.

Lemma py_min_from_skips_nan (l : list pyfloat) (m : pyfloat) :
  not_nan m = true -> py_min_from m l = py_min_from m (filter not_nan l).
Proof.
  revert m. induction l as [|x l IH]; intros m Hm; [reflexivity|].
  cbn [py_min_from filter]. destruct (not_nan x) eqn:Hx.
  - cbn [py_min_from]. destruct (float_lt x m); now apply IH.
  - destruct x; try discriminate. now apply IH.
Qed.

Lemma py_max_from_skips_nan (l : list pyfloat) (m : pyfloat) :
  not_nan m = true -> py_max_from m l = py_max_from m (filter not_nan l).
Proof.
  revert m. induction l as [|x l IH]; intros m Hm; [reflexivity|].
  cbn [py_max_from filter]. destruct (not_nan x) eqn:Hx.
  - cbn [py_max_from]. destruct (float_lt m x); now apply IH.
  - destruct x; try discriminate.
    replace (float_lt m NaN) with false by now destruct m.
    now apply IH.
Qed.

(** Among numbers [min] returns an item of the list that is below every
    item. *)
Lemma py_min_from_spec (l : list pyfloat) (m : pyfloat) :
  Forall (fun x => not_nan x = true) (m :: l) ->
  In (py_min_from m l) (m :: l) /\
  Forall (float_le (py_min_from m l)) (m :: l).
Proof.
  revert m. induction l as [|x l IH]; intros m Hnum; simpl.
  - inversion Hnum; subst.
    split; [now left | constructor; [now apply float_le_refl | constructor]].
  - inversion Hnum as [|? ? Hm Hl]; subst.
    inversion Hl as [|? ? Hx Hl']; subst.
    destruct (float_lt x m) eqn:Hlt.
    + destruct (IH x Hl) as [Hin Hall]. split.
      * simpl in Hin. tauto.
      * inversion Hall as [|? ? Hx' Hrest]; subst.
        constructor; [|now constructor].
        apply float_le_trans with x; [assumption | now apply float_lt_le].
    + destruct (IH m (Forall_cons _ Hm Hl')) as [Hin Hall]. split.
      * simpl in Hin. tauto.
      * inversion Hall as [|? ? Hm' Hrest]; subst.
        constructor; [assumption|]. constructor; [|assumption].
        apply float_le_trans with m; [assumption | now apply float_not_lt_le].
Qed.

(** Among numbers [max] returns an item of the list that is above every
    item. *)
Lemma py_max_from_spec (l : list pyfloat) (m : pyfloat) :
  Forall (fun x => not_nan x = true) (m :: l) ->
  In (py_max_from m l) (m :: l) /\
  Forall (fun x => float_le x (py_max_from m l)) (m :: l).
Proof.
  revert m. induction l as [|x l IH]; intros m Hnum; simpl.
  - inversion Hnum; subst.
    split; [now left | constructor; [now apply float_le_refl | constructor]].
  - inversion Hnum as [|? ? Hm Hl]; subst.
    inversion Hl as [|? ? Hx Hl']; subst.
    destruct (float_lt m x) eqn:Hlt.
    + destruct (IH x Hl) as [Hin Hall]. split.
      * simpl in Hin. tauto.
      * inversion Hall as [|? ? Hx' Hrest]; subst.
        constructor; [|now constructor].
        apply float_le_trans with x; [now apply float_lt_le | assumption].
    + destruct (IH m (Forall_cons _ Hm Hl')) as [Hin Hall]. split.
      * simpl in Hin. tauto.
      * inversion Hall as [|? ? Hm' Hrest]; subst.
        constructor; [assumption|]. constructor; [|assumption].
        apply float_le_trans with m; [now apply float_not_lt_le | assumption].
Qed.

(** The list comprehension raises exactly when one of the strings is not
    accepted by [float], and then with a [ValueError]. *)
Lemma floats_of_values (E : Env) (values : list pyval) :
  match map_result (to_float E) (filter is_not_none values) with
  | Ok floats =>
      floats = flat_map (converted E) values /\
      forall s, In (PStr s) values -> float_of E s <> None
  | Raise e =>
      e = ValueError /\ exists s, In (PStr s) values /\ float_of E s = None
  end.
Proof.
  induction values as [|v values IH]; simpl.
  - split; [reflexivity | tauto].
  - destruct v as [|s|q]; simpl.
    + destruct (map_result (to_float E) (filter is_not_none values)) as [floats|e].
      * destruct IH as [IH1 IH2]. split; [assumption|].
        intros s [Hs | Hs]; [discriminate | auto].
      * destruct IH as [IH1 (s & Hs & Hf)]. split; [assumption|].
        exists s. auto.
    + unfold py_float. destruct (float_of E s) as [q|] eqn:Hq; simpl.
      * destruct (map_result (to_float E) (filter is_not_none values)) as [floats|e];
          simpl.
        -- destruct IH as [IH1 IH2]. split; [now rewrite IH1|].
           intros s' [Hs | Hs]; [injection Hs as <-; congruence | auto].
        -- destruct IH as [IH1 (s' & Hs & Hf)]. split; [assumption|].
           exists s'. auto.
      * split; [reflexivity|]. exists s. auto.
    + destruct (map_result (to_float E) (filter is_not_none values)) as [floats|e];
        simpl.
      * destruct IH as [IH1 IH2]. split; [now rewrite IH1|].
        intros s [Hs | Hs]; [discriminate | auto].
      * destruct IH as [IH1 (s & Hs & Hf)]. split; [assumption|].
        exists s. auto.
Qed.

(** The range of a non-empty list of numbers: the text of its least and
    greatest item when all are finite, and the [OverflowError] of [int]
    when an infinity is among them. *)
Lemma range_of_numbers (f : pyfloat) (fs : list pyfloat) :
  Forall (fun x => not_nan x = true) (f :: fs) ->
  exists lo hi,
    In lo (f :: fs) /\ In hi (f :: fs) /\
    Forall (fun x => float_le lo x /\ float_le x hi) (f :: fs) /\
    (if float_eq lo hi then
       a <- int_of_float lo ;; Ok (Some (str_of_Z a))
     else
       a <- int_of_float lo ;; b <- int_of_float hi ;;
       Ok (Some (str_of_Z a ++ " - " ++ str_of_Z b)))
    = (if forallb is_finite (f :: fs)
       then match lo, hi with
            | Finite qlo, Finite qhi => Ok (Some (range_text qlo qhi))
            | _, _ => Raise OverflowError
            end
       else Raise OverflowError) /\
    lo = py_min_from f fs /\ hi = py_max_from f fs.
Proof.
  intros Hnum.
  destruct (py_min_from_spec Hnum) as [Hmin Hlo].
  destruct (py_max_from_spec Hnum) as [Hmax Hhi].
  exists (py_min_from f fs), (py_max_from f fs).
  split; [assumption|]. split; [assumption|].
  split; [rewrite Forall_forall in *; intros x Hx; split; auto|].
  split; [|split; reflexivity].
  set (lo := py_min_from f fs) in *. set (hi := py_max_from f fs) in *.
  destruct (forallb is_finite (f :: fs)) eqn:Hfin.
  - rewrite forallb_forall in Hfin.
    pose proof (Hfin lo Hmin) as Hflo. pose proof (Hfin hi Hmax) as Hfhi.
    destruct lo as [qlo| | |]; try discriminate.
    destruct hi as [qhi| | |]; try discriminate.
    unfold range_text, truncate. simpl. now destruct (Qeq_bool qlo qhi).
  - assert (Hinf : exists x, In x (f :: fs) /\ is_finite x = false).
    { clear -Hfin. induction (f :: fs) as [|x l IH]; [discriminate|].
      simpl in Hfin. apply andb_false_iff in Hfin as [Hx | Hl].
      - exists x. split; [now left | assumption].
      - destruct (IH Hl) as (y & Hy & Hfy). exists y. split; [now right | assumption]. }
    destruct Hinf as (x & Hx & Hfx).
    rewrite Forall_forall in Hnum, Hlo, Hhi.
    pose proof (Hnum x Hx) as Hnx. pose proof (Hlo x Hx) as Hlx.
    pose proof (Hhi x Hx) as Hxh.
    pose proof (Hnum lo Hmin) as Hnlo. pose proof (Hnum hi Hmax) as Hnhi.
    pose proof (Hlo hi Hmax) as Hlh.
    destruct x as [q| | |]; try discriminate;
      destruct lo as [qlo| | |]; try discriminate; simpl in Hlx; try tauto;
      destruct hi as [qhi| | |]; try discriminate; simpl in Hxh, Hlh; try tauto;
      simpl; try reflexivity;
      destruct (Qeq_bool qlo qhi); reflexivity.
Qed.

Lemma range_after_conversion (f : pyfloat) (fs : list pyfloat) :
  not_nan f = true ->
  exists lo hi,
    In lo (f :: filter not_nan fs) /\ In hi (f :: filter not_nan fs) /\
    Forall (fun x => float_le lo x /\ float_le x hi) (f :: filter not_nan fs) /\
    (if float_eq (py_min_from f fs) (py_max_from f fs) then
       a <- int_of_float (py_min_from f fs) ;; Ok (Some (str_of_Z a))
     else
       a <- int_of_float (py_min_from f fs) ;;
       b <- int_of_float (py_max_from f fs) ;;
       Ok (Some (str_of_Z a ++ " - " ++ str_of_Z b)))
    = (if forallb is_finite (f :: filter not_nan fs)
       then match lo, hi with
            | Finite qlo, Finite qhi => Ok (Some (range_text qlo qhi))
            | _, _ => Raise OverflowError
            end
       else Raise OverflowError).
Proof.
  intros Hf.
  assert (Hnum : Forall (fun x => not_nan x = true) (f :: filter not_nan fs)).
  { constructor; [assumption|].
    apply Forall_forall. intros x Hx. now apply filter_In in Hx. }
  destruct (range_of_numbers Hnum) as (lo & hi & Hlo & Hhi & Hall & Hres & Elo & Ehi).
  exists lo, hi. split; [assumption|]. split; [assumption|]. split; [assumption|].
  rewrite <- Hres, Elo, Ehi.
  rewrite (@py_min_from_skips_nan fs f Hf), (@py_max_from_skips_nan fs f Hf).
  reflexivity.
Qed.

(** C2, as the assembler behaves: [get_range_from_values] drops the [None]
    entries only and converts the rest with [float].  A string that
    [float] rejects makes it raise [ValueError].  Otherwise it returns
    absent when no value is left.  When the first value is nan it raises
    the [ValueError] of [int]; a nan further on is passed over.  Among
    the numbers that remain, an infinity makes it raise the
    [OverflowError] of [int]; else it returns their true minimum and
    maximum, each truncated toward zero to an integer: the minimum alone
    when the two are equal as numbers, the two joined by a hyphen between
    spaces when not. *)
Theorem get_range_from_values_spec (E : Env) (values : list pyval) :
  ((exists s, In (PStr s) values /\ float_of E s = None) ->
   get_range_from_values E values = Raise ValueError) /\
  ((forall s, In (PStr s) values -> float_of E s <> None) ->
   match flat_map (converted E) values with
   | [] => get_range_from_values E values = Ok None
   | NaN :: _ => get_range_from_values E values = Raise ValueError
   | f :: fs =>
       let numbers := f :: filter not_nan fs in
       exists lo hi,
         In lo numbers /\ In hi numbers /\
         Forall (fun x => float_le lo x /\ float_le x hi) numbers /\
         get_range_from_values E values =
         if forallb is_finite numbers
         then match lo, hi with
              | Finite qlo, Finite qhi => Ok (Some (range_text qlo qhi))
              | _, _ => Raise OverflowError
              end
         else Raise OverflowError
   end) /\
  get_range_from_values E [PNum (Finite 1800); PNum (Finite 2200); PNum (Finite 2200)]
  = Ok (Some "1800 - 2200") /\
  get_range_from_values E [] = Ok None /\
  get_range_from_values E [PNum (Finite 2000)] = Ok (Some "2000").
Proof.
  pose proof (floats_of_values E values) as Hf.
  assert (Hrun : get_range_from_values E values =
                 floats <- map_result (to_float E) (filter is_not_none values) ;;
                 match floats with
                 | [] => Ok None
                 | f :: fs =>
                     if float_eq (py_min_from f fs) (py_max_from f fs) then
                       a <- int_of_float (py_min_from f fs) ;;
                       Ok (Some (str_of_Z a))
                     else
                       a <- int_of_float (py_min_from f fs) ;;
                       b <- int_of_float (py_max_from f fs) ;;
                       Ok (Some (str_of_Z a ++ " - " ++ str_of_Z b))
                 end).
  { destruct values; reflexivity. }
  split; [|split; [|repeat split]].
  - intros (s & Hs & Hn). rewrite Hrun.
    destruct (map_result (to_float E) (filter is_not_none values)) as [floats|e].
    + destruct Hf as [_ Hall]. exfalso. exact (Hall s Hs Hn).
    + destruct Hf as [-> _]. reflexivity.
  - intros Hall. rewrite Hrun.
    destruct (map_result (to_float E) (filter is_not_none values)) as [floats|e].
    + destruct Hf as [<- _]. cbn [bind].
      destruct floats as [|f fs]; [reflexivity|].
      destruct f as [q| | |]; cbv zeta;
        try (apply range_after_conversion; reflexivity).
      now rewrite py_min_from_nan, py_max_from_nan.
    + destruct Hf as [_ (s & Hs & Hn)]. exfalso. exact (Hall s Hs Hn).
Qed.

(** C2 as stated fails: a value that is not a number is not dropped, the
    call raises; a minimum and maximum that are not integers are not
    shown as they are; and an infinity or a leading nan, which [float]
    accepts, makes the call raise as well. *)
Lemma get_range_from_values_raises :
  get_range_from_values offline_env [PStr "abc"; PStr "1800"] = Raise ValueError /\
  rangeOf_claimed offline_env [PStr "abc"; PStr "1800"] = Some "1800" /\
  get_range_from_values offline_env [PNum (Finite (5 # 2)); PNum (Finite (7 # 2))]
  = Ok (Some "2 - 3") /\
  get_range_from_values offline_env [PStr "inf"] = Raise OverflowError /\
  get_range_from_values offline_env [PStr "nan"] = Raise ValueError /\
  get_range_from_values offline_env [PStr "1800"; PStr "nan"] = Ok (Some "1800").
Proof. repeat split; reflexivity. Qed.
(** ** The selection of the range values *)

Lemma map_result_length {A B : Type} (f : A -> result B) (l : list A) (bs : list B) :
  map_result f l = Ok bs -> List.length bs = List.length l.
Proof.
  revert bs. induction l as [|a l IH]; simpl; intros bs H.
  - injection H as <-. reflexivity.
  - destruct (f a) as [b|e]; simpl in H; [|discriminate].
    destruct (map_result f l) as [bs'|e]; simpl in H; [|discriminate].
    injection H as <-. simpl. now rewrite (IH bs').
Qed.

Lemma map_result_raise (E : Env) (l : list string) (e : exn) :
  map_result (py_float E) l = Raise e ->
  e = ValueError /\ exists s, In s l /\ float_of E s = None.
Proof.
  induction l as [|a l IH]; simpl; [discriminate|].
  unfold py_float at 1. destruct (float_of E a) as [q|] eqn:Hq; simpl.
  - destruct (map_result (py_float E) l) as [bs|e']; simpl; [discriminate|].
    intros H. injection H as <-. destruct (IH eq_refl) as [-> (s & Hs & Hn)].
    split; [reflexivity|]. exists s. auto.
  - intros H. injection H as <-. split; [reflexivity|]. exists a. auto.
Qed.

(** The source of the range values is chosen for each field on its own.
    Each of the three lists is the homesites' list of that field when it
    is not empty and the homeplans' list of that field otherwise; the
    selection raises exactly when [float] rejects a bath value it
    converts. *)
Lemma range_values_per_field
        (E : Env) (homesites : list Homesite.t) (homeplans : list HomePlan.t) :
  match range_values E homesites homeplans with
  | Ok rv =>
      sqft_values rv =
      first_nonempty (truthy_fields Homesite.sqft homesites)
                     (truthy_fields plan_sqft homeplans) /\
      bed_values rv =
      first_nonempty (truthy_fields Homesite.beds homesites)
                     (truthy_fields plan_beds homeplans) /\
      map_result (py_float E)
                 (first_nonempty (truthy_fields Homesite.baths homesites)
                                 (truthy_fields plan_baths homeplans))
      = Ok (bath_values rv)
  | Raise e =>
      e = ValueError /\
      exists s,
        (In s (truthy_fields Homesite.baths homesites) \/
         truthy_fields Homesite.baths homesites = [] /\
         In s (truthy_fields plan_baths homeplans)) /\
        float_of E s = None
  end.
Proof.
  unfold range_values.
  destruct (map_result (py_float E) (truthy_fields Homesite.baths homesites))
    as [site_baths|e] eqn:Hsite; cbn [bind].
  - pose proof (map_result_length _ _ Hsite) as Hlen.
    destruct site_baths as [|b site_baths].
    + destruct (truthy_fields Homesite.baths homesites) as [|s l] eqn:Hs;
        [|discriminate].
      destruct (map_result (py_float E) (truthy_fields plan_baths homeplans))
        as [plan_baths'|e] eqn:Hplan; cbn [bind].
      * cbn [sqft_values bed_values bath_values first_nonempty].
        repeat split; try assumption;
          destruct (truthy_fields Homesite.sqft homesites);
          destruct (truthy_fields Homesite.beds homesites); reflexivity.
      * destruct (map_result_raise _ _ Hplan) as [-> (s & Hin & Hn)].
        split; [reflexivity|]. exists s. auto.
    + cbn [bind sqft_values bed_values bath_values].
      destruct (truthy_fields Homesite.baths homesites) as [|s l] eqn:Hs;
        [discriminate|].
      cbn [first_nonempty].
      repeat split; try assumption;
        destruct (truthy_fields Homesite.sqft homesites);
        destruct (truthy_fields Homesite.beds homesites); reflexivity.
  - destruct (map_result_raise _ _ Hsite) as [-> (s & Hin & Hn)].
    split; [reflexivity|]. exists s. auto.
Qed.

(** ** C6: a community page without a price text *)

Lemma find_none {A : Type} (f : A -> bool) (l : list A) :
  Forall (fun a => f a = false) l -> find f l = None.
Proof.
  induction 1 as [|a l Ha _ IH]; simpl; [reflexivity|]. now rewrite Ha.
Qed.

Lemma range_values_raise (E : Env) (homesites : list Homesite.t)
      (homeplans : list HomePlan.t) (e : exn) :
  range_values E homesites homeplans = Raise e -> e = ValueError.
Proof.
  unfold range_values.
  destruct (map_result (py_float E) (truthy_fields Homesite.baths homesites))
    as [site_baths|e'] eqn:Hsite; cbn [bind].
  - destruct site_baths as [|b site_baths]; [|discriminate].
    destruct (map_result (py_float E) (truthy_fields plan_baths homeplans))
      as [plan_baths'|e'] eqn:Hplan; cbn [bind]; [discriminate|].
    intros H. injection H as <-. now destruct (map_result_raise _ _ Hplan).
  - intros H. injection H as <-. now destruct (map_result_raise _ _ Hsite).
Qed.

Lemma read_write_file (path : string) (f : file) (fs : FS) :
  read_file path (write_file path f fs) = Some f.
Proof.
  induction fs as [|[k g] fs IH]; simpl.
  - now rewrite str_eqb_refl.
  - destruct (str_eqb k path) eqn:Hk; simpl.
    + now rewrite str_eqb_refl.
    + now rewrite Hk.
Qed.

Lemma path_exists_write (p q : string) (f : file) (fs : FS) :
  path_exists p (write_file q f fs) = str_eqb q p || path_exists p fs.
Proof.
  induction fs as [|[k g] fs IH]; simpl.
  - reflexivity.
  - destruct (str_eqb_spec k q) as [->|Hk]; simpl.
    + now destruct (str_eqb q p).
    + rewrite IH. destruct (str_eqb k p), (str_eqb q p); reflexivity.
Qed.

Lemma read_file_write_other (p q : string) (f : file) (fs : FS) :
  q <> p -> read_file p (write_file q f fs) = read_file p fs.
Proof.
  intros Hqp. apply str_eqb_neq in Hqp.
  induction fs as [|[k g] fs IH]; simpl.
  - now rewrite Hqp.
  - destruct (str_eqb_spec k q) as [->|Hk]; simpl.
    + now rewrite Hqp.
    + now rewrite IH.
Qed.

Lemma html_is_not_json (n m : string) : html_file_of n <> output_file_of m.
Proof. unfold html_file_of, output_file_of. simpl. discriminate. Qed.

(** The record of a rendered page without a price text, and the exception
    that stopped the parse: the failed read of [price_from], unless the
    selection of range values raised first. *)
Lemma parse_without_price (E : Env) (url : string) (p : CommunityPage) (t : string) :
  soup_h1 p = Some t ->
  find_string (search_classes (plans_from_re E)) p = None ->
  exists data e,
    run_parse_community_data E url p = (data, Some e) /\
    keys data = unpriced_keys /\
    lookup "price_from" data = None /\
    match range_values E (parse_homesites E (soup_quick_move_ins p))
                       (parse_homeplans (soup_home_plans p)) with
    | Ok _ => e = KeyError "price_from"
    | Raise e' => e = e'
    end.
Proof.
  intros Hh1 Hfind.
  unfold run_parse_community_data, parse_community_body, initial_data.
  rewrite Hh1, Hfind.
  set (homeplans := parse_homeplans (soup_home_plans p)). clearbody homeplans.
  set (homesites := parse_homesites E (soup_quick_move_ins p)). clearbody homesites.
  set (address_info := parse_address (soup_sales_office p)). clearbody address_info.
  set (name := clean_text (Some t)). clearbody name.
  set (phone := match find_string (search_classes (phone_re E)) p with
                | Some _ => _
                | None => _
                end).
  clearbody phone.
  set (rv := range_values E homesites homeplans). clearbody rv.
  set (fp := first_truthy (fun plan => PlanDetails.image_url (HomePlan.details plan))
                          homeplans).
  clearbody fp.
  set (fh := first_truthy Homesite.image_url homesites). clearbody fh.
  set (desc := soup_description p). clearbody desc.
  set (car := soup_carousel p). clearbody car.
  destruct desc as [[[d|]|]|]; destruct car as [slides|];
    try (set (fs := first_truthy _ slides); clearbody fs; destruct fs);
    destruct fp; destruct fh; destruct rv as [rv|e];
    (eexists; eexists; split; [reflexivity|]; repeat split; reflexivity).
Qed.

(** C6, as the parser behaves: on a rendered page without a price text
    [price_from] is never set and the parse stops before [details] is
    set: at the read of [price_from], with a [KeyError], unless the
    selection of range values has raised a [ValueError] before it.  The
    handler swallows the exception, so the record has the keys up to
    [homesites] and none of [details], [amenities], [nearbyplaces] and
    [collections].  It is written to the output file when the snapshot
    and the output file can be opened; when one of them cannot, no
    output file is written. *)
Theorem community_without_price
        (E : Env) (fs : FS) (url : string) (p : CommunityPage) (community_name : string) :
  community_name_of url = Ok community_name ->
  path_exists (output_file_of community_name) fs = false ->
  soup_h1 p <> None ->
  Forall (fun s => search_classes (plans_from_re E) s = false) (soup_strings p) ->
  lookup "price_from" (parse_community_data E url p) = None /\
  keys (parse_community_data E url p) = unpriced_keys /\
  match range_values E (parse_homesites E (soup_quick_move_ins p))
                     (parse_homeplans (soup_home_plans p)) with
  | Ok _ => snd (run_parse_community_data E url p) = Some (KeyError "price_from")
  | Raise _ => snd (run_parse_community_data E url p) = Some ValueError
  end /\
  if can_open E (html_file_of community_name)
     && can_open E (output_file_of community_name)
  then read_file (output_file_of community_name) (process_community_url E fs url p)
       = Some (JsonFile (parse_community_data E url p))
  else path_exists (output_file_of community_name) (process_community_url E fs url p)
       = false.
Proof.
  intros Hname Hnew Hh1 Hno.
  destruct (soup_h1 p) as [t|] eqn:Ht; [clear Hh1 | congruence].
  assert (Hfind : find_string (search_classes (plans_from_re E)) p = None)
    by (apply find_none; exact Hno).
  destruct (parse_without_price E url p Ht Hfind) as (data & e & Hrun & Hkeys & Hpf & He).
  assert (Hdata : parse_community_data E url p = data)
    by (unfold parse_community_data; now rewrite Hrun).
  rewrite Hdata, Hrun. cbn [snd].
  split; [exact Hpf|]. split; [exact Hkeys|]. split.
  - destruct (range_values E (parse_homesites E (soup_quick_move_ins p))
                           (parse_homeplans (soup_home_plans p))) as [rv|e'] eqn:Hrv.
    + now rewrite He.
    + rewrite He. now rewrite (range_values_raise _ _ _ Hrv).
  - unfold process_community_url. rewrite Hname, Hnew, Ht, Hdata.
    destruct (can_open E (html_file_of community_name)); cbn [andb]; [|exact Hnew].
    destruct (can_open E (output_file_of community_name)).
    + apply read_write_file.
    + rewrite path_exists_write, Hnew.
      destruct (str_eqb_spec (html_file_of community_name)
                             (output_file_of community_name)) as [Heq|Hne];
        [now apply html_is_not_json in Heq | reflexivity].
Qed.

(** The page of the worked example: its record stops at [homesites], the
    read of [price_from] raised, and the record is on disk. *)
Lemma community_without_price_witness :
  keys (parse_community_data offline_env estrella_url (unpriced_page [jade_card]))
  = unpriced_keys /\
  snd (run_parse_community_data offline_env estrella_url (unpriced_page [jade_card]))
  = Some (KeyError "price_from") /\
  read_file (output_file_of "estrella-crossing-community")
            (process_community_url offline_env [] estrella_url (unpriced_page [jade_card]))
  = Some (JsonFile (parse_community_data offline_env estrella_url
                                         (unpriced_page [jade_card]))).
Proof.
  assert (Hname : community_name_of estrella_url = Ok "estrella-crossing-community")
    by reflexivity.
  assert (Hnew : path_exists (output_file_of "estrella-crossing-community") [] = false)
    by reflexivity.
  assert (Hh1 : soup_h1 (unpriced_page [jade_card]) <> None) by discriminate.
  assert (Hno : Forall (fun s => search_classes (plans_from_re offline_env) s = false)
                       (soup_strings (unpriced_page [jade_card])))
    by (repeat constructor).
  destruct (@community_without_price offline_env [] estrella_url
                                     (unpriced_page [jade_card])
                                     "estrella-crossing-community"
                                     Hname Hnew Hh1 Hno) as (_ & Hkeys & Herr & Hfile).
  split; [exact Hkeys|]. split; [exact Herr | exact Hfile].
Defined.

(** C6 as stated fails: on a page without a price text whose homesite
    spells its bath count out, the conversion of that count raises before
    [price_from] is read; the handler swallows a [ValueError], not the
    [KeyError] of the read.  And where the output file cannot be opened
    the record is not written. *)
Lemma price_from_read_not_reached :
  Forall (fun s => search_classes (plans_from_re offline_env) s = false)
         (soup_strings (unpriced_page [spelled_baths_card])) /\
  map Homesite.baths (parse_homesites offline_env (Some [spelled_baths_card]))
  = [Some "Two"] /\
  snd (run_parse_community_data offline_env estrella_url
                                (unpriced_page [spelled_baths_card]))
  = Some ValueError /\
  keys (parse_community_data offline_env estrella_url
                             (unpriced_page [spelled_baths_card]))
  = unpriced_keys /\
  path_exists (output_file_of "estrella-crossing-community")
              (process_community_url read_only_env [] estrella_url
                                     (unpriced_page [jade_card]))
  = false.
Proof. split; [repeat constructor | repeat split; reflexivity]. Qed.

(* ================================================================== *)
(** * Further properties of the program                                *)
(* ================================================================== *)
(** ** [extract_number_range] *)

Lemma comma_is_no_digit (E : Env) : is_digit E "," = false.
Proof. reflexivity. Qed.

Lemma span_digits_spec (E : Env) (s : string) :
  s = fst (span_digits E s) ++ snd (span_digits E s) /\
  str_forallb (is_digit E) (fst (span_digits E s)) = true /\
  match snd (span_digits E s) with
  | EmptyString => True
  | String c _ => is_digit E c = false
  end.
Proof.
  induction s as [|c s (IH1 & IH2 & IH3)]; simpl.
  - auto.
  - destruct (is_digit E c) eqn:Hc.
    + destruct (span_digits E s) as [run rest]. simpl in *.
      rewrite Hc. repeat split; auto. now rewrite <- IH1.
    + simpl. rewrite Hc. auto.
Qed.

(** The greedy run is the only split of [s] into digits and a rest that
    does not go on with one. *)
Lemma span_digits_unique (E : Env) (a b : string) :
  str_forallb (is_digit E) a = true ->
  match b with
  | EmptyString => True
  | String c _ => is_digit E c = false
  end ->
  span_digits E (a ++ b) = (a, b).
Proof.
  intros Ha Hb. induction a as [|c a IH]; simpl.
  - destruct b as [|c b]; [reflexivity|]. simpl. now rewrite Hb.
  - simpl in Ha. apply andb_true_iff in Ha as [Hc Ha].
    rewrite Hc, (IH Ha). reflexivity.
Qed.

(** Every run of digits at the head of [s] is within the greedy one. *)
Lemma span_digits_longest (E : Env) (a b : string) :
  str_forallb (is_digit E) a = true ->
  str_length a <= str_length (fst (span_digits E (a ++ b))).
Proof.
  intros Ha. induction a as [|c a IH]; simpl.
  - lia.
  - simpl in Ha. apply andb_true_iff in Ha as [Hc Ha].
    rewrite Hc. specialize (IH Ha).
    destruct (span_digits E (a ++ b)) as [run rest]. simpl in *. lia.
Qed.

Lemma match_number_at_none (E : Env) (s : string) :
  match_number_at E s = None <->
  match s with
  | EmptyString => True
  | String c _ => is_digit E c = false
  end.
Proof.
  unfold match_number_at. destruct s as [|c s]; [simpl; tauto|].
  cbn [span_digits]. destruct (is_digit E c) eqn:Hc.
  - destruct (span_digits E s) as [run rest].
    split; [|discriminate].
    destruct rest as [|k rest]; [discriminate|].
    destruct (char_eqb k ","); [|discriminate].
    destruct (span_digits E rest) as [[|m more] ?]; discriminate.
  - tauto.
Qed.

(** What an anchored match returns: a number token at the head of [s],
    the longest one there. *)
Lemma match_number_at_some (E : Env) (s tok : string) :
  match_number_at E s = Some tok ->
  exists post,
    s = tok ++ post /\ number_token E tok /\
    (forall t r, number_token E t -> s = t ++ r ->
                 str_length t <= str_length tok).
Proof.
  unfold match_number_at.
  destruct (span_digits_spec E s) as (Hs & Hall & Hrest).
  destruct (span_digits E s) as [digits rest] eqn:Hspan. simpl in Hs, Hall, Hrest.
  destruct digits as [|d digits]; [discriminate|].
  set (run := String d digits) in *.
  assert (Hplain : number_token E run).
  { exists run. repeat split; [discriminate | assumption | now left]. }
  (* what a token at the head of [s] looks like *)
  assert (Hhead : forall t r, number_token E t -> s = t ++ r ->
            str_length t <= str_length run \/
            exists m r', m <> "" /\ str_forallb (is_digit E) m = true /\
                         t = run ++ String "," m /\ rest = String "," (m ++ r')).
  { intros t r (d1 & Hne & Hd1 & [-> | (m1 & Hm1 & Hdm & ->)]) Heq.
    - left. pose proof (span_digits_longest E d1 r Hd1) as H.
      rewrite <- Heq, Hspan in H. exact H.
    - right. rewrite str_app_assoc in Heq.
      assert (Hu : span_digits E (d1 ++ String "," m1 ++ r)
                   = (d1, String "," m1 ++ r))
        by (apply span_digits_unique; [assumption | apply comma_is_no_digit]).
      change (String "," m1 ++ r) with (String "," (m1 ++ r)) in Heq, Hu.
      rewrite <- Heq, Hspan in Hu. injection Hu as Hu1 Hu2.
      exists m1, r. subst d1. auto. }
  destruct rest as [|k rest].
  - intros H. injection H as <-. exists "".
    split; [exact Hs|]. split; [exact Hplain|].
    intros t r Ht Heq. destruct (Hhead t r Ht Heq) as [Hle | (m & r' & _ & _ & _ & Hr)];
      [exact Hle | discriminate].
  - destruct (char_eqb_spec k ",") as [->|Hk].
    + destruct (span_digits_spec E rest) as (Hs' & Hall' & Hrest').
      destruct (span_digits E rest) as [more rest'] eqn:Hspan'.
      simpl in Hs', Hall', Hrest'.
      destruct more as [|m more].
      * intros H. injection H as <-. exists (String "," rest).
        split; [exact Hs|]. split; [exact Hplain|].
        intros t r Ht Heq.
        destruct (Hhead t r Ht Heq) as [Hle | (m & r' & Hm & Hdm & _ & Hr)];
          [exact Hle|].
        injection Hr as Hr. exfalso.
        pose proof (span_digits_longest E m r' Hdm) as H.
        rewrite <- Hr, Hspan' in H. simpl in H.
        destruct m; [congruence | simpl in H; lia].
      * intros H. injection H as <-. exists rest'.
        split; [|split].
        -- rewrite Hs, Hs'. unfold run. simpl. now rewrite str_app_assoc.
        -- exists run. repeat split; [discriminate | assumption|].
           right. exists (String m more). repeat split; [discriminate | assumption].
        -- intros t r Ht Heq.
           assert (Hlen : str_length (run ++ String "," (String m more))
                          = str_length run + S (S (str_length more)))
             by (rewrite str_length_app; reflexivity).
           change (str_length t <= str_length (run ++ String "," (String m more))).
           rewrite Hlen.
           destruct (Hhead t r Ht Heq) as [Hle | (m1 & r' & Hm & Hdm & -> & Hr)];
             [lia|].
           injection Hr as Hr.
           pose proof (span_digits_longest E m1 r' Hdm) as H.
           rewrite <- Hr, Hspan' in H. simpl in H.
           rewrite str_length_app. simpl. lia.
    + intros H. injection H as <-. exists (String k rest).
      split; [exact Hs|]. split; [exact Hplain|].
      intros t r Ht Heq.
      destruct (Hhead t r Ht Heq) as [Hle | (m & r' & _ & _ & _ & Hr)];
        [exact Hle | congruence].
Qed.

(** Skipping the characters of a match resumes the scan right after it. *)
Lemma findall_number_skip (E : Env) (a b : string) :
  findall_number_from E (str_length a) (a ++ b) = findall_number E b.
Proof.
  induction a as [|c a IH]; simpl.
  - destruct b; reflexivity.
  - exact IH.
Qed.

Lemma findall_number_nil (E : Env) (s : string) :
  findall_number E s = [] <-> no_digit_in E s.
Proof.
  unfold findall_number, no_digit_in. induction s as [|c s IH]; [simpl; tauto|].
  cbn [findall_number_from str_forallb].
  destruct (match_number_at E (String c s)) as [tok|] eqn:Hm.
  - split; [discriminate|]. intros H. apply andb_true_iff in H as [Hc _].
    apply negb_true_iff in Hc.
    assert (Hn : match_number_at E (String c s) = None)
      by (apply match_number_at_none; exact Hc).
    congruence.
  - apply match_number_at_none in Hm. rewrite Hm. simpl. exact IH.
Qed.

(** The first match of the scan: the leftmost number token of the text
    (no digit stands before it), the longest one at its place, and the
    scan goes on after it. *)
Lemma findall_number_cons (E : Env) (s n : string) (rest : list string) :
  findall_number E s = n :: rest ->
  exists pre post,
    s = pre ++ n ++ post /\ number_token E n /\ no_digit_in E pre /\
    (forall t r, number_token E t -> n ++ post = t ++ r ->
                 str_length t <= str_length n) /\
    findall_number E post = rest.
Proof.
  unfold findall_number. induction s as [|c s IH]; intros H; [discriminate|].
  cbn [findall_number_from] in H.
  destruct (match_number_at E (String c s)) as [tok|] eqn:Hm.
  - injection H as -> Hrest.
    destruct (match_number_at_some _ _ Hm) as (post & Heq & Htok & Hmax).
    exists "", post.
    split; [exact Heq|]. split; [exact Htok|]. split; [reflexivity|].
    split; [intros t r Ht Htr; apply (Hmax t r Ht); now rewrite Heq|].
    destruct n as [|c' n'].
    { destruct Htok as (d & Hne & _ & [Hd | (m & _ & _ & Hd)]);
        [congruence | destruct d; [congruence | discriminate]]. }
    simpl in Heq. injection Heq as -> ->.
    simpl in Hrest. rewrite Nat.sub_0_r in Hrest.
    now rewrite findall_number_skip in Hrest.
  - destruct (IH H) as (pre & post & Heq & Htok & Hpre & Hmax & Hrest).
    exists (String c pre), post. split; [simpl; now rewrite Heq|].
    split; [exact Htok|]. split; [|now split].
    apply match_number_at_none in Hm.
    unfold no_digit_in in *. simpl. now rewrite Hm.
Qed.

Lemma last_default (A : Type) (x : A) (l : list A) (d d' : A) :
  last (x :: l) d = last (x :: l) d'.
Proof.
  revert x. induction l as [|y l IH]; intros x; [reflexivity|].
  change (last (y :: l) d = last (y :: l) d'). apply IH.
Qed.

(** [extract_number_range] is absent exactly when the text has no digit.
    Its matches are the number tokens of the text from left to right:
    each is the leftmost token of what is left of the text, with no digit
    before it, and the longest at its place, and the scan goes on after
    it.  One match is returned as it is; of two or more the first and the
    last are returned in the order of the text, not sorted. *)
Theorem extract_number_range_spec (E : Env) (text : string) :
  (extract_number_range E (Some text) = None <-> no_digit_in E text) /\
  (forall s n rest, findall_number E s = n :: rest ->
     exists pre post,
       s = pre ++ n ++ post /\ number_token E n /\ no_digit_in E pre /\
       (forall t r, number_token E t -> n ++ post = t ++ r ->
                    str_length t <= str_length n) /\
       findall_number E post = rest) /\
  (forall s, findall_number E s = [] <-> no_digit_in E s) /\
  (forall n, findall_number E text = [n] ->
             extract_number_range E (Some text) = Some n) /\
  (forall n m rest,
      findall_number E text = n :: m :: rest ->
      extract_number_range E (Some text) = Some (n ++ " - " ++ last (m :: rest) "")) /\
  extract_number_range E None = None /\
  extract_number_range E (Some "5 3 4") = Some "5 - 4" /\
  extract_number_range E (Some "1800") = Some "1800".
Proof.
  split; [|split; [|split; [|split; [|split; [|repeat split]]]]].
  - unfold extract_number_range. destruct (truthy text) eqn:Ht.
    + rewrite <- findall_number_nil.
      destruct (findall_number E text) as [|n [|m rest]]; split; intros H;
        try reflexivity; discriminate.
    + apply truthy_false in Ht. subst text. split; reflexivity.
  - intros s n rest. apply findall_number_cons.
  - intros s. apply findall_number_nil.
  - intros n Hn. unfold extract_number_range. destruct (truthy text) eqn:Ht.
    + now rewrite Hn.
    + apply truthy_false in Ht. subst text. discriminate.
  - intros n m rest Hn. unfold extract_number_range.
    destruct (truthy text) eqn:Ht.
    + rewrite Hn. now rewrite (last_default m rest n "").
    + apply truthy_false in Ht. subst text. discriminate.
Qed.

(** A text with an area and a price: the comma joins digit groups, and a
    comma that no digit follows does not. *)
Lemma extract_number_range_example (E : Env) :
  findall_number E "2,345 sq. ft., 4 beds, from 450,000" = ["2,345"; "4"; "450,000"] /\
  extract_number_range E (Some "2,345 sq. ft., 4 beds, from 450,000")
  = Some "2,345 - 450,000".
Proof. split; reflexivity. Qed.
(** ** [clean_text] composed with itself *)

(** Cleaning a text that is already clean changes nothing: [clean_text]
    is idempotent on its non-empty results. *)
Theorem clean_text_idempotent (s r : string) :
  clean_text (Some s) = Some r -> r <> "" -> clean_text (Some r) = Some r.
Proof.
  unfold clean_text. destruct (truthy s); [|discriminate].
  rewrite split_ws_strip. intros H Hne. injection H as <-.
  apply truthy_true in Hne. rewrite Hne, split_ws_strip.
  destruct (join_words (split_ws_words s)) as (Hsplit & _).
  now rewrite Hsplit.
Qed.

Lemma clean_text_idempotent_witness :
  clean_text (Some "Estrella Crossing") = Some "Estrella Crossing".
Proof.
  apply (@clean_text_idempotent "  Estrella   Crossing " "Estrella Crossing");
    [reflexivity | discriminate].
Defined.

(** ** The output files *)

Lemma split_on_forall (P : char -> bool) (sep : char) (s : string) :
  str_forallb P s = true ->
  Forall (fun w => str_forallb P w = true) (split_on sep s).
Proof.
  induction s as [|c s IH]; simpl; intros H.
  - repeat constructor.
  - apply andb_true_iff in H as [Hc H]. specialize (IH H).
    destruct (char_eqb c sep); [constructor; [reflexivity | assumption]|].
    destruct (split_on sep s) as [|w ws]; simpl.
    + repeat constructor. simpl. now rewrite Hc.
    + inversion IH; subst. constructor; [|assumption]. simpl. now rewrite Hc.
Qed.

Lemma split_on_no_sep_pieces (sep : char) (s : string) :
  Forall (fun w => str_forallb (fun c => negb (char_eqb c sep)) w = true)
         (split_on sep s).
Proof.
  induction s as [|c s IH]; simpl.
  - repeat constructor.
  - destruct (char_eqb c sep) eqn:Hc; [constructor; [reflexivity | assumption]|].
    destruct (split_on sep s) as [|w ws]; simpl.
    + repeat constructor. simpl. now rewrite Hc.
    + inversion IH; subst. constructor; [|assumption]. simpl. now rewrite Hc.
Qed.

Lemma last_item_in (l : list string) (x : string) :
  last_item l = Some x -> In x l.
Proof.
  destruct l as [|a l]; [discriminate|]. unfold last_item. intros H.
  injection H as <-. revert a. induction l as [|b l IH]; intros a.
  - now left.
  - right. apply IH.
Qed.

Lemma item_before_last_in (l : list string) (x : string) :
  item_before_last l = Ok x -> In x l.
Proof.
  unfold item_before_last. intros H. apply in_rev.
  destruct (rev l) as [|a [|b r]]; try discriminate.
  injection H as <-. right. now left.
Qed.

Lemma item_in {A : Type} (l : list A) (i : nat) (x : A) :
  item l i = Ok x -> In x l.
Proof.
  unfold item. destruct (nth_error l i) eqn:H; [|discriminate].
  intros Heq. injection Heq as <-. exact (nth_error_In _ _ H).
Qed.

(** The file-name slug of a community URL holds no slash and no question
    mark, so the two output files land in their directories under a name
    without a query string. *)
Theorem community_name_is_slug (url name : string) :
  community_name_of url = Ok name ->
  str_forallb (fun c => negb (char_eqb c "/")) name = true /\
  str_forallb (fun c => negb (char_eqb c "?")) name = true.
Proof.
  unfold community_name_of. intros H.
  assert (Hseg : exists seg, In seg (split_on "/" url) /\
                             item (split_on "?" seg) 0 = Ok name).
  { destruct (last_item (split_on "/" url)) as [l|] eqn:Hl; [|discriminate].
    destruct (prefix "#" l).
    - destruct (item_before_last (split_on "/" url)) as [x|e] eqn:Hx;
        [|discriminate].
      exists x. split; [now apply item_before_last_in | exact H].
    - exists l. split; [now apply last_item_in | exact H]. }
  destruct Hseg as (seg & Hin & Hitem).
  pose proof (split_on_no_sep_pieces "/" url) as Hslash.
  rewrite Forall_forall in Hslash. specialize (Hslash seg Hin).
  pose proof (split_on_forall _ "?" seg Hslash) as Hpieces.
  pose proof (split_on_no_sep_pieces "?" seg) as Hquery.
  rewrite Forall_forall in Hpieces, Hquery.
  apply item_in in Hitem. auto.
Qed.

Lemma community_name_is_slug_witness :
  str_forallb (fun c => negb (char_eqb c "/")) "estrella-crossing-community" = true /\
  str_forallb (fun c => negb (char_eqb c "?")) "estrella-crossing-community" = true.
Proof.
  apply (@community_name_is_slug default_url "estrella-crossing-community").
  reflexivity.
Defined.

Lemma append_inv_head (p a b : string) : p ++ a = p ++ b -> a = b.
Proof.
  induction p as [|c p IH]; simpl; intros H; [exact H|].
  apply IH. congruence.
Qed.

Lemma length_append (a b : string) :
  str_length (a ++ b) = str_length a + str_length b.
Proof. induction a as [|c a IH]; simpl; [reflexivity | now rewrite IH]. Qed.

Lemma append_inv_tail (a b s : string) : a ++ s = b ++ s -> a = b.
Proof.
  revert b. induction a as [|c a IH]; intros b H.
  - destruct b as [|d b]; [reflexivity|]. exfalso.
    apply (f_equal str_length) in H. simpl in H. rewrite length_append in H. lia.
  - destruct b as [|d b].
    + exfalso. apply (f_equal str_length) in H. simpl in H.
      rewrite length_append in H. lia.
    + simpl in H. assert (Hc : c = d) by congruence. subst d.
      f_equal. apply IH. congruence.
Qed.

Lemma output_file_of_inj (n m : string) :
  output_file_of n = output_file_of m -> n = m.
Proof.
  unfold output_file_of. intros H.
  apply append_inv_head in H. now apply append_inv_tail in H.
Qed.

Lemma html_file_of_inj (n m : string) :
  html_file_of n = html_file_of m -> n = m.
Proof.
  unfold html_file_of. intros H.
  apply append_inv_head in H. now apply append_inv_tail in H.
Qed.

(** Writing what a file already holds, writing it twice, and writing two
    files in either order. *)
Lemma write_file_same (path : string) (f : file) (fs : FS) :
  read_file path fs = Some f -> write_file path f fs = fs.
Proof.
  induction fs as [|[k g] fs IH]; simpl; [discriminate|].
  destruct (str_eqb_spec k path) as [->|Hk]; intros H.
  - now injection H as ->.
  - now rewrite IH.
Qed.

Lemma write_file_twice (path : string) (f g : file) (fs : FS) :
  write_file path f (write_file path g fs) = write_file path f fs.
Proof.
  induction fs as [|[k h] fs IH]; simpl.
  - now rewrite str_eqb_refl.
  - destruct (str_eqb k path) eqn:Hk; simpl.
    + now rewrite str_eqb_refl.
    + now rewrite Hk, IH.
Qed.

Lemma write_file_comm (p q : string) (f g : file) (fs : FS) :
  p <> q ->
  path_exists p fs = true ->
  write_file q g (write_file p f fs) = write_file p f (write_file q g fs).
Proof.
  intros Hpq. induction fs as [|[k h] fs IH]; simpl; intros Hex; [discriminate|].
  destruct (str_eqb_spec k p) as [->|Hkp].
  - pose proof (proj2 (str_eqb_neq p q) Hpq) as Hne.
    simpl. rewrite Hne. simpl. now rewrite str_eqb_refl.
  - simpl in Hex.
    destruct (str_eqb_spec k q) as [->|Hkq]; simpl.
    + rewrite str_eqb_refl.
      pose proof (proj2 (str_eqb_neq q p) Hkp) as Hne. now rewrite Hne.
    + pose proof (proj2 (str_eqb_neq k p) Hkp) as Hne1.
      pose proof (proj2 (str_eqb_neq k q) Hkq) as Hne2.
      rewrite Hne1, Hne2. now rewrite IH.
Qed.

(** The three ways a call of [process_community_url] ends: nothing is
    written, only the snapshot is, or the snapshot and the record are. *)
Lemma process_community_url_cases (E : Env) (fs : FS) (url : string) (p : CommunityPage) :
  (skipped E fs url p /\ process_community_url E fs url p = fs) \/
  (exists name,
      community_name_of url = Ok name /\
      path_exists (output_file_of name) fs = false /\
      soup_h1 p <> None /\
      can_open E (html_file_of name) = true /\
      ((can_open E (output_file_of name) = false /\
        process_community_url E fs url p
        = write_file (html_file_of name) (HtmlFile p) fs) \/
       (can_open E (output_file_of name) = true /\
        process_community_url E fs url p
        = write_file (output_file_of name) (JsonFile (parse_community_data E url p))
                     (write_file (html_file_of name) (HtmlFile p) fs)))).
Proof.
  unfold process_community_url, skipped.
  destruct (community_name_of url) as [name|e] eqn:Hn.
  - destruct (path_exists (output_file_of name) fs) eqn:Hex.
    + left. split; [|reflexivity]. right. exists name. auto.
    + destruct (soup_h1 p) as [t|] eqn:Ht.
      * destruct (can_open E (html_file_of name)) eqn:Hhtml.
        -- right. exists name.
           split; [reflexivity|]. split; [assumption|]. split; [discriminate|].
           split; [assumption|].
           destruct (can_open E (output_file_of name)); [right | left]; auto.
        -- left. split; [|reflexivity]. right. exists name. auto.
      * left. split; [|reflexivity]. right. exists name. auto.
  - left. split; [|reflexivity]. left. now exists e.
Qed.

Lemma skipped_no_op (E : Env) (fs : FS) (url : string) (p : CommunityPage) :
  skipped E fs url p -> process_community_url E fs url p = fs.
Proof.
  unfold process_community_url.
  intros [[e He] | (name & Hn & [Hex | [Hh1 | Hopen]])].
  - now rewrite He.
  - now rewrite Hn, Hex.
  - rewrite Hn, Hh1. now destruct (path_exists (output_file_of name) fs).
  - rewrite Hn, Hopen. destruct (path_exists (output_file_of name) fs); [reflexivity|].
    now destruct (soup_h1 p).
Qed.

Lemma process_snapshot_only (E : Env) (fs : FS) (url name : string) (p : CommunityPage) :
  community_name_of url = Ok name ->
  path_exists (output_file_of name) fs = false ->
  soup_h1 p <> None ->
  can_open E (html_file_of name) = true ->
  can_open E (output_file_of name) = false ->
  process_community_url E fs url p = write_file (html_file_of name) (HtmlFile p) fs.
Proof.
  unfold process_community_url. intros -> -> Hh1 -> ->.
  now destruct (soup_h1 p).
Qed.

Lemma process_both_files (E : Env) (fs : FS) (url name : string) (p : CommunityPage) :
  community_name_of url = Ok name ->
  path_exists (output_file_of name) fs = false ->
  soup_h1 p <> None ->
  can_open E (html_file_of name) = true ->
  can_open E (output_file_of name) = true ->
  process_community_url E fs url p
  = write_file (output_file_of name) (JsonFile (parse_community_data E url p))
               (write_file (html_file_of name) (HtmlFile p) fs).
Proof.
  unfold process_community_url. intros -> -> Hh1 -> ->.
  now destruct (soup_h1 p).
Qed.

Lemma process_keeps_paths (E : Env) (fs : FS) (url path : string) (p : CommunityPage) :
  path_exists path fs = true ->
  path_exists path (process_community_url E fs url p) = true.
Proof.
  intros Hex.
  destruct (process_community_url_cases E fs url p)
    as [[_ ->] | (name & _ & _ & _ & _ & [[_ ->] | [_ ->]])]; [assumption | |];
    rewrite !path_exists_write, Hex; now rewrite !orb_true_r.
Qed.

Lemma process_keeps_record (E : Env) (fs : FS) (url name : string) (p : CommunityPage) :
  path_exists (output_file_of name) fs = true ->
  read_file (output_file_of name) (process_community_url E fs url p)
  = read_file (output_file_of name) fs.
Proof.
  intros Hex.
  destruct (process_community_url_cases E fs url p)
    as [[_ ->] | (name' & _ & Hnew & _ & _ & [[_ ->] | [_ ->]])]; [reflexivity | |].
  - apply read_file_write_other, html_is_not_json.
  - rewrite read_file_write_other.
    + apply read_file_write_other, html_is_not_json.
    + intros Heq. rewrite Heq in Hnew. congruence.
Qed.

Lemma process_urls_keeps_paths
      (browser : string -> CommunityPage) (E : Env) (urls : list string)
      (fs : FS) (path : string) :
  path_exists path fs = true ->
  path_exists path (process_urls browser E fs urls) = true.
Proof.
  unfold process_urls. revert fs. induction urls as [|u urls IH]; intros fs H; simpl.
  - exact H.
  - apply IH. now apply process_keeps_paths.
Qed.

Lemma process_urls_keeps_record
      (browser : string -> CommunityPage) (E : Env) (urls : list string)
      (fs : FS) (name : string) :
  path_exists (output_file_of name) fs = true ->
  path_exists (output_file_of name) (process_urls browser E fs urls) = true /\
  read_file (output_file_of name) (process_urls browser E fs urls)
  = read_file (output_file_of name) fs.
Proof.
  unfold process_urls. revert fs. induction urls as [|u urls IH]; intros fs Hex; simpl.
  - auto.
  - destruct (IH (process_community_url E fs u (browser u))
                 (@process_keeps_paths E fs u _ (browser u) Hex)) as [IH1 IH2].
    split; [exact IH1|]. rewrite IH2. now apply process_keeps_record.
Qed.

(** A run of [main] never changes a community record that is already on
    disk, whichever mode it runs in and whatever the pages show. *)
Theorem main_keeps_existing_records
        (browser : string -> CommunityPage) (E : Env) (driver_started : bool)
        (args : Args) (links : LinksFile) (fs : FS) (name : string) :
  path_exists (output_file_of name) fs = true ->
  read_file (output_file_of name) (main browser E driver_started args links fs)
  = read_file (output_file_of name) fs.
Proof.
  intros Hex. unfold main.
  destruct driver_started; [|reflexivity].
  destruct (arg_url args) as [url|]; simpl.
  - destruct (truthy url); [now apply process_keeps_record|].
    destruct (arg_batch args); [|now apply process_keeps_record].
    destruct links as [| |urls]; try reflexivity.
    now apply process_urls_keeps_record.
  - destruct (arg_batch args); [|now apply process_keeps_record].
    destruct links as [| |urls]; try reflexivity.
    now apply process_urls_keeps_record.
Qed.

(** The default run writes the record of its community beside a stored
    one and leaves the stored one as it was. *)
Lemma main_keeps_existing_records_witness :
  read_file (output_file_of "laveen-meadows")
            (main estrella_browser offline_env true no_args LinksMissing stored_record_fs)
  = Some (JsonFile [("builder", VText (Some "Ashton Woods"))]) /\
  path_exists (output_file_of "estrella-crossing-community")
              (main estrella_browser offline_env true no_args LinksMissing stored_record_fs)
  = true.
Proof.
  split; [|reflexivity].
  rewrite (@main_keeps_existing_records estrella_browser offline_env true no_args
             LinksMissing stored_record_fs "laveen-meadows" eq_refl).
  reflexivity.
Defined.

(** *** A second run *)

Lemma path_exists_false_before
      (browser : string -> CommunityPage) (E : Env) (urls : list string)
      (fs : FS) (path : string) :
  path_exists path (process_urls browser E fs urls) = false ->
  path_exists path fs = false.
Proof.
  intros H. destruct (path_exists path fs) eqn:Hex; [|reflexivity].
  now rewrite (@process_urls_keeps_paths browser E urls fs path Hex) in H.
Qed.

Lemma process_urls_cons
      (browser : string -> CommunityPage) (E : Env) (u : string)
      (urls : list string) (fs : FS) :
  process_urls browser E fs (u :: urls)
  = process_urls browser E (process_community_url E fs u (browser u)) urls.
Proof. reflexivity. Qed.

(** A call for another community touches neither file of [name]. *)
Lemma other_call_is_no_snapshot_call
      (browser : string -> CommunityPage) (E : Env) (name m url : string) :
  community_name_of url = Ok m -> m <> name ->
  snapshot_call browser E name url = false.
Proof.
  intros Hm Hne. unfold snapshot_call. rewrite Hm.
  now rewrite (proj2 (str_eqb_neq m name) Hne).
Qed.

Lemma skipped_is_no_snapshot_call
      (browser : string -> CommunityPage) (E : Env) (name url : string) (fs : FS) :
  path_exists (output_file_of name) fs = false ->
  skipped E fs url (browser url) ->
  snapshot_call browser E name url = false.
Proof.
  intros Habs Hs. unfold snapshot_call.
  destruct Hs as [[e He] | (m & Hm & Hwhy)]; [now rewrite He|].
  rewrite Hm. destruct (str_eqb_spec m name) as [->|Hne]; [|reflexivity].
  destruct Hwhy as [Hex | [Hh1 | Hopen]].
  - congruence.
  - now rewrite Hh1.
  - rewrite Hopen. now rewrite andb_false_r.
Qed.

Lemma writing_is_snapshot_call
      (browser : string -> CommunityPage) (E : Env) (name url : string) :
  community_name_of url = Ok name ->
  soup_h1 (browser url) <> None ->
  can_open E (html_file_of name) = true ->
  snapshot_call browser E name url = true.
Proof.
  intros Hn Hh1 Hopen. unfold snapshot_call.
  rewrite Hn, str_eqb_refl, Hopen.
  now destruct (soup_h1 (browser url)).
Qed.

Lemma skipped_after_write (E : Env) (fs : FS) (url path : string)
      (f : file) (p : CommunityPage) :
  skipped E fs url p -> skipped E (write_file path f fs) url p.
Proof.
  intros [He | (m & Hm & [Hex | Hwhy])]; [now left | |].
  - right. exists m. split; [assumption|]. left.
    rewrite path_exists_write, Hex. now rewrite orb_true_r.
  - right. exists m. auto.
Qed.

(** While the record of [name] can be neither found nor opened, the
    snapshot of [name] is all that a call for [name] writes; a snapshot
    put there beforehand is overwritten by the next such call and kept
    otherwise. *)
Lemma process_urls_absorb
      (browser : string -> CommunityPage) (E : Env) (name : string) (f : file)
      (urls : list string) (fs : FS) :
  can_open E (output_file_of name) = false ->
  path_exists (output_file_of name) fs = false ->
  path_exists (html_file_of name) fs = true ->
  process_urls browser E (write_file (html_file_of name) f fs) urls
  = if existsb (snapshot_call browser E name) urls
    then process_urls browser E fs urls
    else write_file (html_file_of name) f (process_urls browser E fs urls).
Proof.
  intros Hopen. revert fs.
  induction urls as [|u urls IH]; intros fs Habs Hhtml; [reflexivity|].
  rewrite !process_urls_cons. cbn [existsb].
  assert (Habs' : path_exists (output_file_of name)
                              (write_file (html_file_of name) f fs) = false).
  { rewrite path_exists_write, Habs.
    now rewrite (proj2 (str_eqb_neq _ _) (@html_is_not_json name name)). }
  destruct (process_community_url_cases E fs u (browser u))
    as [[Hs Hfs] | (m & Hm & Hnew & Hh1 & Hopen' & Hwrite)].
  - rewrite Hfs, (@skipped_no_op E _ u (browser u) (@skipped_after_write E fs u (html_file_of name) f (browser u) Hs)).
    rewrite (@skipped_is_no_snapshot_call browser E name u fs Habs Hs). simpl.
    now apply IH.
  - destruct (str_eqb_spec m name) as [->|Hne].
    + destruct Hwrite as [[_ Hfs] | [Hcan _]]; [|congruence].
      rewrite Hfs, (@writing_is_snapshot_call browser E name u Hm Hh1 Hopen'). simpl.
      rewrite (@process_snapshot_only E _ u name (browser u) Hm Habs' Hh1 Hopen' Hopen).
      now rewrite write_file_twice.
    + rewrite (@other_call_is_no_snapshot_call browser E name m u Hm Hne). simpl.
      assert (Hnew' : path_exists (output_file_of m)
                                  (write_file (html_file_of name) f fs) = false).
      { rewrite path_exists_write, Hnew.
        now rewrite (proj2 (str_eqb_neq _ _) (@html_is_not_json name m)). }
      assert (Hhh : html_file_of name <> html_file_of m)
        by (intros Heq; apply html_file_of_inj in Heq; congruence).
      assert (Hjj : output_file_of m <> output_file_of name)
        by (intros Heq; apply output_file_of_inj in Heq; congruence).
      destruct Hwrite as [[Hcan Hfs] | [Hcan Hfs]]; rewrite Hfs.
      * rewrite (@process_snapshot_only E _ u m (browser u) Hm Hnew' Hh1 Hopen' Hcan).
        rewrite (@write_file_comm (html_file_of name) (html_file_of m) _ _ _ Hhh Hhtml).
        apply IH.
        -- rewrite path_exists_write, Habs.
           now rewrite (proj2 (str_eqb_neq _ _) (@html_is_not_json m name)).
        -- rewrite path_exists_write, Hhtml. now rewrite orb_true_r.
      * rewrite (@process_both_files E _ u m (browser u) Hm Hnew' Hh1 Hopen' Hcan).
        rewrite (@write_file_comm (html_file_of name) (html_file_of m) _ _ _ Hhh Hhtml).
        rewrite (@write_file_comm (html_file_of name) (output_file_of m)).
        -- apply IH.
           ++ rewrite !path_exists_write, Habs.
              rewrite (proj2 (str_eqb_neq _ _) (@html_is_not_json m name)).
              now rewrite (proj2 (str_eqb_neq _ _) Hjj).
           ++ rewrite !path_exists_write, Hhtml. now rewrite !orb_true_r.
        -- apply html_is_not_json.
        -- rewrite path_exists_write, Hhtml. now rewrite orb_true_r.
Qed.

(** With no such call among [urls] the snapshot of [name] stays what it
    was. *)
Lemma process_urls_keeps_snapshot
      (browser : string -> CommunityPage) (E : Env) (name : string)
      (urls : list string) (fs : FS) :
  path_exists (output_file_of name) (process_urls browser E fs urls) = false ->
  existsb (snapshot_call browser E name) urls = false ->
  read_file (html_file_of name) (process_urls browser E fs urls)
  = read_file (html_file_of name) fs.
Proof.
  revert fs. induction urls as [|u urls IH]; intros fs Habs Hnone; [reflexivity|].
  rewrite process_urls_cons in *. cbn [existsb] in Hnone.
  apply orb_false_iff in Hnone as [Hu Hnone].
  rewrite (IH _ Habs Hnone).
  destruct (process_community_url_cases E fs u (browser u))
    as [[_ ->] | (m & Hm & _ & Hh1 & Hopen & Hwrite)]; [reflexivity|].
  assert (Hne : m <> name).
  { intros ->. now rewrite (@writing_is_snapshot_call browser E name u Hm Hh1 Hopen) in Hu. }
  assert (Hhh : html_file_of m <> html_file_of name)
    by (intros Heq; apply html_file_of_inj in Heq; congruence).
  destruct Hwrite as [[_ ->] | [_ ->]].
  - now apply read_file_write_other.
  - rewrite read_file_write_other; [now apply read_file_write_other|].
    intros Heq. symmetry in Heq. now apply html_is_not_json in Heq.
Qed.

Lemma process_urls_idempotent
      (browser : string -> CommunityPage) (E : Env) (urls : list string) (fs : FS) :
  process_urls browser E (process_urls browser E fs urls) urls
  = process_urls browser E fs urls.
Proof.
  revert fs. induction urls as [|u urls IH]; intros fs; [reflexivity|].
  rewrite (process_urls_cons browser E u urls fs).
  set (first := process_community_url E fs u (browser u)).
  set (done := process_urls browser E first urls).
  rewrite process_urls_cons.
  assert (Hdone : process_urls browser E done urls = done) by apply IH.
  destruct (process_community_url_cases E done u (browser u))
    as [[_ ->] | (name & Hn & Habs & Hh1 & Hopen & Hwrite)]; [exact Hdone|].
  pose proof (@path_exists_false_before browser E urls first _ Habs) as Hfirst.
  assert (Hfs : path_exists (output_file_of name) fs = false).
  { destruct (path_exists (output_file_of name) fs) eqn:Hex; [|reflexivity].
    unfold first in Hfirst.
    now rewrite (@process_keeps_paths E fs u _ (browser u) Hex) in Hfirst. }
  destruct (can_open E (output_file_of name)) eqn:Hcan.
  - exfalso. unfold first in Hfirst.
    rewrite (@process_both_files E fs u name (browser u) Hn Hfs Hh1 Hopen Hcan) in Hfirst.
    rewrite path_exists_write, str_eqb_refl in Hfirst. discriminate.
  - assert (Hwas : first = write_file (html_file_of name) (HtmlFile (browser u)) fs)
      by (apply process_snapshot_only; assumption).
    assert (Hhtml : path_exists (html_file_of name) done = true).
    { apply process_urls_keeps_paths. rewrite Hwas.
      now rewrite path_exists_write, str_eqb_refl. }
    rewrite (@process_snapshot_only E done u name (browser u) Hn Habs Hh1 Hopen Hcan).
    rewrite (@process_urls_absorb browser E name (HtmlFile (browser u)) urls done Hcan Habs Hhtml).
    destruct (existsb (snapshot_call browser E name) urls) eqn:Hlater;
      [exact Hdone|].
    rewrite Hdone. apply write_file_same.
    unfold done. rewrite (@process_urls_keeps_snapshot browser E name urls first Habs Hlater).
    rewrite Hwas. apply read_write_file.
Qed.

(** Running [main] a second time, with the same arguments and the same
    pages, leaves the files exactly as the first run left them. *)
Theorem main_idempotent
        (browser : string -> CommunityPage) (E : Env) (driver_started : bool)
        (args : Args) (links : LinksFile) (fs : FS) :
  main browser E driver_started args links
       (main browser E driver_started args links fs)
  = main browser E driver_started args links fs.
Proof.
  assert (Hone : forall url,
             process_community_url E (process_community_url E fs url (browser url))
                                   url (browser url)
             = process_community_url E fs url (browser url))
    by (intros url; exact (process_urls_idempotent browser E [url] fs)).
  unfold main. destruct driver_started; [|reflexivity].
  destruct (truthy_opt (arg_url args)).
  - destruct (arg_url args) as [url|]; [apply Hone | reflexivity].
  - destruct (arg_batch args); [|apply Hone].
    destruct links as [| |urls]; try reflexivity.
    apply process_urls_idempotent.
Qed.
(** ** The community record, step by step *)

Lemma parse_community_body_steps (E : Env) (p : CommunityPage) :
  parse_community_body E p =
  (lift (match soup_h1 p with
         | Some _ => Ok tt
         | None => Raise TimeoutException
         end) ;;;
   set_item "name" (VText (match soup_h1 p with
                           | Some t => clean_text (Some t)
                           | None => None
                           end)) ;;;
   price_step E p ;;;
   set_item "address" (VText (Some (full_address (parse_address (soup_sales_office p))))) ;;;
   set_item "location"
            (VLocation (community_location (parse_address (soup_sales_office p)))) ;;;
   set_item "phone" (VText (phone_of E p)) ;;;
   set_item "description" (VText None) ;;;
   description_step p ;;;
   set_item "images" (VStrings []) ;;;
   carousel_step p ;;;
   set_item "homeplans" (VHomeplans (parse_homeplans (soup_home_plans p))) ;;;
   set_item "homesites" (VHomesites (parse_homesites E (soup_quick_move_ins p))) ;;;
   closing_steps E p (parse_homeplans (soup_home_plans p))
                 (parse_homesites E (soup_quick_move_ins p))).
Proof. reflexivity. Qed.

Lemma lookup_assign (k k' : string) (v : value) (d : Data) :
  lookup k (assign k' v d) = if str_eqb k' k then Some v else lookup k d.
Proof.
  induction d as [|[k0 v0] d IH]; simpl.
  - destruct (str_eqb k' k); reflexivity.
  - destruct (str_eqb_spec k0 k') as [->|Hk0]; simpl.
    + destruct (str_eqb k' k); reflexivity.
    + destruct (str_eqb_spec k0 k) as [->|Hk].
      * apply str_eqb_neq in Hk0. rewrite str_eqb_sym in Hk0.
        now rewrite Hk0.
      * exact IH.
Qed.

Lemma assign_assign (k : string) (v1 v2 : value) (d : Data) :
  assign k v2 (assign k v1 d) = assign k v2 d.
Proof.
  induction d as [|[k0 v0] d IH]; simpl.
  - now rewrite str_eqb_refl.
  - destruct (str_eqb k0 k) eqn:Hk; simpl.
    + now rewrite str_eqb_refl.
    + now rewrite Hk, IH.
Qed.

Lemma assign_same (k : string) (v : value) (d : Data) :
  lookup k d = Some v -> assign k v d = d.
Proof.
  induction d as [|[k0 v0] d IH]; simpl; [discriminate|].
  destruct (str_eqb_spec k0 k) as [->|Hk].
  - intros H. now injection H as ->.
  - intros H. now rewrite (IH H).
Qed.

Lemma mbind_ok {A B : Type} (m : M A) (k : A -> M B) (d d' : Data) (a : A) :
  m d = (d', Ok a) -> mbind m k d = k a d'.
Proof. unfold mbind. now intros ->. Qed.

Lemma mbind_assoc {A B C : Type} (m : M A) (f : A -> M B) (g : B -> M C) (d : Data) :
  mbind (mbind m f) g d = mbind m (fun a => mbind (f a) g) d.
Proof. unfold mbind. destruct (m d) as [d' [a|e]]; reflexivity. Qed.

Lemma price_step_run (E : Env) (p : CommunityPage) (d : Data) :
  price_step E p d =
  (match price_from_of E p with
   | Some v => assign "price_from" v d
   | None => d
   end, Ok tt).
Proof.
  unfold price_step, price_from_of.
  destruct (find_string (search_classes (plans_from_re E)) p) as [pt|]; [|reflexivity].
  destruct (truthy pt); reflexivity.
Qed.

Lemma description_step_run (p : CommunityPage) (d : Data) :
  description_step p (assign "description" (VText None) d) =
  (assign "description" (VText (description_of p)) d, Ok tt).
Proof.
  unfold description_step, description_of.
  destruct (soup_description p) as [[[first_p|]|]|]; try reflexivity.
  unfold set_item. now rewrite assign_assign.
Qed.

Lemma carousel_step_run (p : CommunityPage) (d : Data) :
  carousel_step p (assign "images" (VStrings []) d) =
  (assign "images" (VStrings (carousel_images p)) d, Ok tt).
Proof.
  unfold carousel_step, carousel_images.
  destruct (soup_carousel p) as [slides|]; [|reflexivity].
  destruct (first_truthy (fun slide => slide) slides); [|reflexivity].
  unfold set_item. now rewrite assign_assign.
Qed.

Lemma fallback_step_run (homeplans : list HomePlan.t) (homesites : list Homesite.t)
      (d : Data) (imgs : list string) :
  lookup "images" d = Some (VStrings imgs) ->
  fallback_step homeplans homesites d =
  (assign "images"
          (VStrings (first_nonempty imgs
                       (first_nonempty (plan_images homeplans)
                                       (homesite_images homesites)))) d,
   Ok tt).
Proof.
  intros Hl. unfold fallback_step, mbind, get_item. rewrite Hl.
  cbn [as_strings]. unfold plan_images, homesite_images.
  destruct imgs as [|img imgs]; cbn [first_nonempty].
  - destruct (first_truthy _ homeplans); [reflexivity|].
    destruct (first_truthy _ homesites); [reflexivity|].
    cbn [first_nonempty]. unfold ret. now rewrite (assign_same _ _ Hl).
  - unfold ret. now rewrite (assign_same _ _ Hl).
Qed.

Lemma closing_steps_split (E : Env) (p : CommunityPage)
      (homeplans : list HomePlan.t) (homesites : list Homesite.t) (d : Data) :
  closing_steps E p homeplans homesites d =
  mbind (fallback_step homeplans homesites)
        (fun _ => details_steps E p homeplans homesites) d.
Proof.
  unfold closing_steps, fallback_step. now rewrite mbind_assoc.
Qed.

(** A rendered page reaches the assembly of the details with the record
    [record_before_details]. *)
Lemma parse_community_body_rendered (E : Env) (url : string) (p : CommunityPage) :
  soup_h1 p <> None ->
  parse_community_body E p (initial_data E url) =
  details_steps E p (parse_homeplans (soup_home_plans p))
                (parse_homesites E (soup_quick_move_ins p))
                (record_before_details E url p).
Proof.
  intros Hh1. rewrite parse_community_body_steps.
  destruct (soup_h1 p) as [t|] eqn:Ht; [clear Hh1 | congruence].
  erewrite mbind_ok by reflexivity.
  erewrite mbind_ok by reflexivity.
  erewrite mbind_ok by apply price_step_run.
  do 4 (erewrite mbind_ok by reflexivity).
  erewrite mbind_ok by apply description_step_run.
  erewrite mbind_ok by reflexivity.
  erewrite mbind_ok by apply carousel_step_run.
  do 2 (erewrite mbind_ok by reflexivity).
  rewrite closing_steps_split.
  erewrite mbind_ok
    by (apply fallback_step_run with (imgs := carousel_images p);
        rewrite !lookup_assign; reflexivity).
  f_equal. unfold record_before_details, community_images, initial_data.
  rewrite Ht. destruct (price_from_of E p); reflexivity.
Qed.

(** How the assembly of the details ends on a record [d]. *)
Lemma details_steps_run (E : Env) (p : CommunityPage)
      (homeplans : list HomePlan.t) (homesites : list Homesite.t) (d : Data) :
  (exists e, details_steps E p homeplans homesites d = (d, Raise e) /\
             (range_values E homesites homeplans = Raise e \/
              lookup "price_from" d = None /\ e = KeyError "price_from" \/
              exists rv, range_values E homesites homeplans = Ok rv /\
                (get_range_from_values E (map PStr (sqft_values rv)) = Raise e \/
                 get_range_from_values E (map PStr (bed_values rv)) = Raise e \/
                 get_range_from_values E (map PNum (bath_values rv)) = Raise e))) \/
  (exists pf det,
      lookup "price_from" d = Some pf /\
      Details.price_range det = as_text pf /\
      Details.stories_range det = "1 - 2" /\
      Details.community_count det = 1%Z /\
      details_steps E p homeplans homesites d =
      (assign "collections" (VCollections (parse_collections p))
         (assign "nearbyplaces" (VNearby (parse_nearby_places p))
            (assign "amenities" (VAmenities (parse_amenities p))
               (assign "details" (VDetails det) d))),
       Ok tt)).
Proof.
  unfold details_steps, mbind, lift, get_item, set_item.
  destruct (range_values E homesites homeplans) as [rv|e];
    [|left; exists e; auto].
  destruct (lookup "price_from" d) as [pf|];
    [|left; exists (KeyError "price_from"); auto].
  destruct (get_range_from_values E (map PStr (sqft_values rv))) as [r1|e] eqn:H1;
    [|left; exists e; split; [reflexivity|]; right; right; exists rv; auto].
  destruct (get_range_from_values E (map PStr (bed_values rv))) as [r2|e] eqn:H2;
    [|left; exists e; split; [reflexivity|]; right; right; exists rv; auto].
  destruct (get_range_from_values E (map PNum (bath_values rv))) as [r3|e] eqn:H3;
    [|left; exists e; split; [reflexivity|]; right; right; exists rv; auto].
  right. eexists. eexists. split; [reflexivity|].
  split; [|split; [|split; [|reflexivity]]]; reflexivity.
Qed.

(** The entries set before the details are not touched afterwards. *)
Lemma lookup_after_details (E : Env) (p : CommunityPage)
      (homeplans : list HomePlan.t) (homesites : list Homesite.t) (d : Data) (k : string) :
  ~ In k closing_keys ->
  lookup k (fst (details_steps E p homeplans homesites d)) = lookup k d.
Proof.
  intros Hk.
  destruct (details_steps_run E p homeplans homesites d)
    as [(e & -> & _) | (pf & det & _ & _ & _ & _ & ->)]; [reflexivity|].
  cbn [fst]. rewrite !lookup_assign.
  unfold closing_keys in Hk. simpl in Hk.
  repeat match goal with
         | |- context [str_eqb ?a k] =>
             destruct (str_eqb_spec a k); [exfalso; apply Hk; subst; tauto|]
         end.
  reflexivity.
Qed.

Lemma parse_community_data_run (E : Env) (url : string) (p : CommunityPage) :
  parse_community_data E url p = fst (parse_community_body E p (initial_data E url)).
Proof.
  unfold parse_community_data, run_parse_community_data.
  destruct (parse_community_body E p (initial_data E url)) as [d [a|e]]; reflexivity.
Qed.

Lemma lookup_rendered (E : Env) (url : string) (p : CommunityPage) (k : string) :
  soup_h1 p <> None ->
  ~ In k closing_keys ->
  lookup k (parse_community_data E url p) = lookup k (record_before_details E url p).
Proof.
  intros Hh1 Hk.
  rewrite parse_community_data_run, (@parse_community_body_rendered E url p Hh1).
  now apply lookup_after_details.
Qed.

(** ** The community record: which keys it has *)

Lemma search_classes_exists (ps : list (char -> bool)) (s : string) :
  search_classes ps s = true ->
  exists pre post, s = pre ++ post /\ match_classes ps post = true.
Proof.
  induction s as [|c s IH]; simpl; intros H.
  - rewrite orb_false_r in H. now exists "", "".
  - apply orb_true_iff in H as [H | H].
    + now exists "", (String c s).
    + destruct (IH H) as (pre & post & -> & Hm). now exists (String c pre), post.
Qed.

Lemma match_literal (lit : string) (ps : list (char -> bool)) (t : string) :
  match_classes (literal lit ++ ps)%list t = true ->
  exists r, t = lit ++ r /\ match_classes ps r = true.
Proof.
  revert t. induction lit as [|a lit IH]; intros t; simpl.
  - intros H. now exists t.
  - destruct t as [|c t]; [discriminate|].
    intros H. apply andb_true_iff in H as [Hc H].
    apply char_eqb_eq in Hc. subst c.
    destruct (IH t H) as (r & -> & Hr). now exists r.
Qed.

(** A text on which the price regex of the page is found holds a currency
    token, so its price range is present and not empty. *)
Lemma plans_from_price (E : Env) (pt : string) :
  search_classes (plans_from_re E) pt = true ->
  pt <> "" /\ exists s, extract_price_range E (Some pt) = Some s /\ s <> "".
Proof.
  intros Hs. split; [intros ->; discriminate|].
  destruct (search_classes_exists _ _ Hs) as (pre & post & Hpt & Hm).
  unfold plans_from_re in Hm.
  destruct (match_literal "Plans from $" _ _ Hm) as (r & -> & Hr).
  destruct r as [|c r]; [discriminate|]. simpl in Hr.
  rewrite andb_true_r in Hr.
  assert (Hocc : ~ no_price_in E pt).
  { intros Hno. apply (Hno (String "$" (String c ""))).
    - exists (String c ""). repeat split; [discriminate | | now left].
      simpl. now rewrite Hr.
    - exists (pre ++ "Plans from "), r. rewrite Hpt, str_app_assoc. reflexivity. }
  unfold extract_price_range.
  assert (Ht : truthy pt = true).
  { apply truthy_true. intros ->. apply Hocc, no_price_in_empty. }
  rewrite Ht.
  destruct (findall_price E pt) as [|p [|q rest]] eqn:Hf.
  - exfalso. apply Hocc. now apply findall_price_nil.
  - eexists. split; [reflexivity | discriminate].
  - eexists. split; [reflexivity|].
    destruct p; simpl; discriminate.
Qed.

Lemma find_string_found (re : string -> bool) (p : CommunityPage) (s : string) :
  find_string re p = Some s -> re s = true.
Proof. unfold find_string. intros H. now apply find_some in H. Qed.

Lemma price_from_of_found (E : Env) (p : CommunityPage) :
  price_from_of E p =
  match find_string (search_classes (plans_from_re E)) p with
  | Some pt => Some (VText (extract_price_range E (Some pt)))
  | None => None
  end.
Proof.
  unfold price_from_of.
  destruct (find_string (search_classes (plans_from_re E)) p) as [pt|] eqn:Hf;
    [|reflexivity].
  destruct (@plans_from_price E pt (@find_string_found _ p pt Hf)) as [Hne _].
  apply truthy_true in Hne. now rewrite Hne.
Qed.

Lemma parse_community_data_timeout (E : Env) (url : string) (p : CommunityPage) :
  soup_h1 p = None ->
  run_parse_community_data E url p = (initial_data E url, Some TimeoutException).
Proof.
  intros Hh1. unfold run_parse_community_data.
  rewrite parse_community_body_steps. unfold mbind at 1, lift. now rewrite Hh1.
Qed.

(** The record has one of four key sets.  When the page never shows its
    heading it holds the four entries it starts with.  A rendered page
    adds the entries up to [homesites], with [price_from] among them
    exactly when a text of the page shows the price pattern, and the four
    closing entries exactly when the parse ended without an exception,
    which needs the price text. *)
Theorem record_key_sets (E : Env) (url : string) (p : CommunityPage) :
  keys (parse_community_data E url p) =
  match soup_h1 p with
  | None => ["timestamp"; "url"; "builder"; "status"]
  | Some _ =>
      (match find_string (search_classes (plans_from_re E)) p with
       | Some _ => priced_keys
       | None => unpriced_keys
       end
       ++ match snd (run_parse_community_data E url p) with
          | None => closing_keys
          | Some _ => []
          end)%list
  end /\
  (snd (run_parse_community_data E url p) = None ->
   soup_h1 p <> None /\ find_string (search_classes (plans_from_re E)) p <> None).
Proof.
  destruct (soup_h1 p) as [t|] eqn:Ht.
  - assert (Hh1 : soup_h1 p <> None) by congruence.
    pose proof (@parse_community_body_rendered E url p Hh1) as Hbody.
    pose proof (price_from_of_found E p) as Hpf.
    assert (Hkeys : keys (record_before_details E url p) =
                    match find_string (search_classes (plans_from_re E)) p with
                    | Some _ => priced_keys
                    | None => unpriced_keys
                    end).
    { unfold record_before_details. rewrite Hpf.
      destruct (find_string (search_classes (plans_from_re E)) p); reflexivity. }
    assert (Hlook : lookup "price_from" (record_before_details E url p) =
                    price_from_of E p).
    { unfold record_before_details. destruct (price_from_of E p); reflexivity. }
    unfold parse_community_data, run_parse_community_data. rewrite Hbody.
    destruct (details_steps_run E p (parse_homeplans (soup_home_plans p))
                                (parse_homesites E (soup_quick_move_ins p))
                                (record_before_details E url p))
      as [(e & -> & _) | (pf & det & Hl & _ & _ & _ & ->)]; cbn [fst snd].
    + split; [now rewrite Hkeys, app_nil_r | discriminate].
    + rewrite Hlook, Hpf in Hl. split.
      * unfold record_before_details in *. rewrite Hpf.
        destruct (find_string (search_classes (plans_from_re E)) p);
          [reflexivity | discriminate].
      * intros _. split; [discriminate|].
        destruct (find_string (search_classes (plans_from_re E)) p); discriminate.
  - unfold parse_community_data.
    rewrite (parse_community_data_timeout E url p Ht). split; [reflexivity|].
    discriminate.
Qed.

(** The page of the worked example, which shows a price: all seventeen
    keys. *)
Lemma record_key_sets_example :
  keys (parse_community_data offline_env default_url priced_page)
  = (priced_keys ++ closing_keys)%list.
Proof. reflexivity. Qed.

(** ** The community record: its entries *)

(** When the record has a [price_from] entry, the entry is a text that is
    not empty, never the absent marker. *)
Theorem price_from_never_null (E : Env) (url : string) (p : CommunityPage) (v : value) :
  lookup "price_from" (parse_community_data E url p) = Some v ->
  exists s, v = VText (Some s) /\ s <> "".
Proof.
  destruct (soup_h1 p) as [t|] eqn:Ht.
  - assert (Hh1 : soup_h1 p <> None) by congruence.
    rewrite (@lookup_rendered E url p "price_from" Hh1)
      by (unfold closing_keys; simpl; intros [H|[H|[H|[H|[]]]]]; discriminate).
    assert (Hlook : lookup "price_from" (record_before_details E url p) =
                    price_from_of E p).
    { unfold record_before_details. destruct (price_from_of E p); reflexivity. }
    rewrite Hlook, price_from_of_found.
    destruct (find_string (search_classes (plans_from_re E)) p) as [pt|] eqn:Hf;
      [|discriminate].
    intros H.
    assert (Hv : v = VText (extract_price_range E (Some pt))) by congruence.
    destruct (@plans_from_price E pt (@find_string_found _ p pt Hf)) as [_ (s & Hs & Hne)].
    exists s. split; [now rewrite Hv, Hs | exact Hne].
  - unfold parse_community_data.
    rewrite (parse_community_data_timeout E url p Ht). discriminate.
Qed.

Lemma price_from_never_null_witness :
  exists s,
    VText (Some "$300K-$450,000") = VText (Some s) /\ s <> "".
Proof.
  apply (@price_from_never_null offline_env default_url priced_page).
  reflexivity.
Defined.

(** [parse_address] returns the default, or an address with a state and a
    zip that are single words. *)
Lemma parse_address_cases (so : SalesOffice) :
  parse_address so = default_address \/
  exists street city_part state_part zip_part,
    is_word state_part /\ is_word zip_part /\
    parse_address so =
    {| full_address := street ++ ", " ++ city_part ++ ", " ++ state_part
                       ++ " " ++ zip_part;
       city := city_part; state := state_part; market := "Phoenix" |}.
Proof.
  unfold parse_address, parse_address_body.
  destruct so as [| | |lines]; try (now left).
  destruct (2 <=? List.length (map strip lines)); [|now left].
  destruct (item (map strip lines) 0) as [street|e]; cbn [bind]; [|now left].
  destruct (item (map strip lines) 1) as [line2|e]; cbn [bind]; [|now left].
  destruct (2 <=? List.length (split_on "," line2)); [|now left].
  destruct (item (split_on "," line2) 0) as [city0|e]; cbn [bind]; [|now left].
  destruct (item (split_on "," line2) 1) as [part1|e]; cbn [bind]; [|now left].
  destruct (2 <=? List.length (split_ws (strip part1))); [|now left].
  destruct (item (split_ws (strip part1)) 0) as [st|e] eqn:Hst; cbn [bind];
    [|now left].
  destruct (item (split_ws (strip part1)) 1) as [zp|e] eqn:Hzp; cbn [bind];
    [|now left].
  right. exists street, (strip city0), st, zp.
  pose proof (split_ws_words (strip part1)) as Hw. rewrite Forall_forall in Hw.
  split; [apply Hw; exact (item_in _ _ Hst)|].
  split; [apply Hw; exact (item_in _ _ Hzp) | reflexivity].
Qed.

(** The record of a rendered page always has its [address] and [location]
    entries: the location carries the fixed community coordinates and the
    market Phoenix, and the address is empty exactly when city and state
    are, that is when the sales-office block gave the default. *)
Theorem address_and_location_present (E : Env) (url : string) (p : CommunityPage) :
  soup_h1 p <> None ->
  exists a,
    a = parse_address (soup_sales_office p) /\
    lookup "address" (parse_community_data E url p) = Some (VText (Some (full_address a))) /\
    lookup "location" (parse_community_data E url p)
    = Some (VLocation {| loc_latitude := community_latitude;
                         loc_longitude := community_longitude;
                         loc_city := city a;
                         loc_state := state a;
                         loc_market := "Phoenix" |}) /\
    (a = default_address \/ (full_address a <> "" /\ is_word (state a))).
Proof.
  intros Hh1. exists (parse_address (soup_sales_office p)).
  split; [reflexivity|].
  assert (Hmarket : market (parse_address (soup_sales_office p)) = "Phoenix").
  { destruct (parse_address_cases (soup_sales_office p))
      as [-> | (? & ? & ? & ? & _ & _ & ->)]; reflexivity. }
  rewrite !(@lookup_rendered E url p _ Hh1)
    by (unfold closing_keys; simpl; intros [H|[H|[H|[H|[]]]]]; discriminate).
  assert (Hl : lookup "address" (record_before_details E url p)
               = Some (VText (Some (full_address (parse_address (soup_sales_office p)))))
               /\ lookup "location" (record_before_details E url p)
                  = Some (VLocation (community_location
                                       (parse_address (soup_sales_office p))))).
  { unfold record_before_details. destruct (price_from_of E p); split; reflexivity. }
  destruct Hl as [Ha Hloc]. rewrite Ha, Hloc.
  split; [reflexivity|]. split.
  - unfold community_location. now rewrite Hmarket.
  - destruct (parse_address_cases (soup_sales_office p))
      as [-> | (street & c & st & zp & Hst & _ & ->)]; [now left | right].
    cbn [full_address state]. split; [|exact Hst].
    destruct street; simpl; discriminate.
Qed.

Lemma address_and_location_present_witness :
  lookup "address" (parse_community_data offline_env default_url priced_page)
  = Some (VText (Some "123 Main St, Laveen, AZ 85339")).
Proof.
  destruct (@address_and_location_present offline_env default_url priced_page)
    as (a & -> & Ha & _); [discriminate | exact Ha].
Defined.

Lemma first_truthy_nonempty {A : Type} (f : A -> option string) (l : list A) (img : string) :
  first_truthy f l = Some img -> img <> "".
Proof.
  unfold first_truthy. destruct (find _ l) as [a|] eqn:Hf; [|discriminate].
  apply find_some in Hf as [_ Ht]. intros H. rewrite H in Ht.
  simpl in Ht. now apply truthy_true.
Qed.

(** The record of a rendered page holds at most one image, and an image
    it holds is not empty: the first carousel slide that has one, else
    the image of the first plan that has one, else the image of the first
    homesite that has one. *)
Theorem community_image_choice (E : Env) (url : string) (p : CommunityPage) :
  soup_h1 p <> None ->
  lookup "images" (parse_community_data E url p)
  = Some (VStrings
            (first_nonempty (carousel_images p)
               (first_nonempty (plan_images (parse_homeplans (soup_home_plans p)))
                  (homesite_images (parse_homesites E (soup_quick_move_ins p)))))) /\
  List.length (community_images E p) <= 1 /\
  Forall (fun img => img <> "") (community_images E p).
Proof.
  intros Hh1.
  rewrite (@lookup_rendered E url p "images" Hh1)
    by (unfold closing_keys; simpl; intros [H|[H|[H|[H|[]]]]]; discriminate).
  split.
  - unfold record_before_details. destruct (price_from_of E p); reflexivity.
  - unfold community_images, carousel_images, plan_images, homesite_images.
    destruct (soup_carousel p) as [slides|].
    + destruct (first_truthy (fun slide => slide) slides) as [img|] eqn:H1;
        cbn [first_nonempty].
      * split; [simpl; lia|]. repeat constructor.
        exact (first_truthy_nonempty _ _ H1).
      * destruct (first_truthy _ (parse_homeplans _)) as [img|] eqn:H2;
          cbn [first_nonempty].
        -- split; [simpl; lia|]. repeat constructor.
           exact (first_truthy_nonempty _ _ H2).
        -- destruct (first_truthy _ (parse_homesites _ _)) as [img|] eqn:H3.
           ++ split; [simpl; lia|]. repeat constructor.
              exact (first_truthy_nonempty _ _ H3).
           ++ split; [simpl; lia | constructor].
    + cbn [first_nonempty].
      destruct (first_truthy _ (parse_homeplans _)) as [img|] eqn:H2;
        cbn [first_nonempty].
      * split; [simpl; lia|]. repeat constructor.
        exact (first_truthy_nonempty _ _ H2).
      * destruct (first_truthy _ (parse_homesites _ _)) as [img|] eqn:H3.
        -- split; [simpl; lia|]. repeat constructor.
           exact (first_truthy_nonempty _ _ H3).
        -- split; [simpl; lia | constructor].
Qed.

Lemma community_image_choice_witness :
  lookup "images" (parse_community_data offline_env default_url priced_page)
  = Some (VStrings ["https://x.widen.net/hero.jpg"]).
Proof.
  destruct (@community_image_choice offline_env default_url priced_page)
    as (H & _); [discriminate | exact H].
Defined.

(** ** The community record: when it is complete *)

Lemma map_result_in {A B : Type} (f : A -> result B) (l : list A) (bs : list B) :
  map_result f l = Ok bs ->
  forall b, In b bs -> exists a, In a l /\ f a = Ok b.
Proof.
  revert bs. induction l as [|a l IH]; simpl; intros bs H b Hb.
  - injection H as <-. destruct Hb.
  - destruct (f a) as [b0|e] eqn:Hfa; simpl in H; [|discriminate].
    destruct (map_result f l) as [bs'|e]; simpl in H; [|discriminate].
    injection H as <-. destruct Hb as [<- | Hb].
    + exists a. auto.
    + destruct (IH bs' eq_refl b Hb) as (a' & Hin & Ha'). exists a'. auto.
Qed.

Lemma py_min_from_finite (l : list pyfloat) (m : pyfloat) :
  is_finite m = true -> Forall (fun x => is_finite x = true) l ->
  is_finite (py_min_from m l) = true.
Proof.
  revert m. induction l as [|x l IH]; intros m Hm Hl; [exact Hm|].
  inversion Hl; subst. cbn [py_min_from].
  apply IH; [|assumption]. now destruct (float_lt x m).
Qed.

Lemma py_max_from_finite (l : list pyfloat) (m : pyfloat) :
  is_finite m = true -> Forall (fun x => is_finite x = true) l ->
  is_finite (py_max_from m l) = true.
Proof.
  revert m. induction l as [|x l IH]; intros m Hm Hl; [exact Hm|].
  inversion Hl; subst. cbn [py_max_from].
  apply IH; [|assumption]. now destruct (float_lt m x).
Qed.

(** Finite numbers always give a range. *)
Lemma get_range_from_values_ok (E : Env) (values : list pyval) :
  (forall s, In (PStr s) values -> exists q, float_of E s = Some (Finite q)) ->
  (forall x, In (PNum x) values -> is_finite x = true) ->
  exists r, get_range_from_values E values = Ok r.
Proof.
  intros Hstr Hnum. unfold get_range_from_values.
  destruct values as [|v values]; [now eexists|].
  pose proof (floats_of_values E (v :: values)) as Hf.
  destruct (map_result (to_float E) (filter is_not_none (v :: values)))
    as [floats|e]; cbn [bind].
  - destruct Hf as [Hfloats _].
    assert (Hfin : Forall (fun x => is_finite x = true) floats).
    { rewrite Hfloats, Forall_forall. intros x Hx.
      apply in_flat_map in Hx as (w & Hw & Hx).
      destruct w as [|s|y]; simpl in Hx.
      - destruct Hx.
      - destruct (Hstr s Hw) as [q Hq]. rewrite Hq in Hx.
        destruct Hx as [<- | []]. reflexivity.
      - destruct Hx as [<- | []]. now apply Hnum. }
    destruct floats as [|f fs]; [now eexists|].
    inversion Hfin as [|? ? Hfirst Hrest]; subst.
    pose proof (@py_min_from_finite fs f Hfirst Hrest) as Hmin.
    pose proof (@py_max_from_finite fs f Hfirst Hrest) as Hmax.
    destruct (py_min_from f fs); try discriminate.
    destruct (py_max_from f fs); try discriminate.
    simpl. destruct (Qeq_bool q q0); now eexists.
  - destruct Hf as [_ (s & Hs & Hn)]. exfalso.
    destruct (Hstr s Hs) as [q Hq]. congruence.
Qed.

Lemma in_first_nonempty (s : string) (a b : list string) :
  In s (first_nonempty a b) -> In s a \/ In s b.
Proof. destruct a; simpl; tauto. Qed.

(** When every number converts, the range values are selected without an
    exception, each list from the homesites or the homeplans. *)
Lemma range_values_ok (E : Env) (homesites : list Homesite.t)
      (homeplans : list HomePlan.t) :
  numbers_convert E homesites homeplans ->
  exists rv,
    range_values E homesites homeplans = Ok rv /\
    sqft_values rv = first_nonempty (truthy_fields Homesite.sqft homesites)
                                    (truthy_fields plan_sqft homeplans) /\
    bed_values rv = first_nonempty (truthy_fields Homesite.beds homesites)
                                   (truthy_fields plan_beds homeplans) /\
    Forall (fun x => is_finite x = true) (bath_values rv).
Proof.
  intros Hconv.
  pose proof (range_values_per_field E homesites homeplans) as Hrv.
  destruct (range_values E homesites homeplans) as [rv|e].
  - destruct Hrv as (Hsq & Hbd & Hbt). exists rv.
    split; [reflexivity|]. split; [assumption|]. split; [assumption|].
    rewrite Forall_forall. intros x Hx.
    destruct (map_result_in _ _ Hbt x Hx) as (s & Hs & Hfs).
    apply in_first_nonempty in Hs.
    destruct (Hconv s) as [q Hq]; [rewrite !in_app_iff; tauto|].
    unfold py_float in Hfs. rewrite Hq in Hfs. now injection Hfs as <-.
  - destruct Hrv as (_ & s & Hs & Hn). exfalso.
    destruct (Hconv s) as [q Hq]; [rewrite !in_app_iff; tauto | congruence].
Qed.

(** On a rendered page that shows a price text and whose bed, bath and
    area values all convert to finite numbers, the parse ends without an
    exception and the record is complete: all seventeen keys, the details
    carrying the price of [price_from], the fixed stories range and
    community count, and the amenities, the empty nearby places and the
    collections after them. *)
Theorem record_complete (E : Env) (url : string) (p : CommunityPage) :
  soup_h1 p <> None ->
  find_string (search_classes (plans_from_re E)) p <> None ->
  numbers_convert E (parse_homesites E (soup_quick_move_ins p))
                  (parse_homeplans (soup_home_plans p)) ->
  snd (run_parse_community_data E url p) = None /\
  keys (parse_community_data E url p) = (priced_keys ++ closing_keys)%list /\
  exists det price,
    lookup "details" (parse_community_data E url p) = Some (VDetails det) /\
    lookup "price_from" (parse_community_data E url p) = Some (VText (Some price)) /\
    Details.price_range det = Some price /\
    Details.stories_range det = "1 - 2" /\
    Details.community_count det = 1%Z /\
    lookup "amenities" (parse_community_data E url p)
    = Some (VAmenities (parse_amenities p)) /\
    lookup "nearbyplaces" (parse_community_data E url p) = Some (VNearby []) /\
    lookup "collections" (parse_community_data E url p)
    = Some (VCollections (parse_collections p)).
Proof.
  intros Hh1 Hprice Hconv.
  pose proof (@parse_community_body_rendered E url p Hh1) as Hbody.
  pose proof (price_from_of_found E p) as Hpf.
  destruct (find_string (search_classes (plans_from_re E)) p) as [pt|] eqn:Hfind;
    [clear Hprice | congruence].
  destruct (@plans_from_price E pt (@find_string_found _ p pt Hfind))
    as [_ (price & Hext & _)].
  rewrite Hext in Hpf.
  assert (Hlook : lookup "price_from" (record_before_details E url p)
                  = Some (VText (Some price))).
  { unfold record_before_details. now rewrite Hpf. }
  assert (Hkeys : keys (record_before_details E url p) = priced_keys).
  { unfold record_before_details. now rewrite Hpf. }
  destruct (range_values_ok Hconv) as (rv & Hrv & Hsq & Hbd & Hbt).
  assert (H1 : exists r, get_range_from_values E (map PStr (sqft_values rv)) = Ok r).
  { apply get_range_from_values_ok.
    - intros s Hs. apply Hconv.
      apply in_map_iff in Hs as (s' & Heq & Hin). injection Heq as ->.
      rewrite Hsq in Hin. apply in_first_nonempty in Hin.
      rewrite !in_app_iff. tauto.
    - intros x Hx. apply in_map_iff in Hx as (s' & Heq & _). discriminate. }
  assert (H2 : exists r, get_range_from_values E (map PStr (bed_values rv)) = Ok r).
  { apply get_range_from_values_ok.
    - intros s Hs. apply Hconv.
      apply in_map_iff in Hs as (s' & Heq & Hin). injection Heq as ->.
      rewrite Hbd in Hin. apply in_first_nonempty in Hin.
      rewrite !in_app_iff. tauto.
    - intros x Hx. apply in_map_iff in Hx as (s' & Heq & _). discriminate. }
  assert (H3 : exists r, get_range_from_values E (map PNum (bath_values rv)) = Ok r).
  { apply get_range_from_values_ok.
    - intros s Hs. apply in_map_iff in Hs as (q & Heq & _). discriminate.
    - intros x Hx. apply in_map_iff in Hx as (y & Heq & Hy).
      injection Heq as ->. rewrite Forall_forall in Hbt. now apply Hbt. }
  destruct H1 as [r1 H1]. destruct H2 as [r2 H2]. destruct H3 as [r3 H3].
  unfold parse_community_data, run_parse_community_data. rewrite Hbody.
  destruct (details_steps_run E p (parse_homeplans (soup_home_plans p))
                              (parse_homesites E (soup_quick_move_ins p))
                              (record_before_details E url p))
    as [(e & _ & [Hr | [[Hl _] | (rv' & Hrv' & Hr)]])
       | (pf & det & Hl & Hdp & Hds & Hdc & ->)].
  - congruence.
  - congruence.
  - assert (rv' = rv) by congruence. subst rv'.
    destruct Hr as [Hr | [Hr | Hr]]; congruence.
  - cbn [fst snd]. rewrite Hlook in Hl. injection Hl as <-.
    split; [reflexivity|]. split.
    + unfold record_before_details in *. rewrite Hpf. reflexivity.
    + exists det, price. rewrite !lookup_assign.
      repeat match goal with
             | |- context [str_eqb ?a ?b] =>
                 let r := eval vm_compute in (str_eqb a b) in
                 change (str_eqb a b) with r
             end.
      cbv iota. rewrite Hlook. repeat split; assumption.
Qed.

Lemma record_complete_witness :
  snd (run_parse_community_data offline_env default_url priced_page) = None.
Proof.
  refine (proj1 (@record_complete offline_env default_url priced_page _ _ _)).
  - discriminate.
  - discriminate.
  - intros s Hs. simpl in Hs.
    repeat (destruct Hs as [<- | Hs]; [eexists; reflexivity|]). destruct Hs.
Defined.


(** ** C3: where the ranges of the details come from *)

Lemma details_steps_details (E : Env) (p : CommunityPage)
      (homeplans : list HomePlan.t) (homesites : list Homesite.t) (d : Data)
      (det : Details.t) :
  lookup "details" d = None ->
  lookup "details" (fst (details_steps E p homeplans homesites d))
  = Some (VDetails det) ->
  exists rv,
    range_values E homesites homeplans = Ok rv /\
    get_range_from_values E (map PStr (sqft_values rv)) = Ok (Details.sqft_range det) /\
    get_range_from_values E (map PStr (bed_values rv)) = Ok (Details.bed_range det) /\
    get_range_from_values E (map PNum (bath_values rv)) = Ok (Details.bath_range det).
Proof.
  intros Hnone. unfold details_steps, mbind, lift, get_item, set_item.
  destruct (range_values E homesites homeplans) as [rv|e]; [|simpl; congruence].
  destruct (lookup "price_from" d) as [pf|]; [|simpl; congruence].
  destruct (get_range_from_values E (map PStr (sqft_values rv))) as [r1|e] eqn:H1;
    [|simpl; congruence].
  destruct (get_range_from_values E (map PStr (bed_values rv))) as [r2|e] eqn:H2;
    [|simpl; congruence].
  destruct (get_range_from_values E (map PNum (bath_values rv))) as [r3|e] eqn:H3;
    [|simpl; congruence].
  cbn [fst]. rewrite !lookup_assign.
  change (str_eqb "collections" "details") with false.
  change (str_eqb "nearbyplaces" "details") with false.
  change (str_eqb "amenities" "details") with false.
  change (str_eqb "details" "details") with true. cbv iota.
  intros H. injection H as <-. exists rv. repeat split; assumption.
Qed.

(** C3: in every community record that has its details, each of the
    three ranges is [get_range_from_values] of the values of its own
    field: the area range of the area values, the bed range of the bed
    values, the bath range of the bath values converted with [float].
    The values of a field are the ones the homesites state for that
    field, and the ones the homeplans state for it only when no homesite
    states that field; the choice is made for each field on its own. *)
Theorem details_ranges_per_field
        (E : Env) (url : string) (p : CommunityPage) (det : Details.t) :
  lookup "details" (parse_community_data E url p) = Some (VDetails det) ->
  get_range_from_values E
    (map PStr (first_nonempty
                 (truthy_fields Homesite.sqft (parse_homesites E (soup_quick_move_ins p)))
                 (truthy_fields plan_sqft (parse_homeplans (soup_home_plans p)))))
  = Ok (Details.sqft_range det) /\
  get_range_from_values E
    (map PStr (first_nonempty
                 (truthy_fields Homesite.beds (parse_homesites E (soup_quick_move_ins p)))
                 (truthy_fields plan_beds (parse_homeplans (soup_home_plans p)))))
  = Ok (Details.bed_range det) /\
  exists baths,
    map_result (py_float E)
      (first_nonempty
         (truthy_fields Homesite.baths (parse_homesites E (soup_quick_move_ins p)))
         (truthy_fields plan_baths (parse_homeplans (soup_home_plans p))))
    = Ok baths /\
    get_range_from_values E (map PNum baths) = Ok (Details.bath_range det).
Proof.
  intros Hdet.
  destruct (soup_h1 p) as [t|] eqn:Ht.
  - assert (Hh1 : soup_h1 p <> None) by congruence.
    rewrite parse_community_data_run,
      (@parse_community_body_rendered E url p Hh1) in Hdet.
    apply details_steps_details in Hdet.
    + destruct Hdet as (rv & Hrv & H1 & H2 & H3).
      pose proof (range_values_per_field E
                    (parse_homesites E (soup_quick_move_ins p))
                    (parse_homeplans (soup_home_plans p))) as Hsel.
      rewrite Hrv in Hsel. destruct Hsel as (Hsq & Hbd & Hbt).
      rewrite <- Hsq, <- Hbd. split; [exact H1|]. split; [exact H2|].
      exists (bath_values rv). split; assumption.
    + unfold record_before_details. destruct (price_from_of E p); reflexivity.
  - unfold parse_community_data in Hdet.
    rewrite (parse_community_data_timeout E url p Ht) in Hdet. discriminate.
Qed.

(** The page [mixed_page]: its record has the details [mixed_details]. *)
Lemma details_ranges_per_field_witness :
  get_range_from_values offline_env
    (map PStr (first_nonempty
                 (truthy_fields Homesite.sqft
                    (parse_homesites offline_env (soup_quick_move_ins mixed_page)))
                 (truthy_fields plan_sqft
                    (parse_homeplans (soup_home_plans mixed_page)))))
  = Ok (Details.sqft_range mixed_details).
Proof.
  refine (proj1 (@details_ranges_per_field offline_env default_url mixed_page
                   mixed_details _)).
  vm_compute. reflexivity.
Defined.

(** C3 as stated fails: on [mixed_page] the one homesite states its area
    and nothing else, and the one plan states everything.  Within the one
    summary the area range is the homesite's and the bed and bath ranges
    are the plan's, although the homesites do yield a value. *)
Lemma details_ranges_mixed_sources :
  lookup "details" (parse_community_data offline_env default_url mixed_page)
  = Some (VDetails mixed_details) /\
  Details.sqft_range mixed_details = Some "2000" /\
  Details.bed_range mixed_details = Some "3" /\
  Details.bath_range mixed_details = Some "2" /\
  map Homesite.sqft (parse_homesites offline_env (soup_quick_move_ins mixed_page))
  = [Some "2000"] /\
  map Homesite.beds (parse_homesites offline_env (soup_quick_move_ins mixed_page))
  = [None] /\
  map Homesite.baths (parse_homesites offline_env (soup_quick_move_ins mixed_page))
  = [None] /\
  map plan_sqft (parse_homeplans (soup_home_plans mixed_page)) = [Some "1800"] /\
  map plan_beds (parse_homeplans (soup_home_plans mixed_page)) = [Some "3"] /\
  map plan_baths (parse_homeplans (soup_home_plans mixed_page)) = [Some "2"].
Proof. repeat split; vm_compute; reflexivity. Qed.
(** ** Homesites: numbering, address and coordinates *)

(** The other fields of an emitted homesite. *)
Lemma parse_home_card_fields (E : Env) (idx : nat) (c : Card) (h : Homesite.t) :
  parse_home_card E idx c = Ok (Some h) ->
  exists l address fs,
    card_title c = Some l /\
    card_feature_list c = Ok fs /\
    Homesite.address h = Some address /\
    Homesite.id h = str_of_Z (Z.of_nat idx) /\
    Homesite.status h = "Move-in Ready" /\
    Homesite.plan h = clean_text (Some (link_text l)) /\
    Homesite.price h = card_price_text c /\
    Homesite.beds h = f_beds fs /\
    Homesite.baths h = f_baths fs /\
    Homesite.sqft h = f_sqft fs /\
    Homesite.latitude h = Some (fst (coordinates E address)) /\
    Homesite.longitude h = Some (snd (coordinates E address)).
Proof.
  unfold parse_home_card. intros H.
  destruct (card_title c) as [l|] eqn:Hl; cbn [bind] in H.
  - unfold href_of in H.
    destruct (href l) as [hr|] eqn:Hhr; cbn [bind] in H; [|discriminate].
    destruct (card_feature_list c) as [fs|e]; cbn [bind] in H;
      [|destruct (get_homesite_images E (site_root ++ hr));
        destruct (parse_homesite_address E (site_root ++ hr)) as [[? ?]|];
        [destruct (coordinates E _)| |destruct (coordinates E _)|]; discriminate].
    destruct (parse_homesite_address E (site_root ++ hr)) as [[address name]|] eqn:Ha.
    + destruct (coordinates E address) as [lat lon] eqn:Hco.
      destruct (get_homesite_images E (site_root ++ hr)) as [|first imgs] eqn:Hi;
        cbn in H; (destruct (truthy name); cbn in H; [|discriminate]);
        injection H as <-; exists l, address, fs; cbn; rewrite Hco;
        repeat split; reflexivity.
    + destruct (get_homesite_images E (site_root ++ hr)); cbn in H; discriminate.
  - cbn [bind] in H. destruct (card_feature_list c) as [fs|e]; cbn in H; discriminate.
Qed.

Lemma parse_home_cards_positions (E : Env) (cards : list Card) (start : nat) :
  exists idxs,
    map Homesite.id (parse_home_cards E start cards)
    = map (fun i => str_of_Z (Z.of_nat i)) idxs /\
    StronglySorted lt idxs /\
    Forall (fun i => start <= i < start + List.length cards) idxs /\
    Forall2 (fun i h =>
               exists c, nth_error cards (i - start) = Some c /\
                         parse_home_card E i c = Ok (Some h))
            idxs (parse_home_cards E start cards) /\
    (forall k c h,
        nth_error cards k = Some c ->
        parse_home_card E (start + k) c = Ok (Some h) ->
        In (start + k) idxs).
Proof.
  revert start. induction cards as [|c cards IH]; intros start.
  - exists []. simpl. repeat split; try constructor.
    intros [|k] c h H; discriminate.
  - destruct (IH (S start)) as (idxs & Hids & Hsorted & Hrange & Hcards & Hall).
    assert (Hrange' : Forall (fun i => start <= i < start + S (List.length cards)) idxs).
    { rewrite Forall_forall in *. intros i Hi. specialize (Hrange i Hi). lia. }
    assert (Hcards' :
              Forall2 (fun i h =>
                         exists c', nth_error (c :: cards) (i - start) = Some c' /\
                                    parse_home_card E i c' = Ok (Some h))
                      idxs (parse_home_cards E (S start) cards)).
    { clear Hids Hsorted Hall Hrange'. revert Hrange.
      induction Hcards as [|i h idxs hs (c' & Hnth & Hp) _ IHF]; intros Hrange;
        constructor.
      - inversion Hrange as [|? ? Hi _]; subst. exists c'. split; [|exact Hp].
        replace (i - start) with (S (i - S start)) by lia. exact Hnth.
      - apply IHF. now inversion Hrange. }
    cbn [parse_home_cards List.length]. unfold home_card_output.
    destruct (parse_home_card E start c) as [[h|]|e] eqn:Hc; cbn [app].
    + exists (start :: idxs). split; [|split; [|split; [|split]]].
      * simpl. rewrite Hids.
        destruct (parse_home_card_fields _ _ _ Hc)
          as (? & ? & ? & _ & _ & _ & Hid & _).
        now rewrite Hid.
      * constructor; [assumption|].
        rewrite Forall_forall in *. intros i Hi. specialize (Hrange i Hi). lia.
      * constructor; [lia | assumption].
      * constructor; [|exact Hcards'].
        exists c. rewrite Nat.sub_diag. split; [reflexivity | exact Hc].
      * intros [|k] c' h' Hnth Hp.
        -- rewrite Nat.add_0_r. now left.
        -- right. replace (start + S k) with (S start + k) in * by lia.
           exact (Hall k c' h' Hnth Hp).
    + exists idxs. split; [exact Hids|]. split; [exact Hsorted|].
      split; [exact Hrange'|]. split; [exact Hcards'|].
      intros [|k] c' h' Hnth Hp.
      * simpl in Hnth. injection Hnth as <-. rewrite Nat.add_0_r in Hp. congruence.
      * replace (start + S k) with (S start + k) in * by lia.
        exact (Hall k c' h' Hnth Hp).
    + exists idxs. split; [exact Hids|]. split; [exact Hsorted|].
      split; [exact Hrange'|]. split; [exact Hcards'|].
      intros [|k] c' h' Hnth Hp.
      * simpl in Hnth. injection Hnth as <-. rewrite Nat.add_0_r in Hp. congruence.
      * replace (start + S k) with (S start + k) in * by lia.
        exact (Hall k c' h' Hnth Hp).
Qed.

(** The ids of the homesites are the positions of their cards in the
    panel, counted from 1 and written in decimal.  Along the output the
    positions increase strictly; the homesite with the id [i] is the one
    parsed from the card at position [i]; and every card that parses to
    a homesite has its position among the ids, so a card that is dropped
    leaves a gap. *)
Theorem homesite_ids_are_card_positions (E : Env) (cards : list Card) :
  exists idxs,
    map Homesite.id (parse_homesites E (Some cards))
    = map (fun i => str_of_Z (Z.of_nat i)) idxs /\
    StronglySorted lt idxs /\
    Forall (fun i => 1 <= i <= List.length cards) idxs /\
    Forall2 (fun i h =>
               exists c, nth_error cards (i - 1) = Some c /\
                         parse_home_card E i c = Ok (Some h))
            idxs (parse_homesites E (Some cards)) /\
    (forall k c h,
        nth_error cards k = Some c ->
        parse_home_card E (S k) c = Ok (Some h) ->
        In (S k) idxs) /\
    List.length (parse_homesites E (Some cards)) <= List.length cards.
Proof.
  destruct (parse_home_cards_positions E cards 1)
    as (idxs & Hids & Hsorted & Hrange & Hcards & Hall).
  exists idxs. split; [exact Hids|]. split; [exact Hsorted|].
  assert (Hr : Forall (fun i => 1 <= i <= List.length cards) idxs).
  { rewrite Forall_forall in *. intros i Hi. specialize (Hrange i Hi). lia. }
  split; [exact Hr|]. split; [exact Hcards|]. split; [exact Hall|].
  cbn [parse_homesites].
  rewrite <- (length_map Homesite.id), Hids, length_map.
  clear Hids Hcards Hall. revert Hsorted Hr. generalize (List.length cards) as n.
  assert (Hgen : forall (l : list nat) lo n,
             StronglySorted lt l -> Forall (fun i => lo <= i <= n) l ->
             List.length l <= S n - lo).
  { induction l as [|a l IHl]; intros lo n Hs Hf; cbn [List.length].
    - lia.
    - inversion Hs as [|? ? Hs' Hlt]; subst.
      inversion Hf as [|? ? Ha Hf']; subst.
      assert (Hf2 : Forall (fun i => S a <= i <= n) l).
      { rewrite Forall_forall in *. intros i Hi.
        specialize (Hlt i Hi). specialize (Hf' i Hi). lia. }
      specialize (IHl (S a) n Hs' Hf2). cbv beta in Ha. lia. }
  intros n Hs Hf. specialize (Hgen idxs 1 n Hs Hf). lia.
Qed.

(** The cards of the worked example: the first card is dropped and the
    second keeps the id 2. *)
Lemma homesite_ids_are_card_positions_example :
  map Homesite.id (parse_homesites offline_env (Some [short_slug_card; jade_card]))
  = ["2"].
Proof. reflexivity. Qed.

Lemma parse_homesite_address_form (E : Env) (url address name : string) :
  parse_homesite_address E url = Some (address, name) ->
  exists street,
    address = street ++ ", Laveen, AZ 85339" /\ name = street ++ ", Laveen, AZ".
Proof.
  unfold parse_homesite_address.
  destruct (last_item (split_on "/" url)) as [seg|]; [|discriminate].
  destruct (4 <=? List.length (split_on "-" seg)); [|discriminate].
  destruct (nth_error (split_on "-" seg) 2) as [number|]; [|discriminate].
  destruct (nth_error (split_on "-" seg) 3) as [direction|]; [|discriminate].
  intros H.
  exists (number ++ " " ++ upper E direction ++ " "
            ++ join " " (map (capitalize E) (slice_to_last 4 (split_on "-" seg)))).
  injection H as Ha Hn.
  split; [rewrite <- Ha | rewrite <- Hn]; rewrite !str_app_assoc; reflexivity.
Qed.

Lemma float_truthy_zero (x : pyfloat) : float_truthy x = false <-> is_zero x.
Proof.
  unfold is_zero. destruct x as [q| | |]; simpl; split.
  - intros H. exists q. split; [reflexivity|].
    apply Qeq_bool_iff. now destruct (Qeq_bool q 0).
  - intros (q' & Hq & Hz). injection Hq as <-.
    apply Qeq_bool_iff in Hz. now rewrite Hz.
  - discriminate.
  - intros (q & Hq & _). discriminate.
  - discriminate.
  - intros (q & Hq & _). discriminate.
  - discriminate.
  - intros (q & Hq & _). discriminate.
Qed.

Lemma float_truthy_not_zero (x : pyfloat) : float_truthy x = true <-> ~ is_zero x.
Proof.
  rewrite <- float_truthy_zero. destruct (float_truthy x); split; congruence.
Qed.

Lemma community_coordinates_not_zero :
  ~ is_zero community_latitude /\ ~ is_zero community_longitude.
Proof. split; apply float_truthy_not_zero; reflexivity. Qed.

(** The coordinates of an address: the geocoder's pair when it found the
    address and neither number is a zero, else the community's. *)
Lemma coordinates_cases (E : Env) (address : string) :
  (forall lat lon,
      geocode E address = Some (lat, lon) ->
      ~ is_zero lat -> ~ is_zero lon ->
      coordinates E address = (lat, lon)) /\
  (forall lat lon,
      geocode E address = Some (lat, lon) ->
      is_zero lat \/ is_zero lon ->
      coordinates E address = (community_latitude, community_longitude)) /\
  (geocode E address = None ->
   coordinates E address = (community_latitude, community_longitude)) /\
  ~ is_zero (fst (coordinates E address)) /\
  ~ is_zero (snd (coordinates E address)).
Proof.
  pose proof community_coordinates_not_zero as [Hlat0 Hlon0].
  unfold coordinates.
  destruct (geocode E address) as [[lat lon]|].
  - destruct (float_truthy lat) eqn:Hlat; destruct (float_truthy lon) eqn:Hlon;
      cbn [andb fst snd];
      try apply float_truthy_not_zero in Hlat;
      try apply float_truthy_not_zero in Hlon;
      try apply float_truthy_zero in Hlat;
      try apply float_truthy_zero in Hlon;
      (split; [intros la lo Hg; injection Hg as <- <-; tauto|]);
      (split; [intros la lo Hg; injection Hg as <- <-; tauto|]);
      (split; [discriminate|]); tauto.
  - cbn [fst snd]. split; [discriminate|]. split; [discriminate|]. tauto.
Qed.

(** Every homesite in the output has its street address with the fixed
    city, state and zip, its name is that address without the zip, its
    status is the fixed one, and its coordinates are never absent and
    never a zero: they are the pair the geocoder gave for the address
    when it gave one without a zero in it, and the community's when the
    geocoder gave none or gave a zero. *)
Theorem homesite_address_and_coordinates (E : Env) (panel : option (list Card)) :
  Forall (fun h =>
            exists street lat lon,
              Homesite.name h = Some (street ++ ", Laveen, AZ") /\
              Homesite.address h = Some (street ++ ", Laveen, AZ 85339") /\
              Homesite.status h = "Move-in Ready" /\
              Homesite.latitude h = Some lat /\
              Homesite.longitude h = Some lon /\
              ~ is_zero lat /\ ~ is_zero lon /\
              (forall glat glon,
                  geocode E (street ++ ", Laveen, AZ 85339") = Some (glat, glon) ->
                  ~ is_zero glat -> ~ is_zero glon ->
                  (lat, lon) = (glat, glon)) /\
              (forall glat glon,
                  geocode E (street ++ ", Laveen, AZ 85339") = Some (glat, glon) ->
                  is_zero glat \/ is_zero glon ->
                  (lat, lon) = (community_latitude, community_longitude)) /\
              (geocode E (street ++ ", Laveen, AZ 85339") = None ->
               (lat, lon) = (community_latitude, community_longitude)))
         (parse_homesites E panel).
Proof.
  apply Forall_forall. intros h Hin.
  destruct (parse_homesites_in _ _ _ Hin) as (i & c & Hc).
  destruct (parse_home_card_emitted _ _ _ Hc)
    as (l & hr & address & name & _ & _ & Ha & _ & Hn & Haddr & _).
  destruct (parse_home_card_fields _ _ _ Hc)
    as (l' & address' & fs & _ & _ & Haddr' & _ & Hst & _ & _ & _ & _ & _ & Hlat & Hlon).
  assert (address' = address) by congruence. subst address'.
  destruct (parse_homesite_address_form E _ Ha) as (street & -> & ->).
  destruct (coordinates_cases E (street ++ ", Laveen, AZ 85339"))
    as (Hfound & Hzero & Hnone & Hz1 & Hz2).
  exists street, (fst (coordinates E (street ++ ", Laveen, AZ 85339"))),
         (snd (coordinates E (street ++ ", Laveen, AZ 85339"))).
  rewrite <- surjective_pairing.
  repeat split; assumption.
Qed.

(** A geocoder that finds the address gives the homesite its pair, and
    one that answers with a zero longitude is overruled by the community
    coordinates. *)
Lemma homesite_address_and_coordinates_example :
  map (fun h => (Homesite.address h, Homesite.latitude h, Homesite.longitude h))
      (parse_homesites found_env (Some [jade_card]))
  = [(Some "5510 W Paseo Way, Laveen, AZ 85339",
      Some (Finite (334 # 10)), Some (Finite (- (1122 # 10))))] /\
  map (fun h => (Homesite.address h, Homesite.latitude h, Homesite.longitude h))
      (parse_homesites zero_longitude_env (Some [jade_card]))
  = [(Some "5510 W Paseo Way, Laveen, AZ 85339",
      Some community_latitude, Some community_longitude)].
Proof. split; reflexivity. Qed.
(** ** Cards: the values of a feature list *)

Lemma replace_comma (P : char -> bool) (s : string) :
  str_forallb P s = true ->
  str_forallb (fun c => P c && negb (char_eqb c ",")) (replace "," "" s) = true.
Proof.
  unfold replace. induction s as [|c s IH]; [reflexivity|].
  intros H. cbn [str_forallb] in H. apply andb_true_iff in H as [Hc H].
  cbn [replace_from prefix str_length Nat.sub].
  destruct (char_eqb_spec "," c) as [Heq|Hne]; cbn [andb].
  - replace (prefix "" s) with true by (destruct s; reflexivity).
    cbn [append]. now apply IH.
  - cbn [str_forallb]. rewrite Hc, (IH H).
    assert (Hn : char_eqb c "," = false)
      by (apply char_eqb_neq; congruence).
    now rewrite Hn.
Qed.

Lemma first_word_is_word (text w : string) :
  item (split_ws text) 0 = Ok w -> is_word w.
Proof.
  intros H. pose proof (split_ws_words text) as Hw. rewrite Forall_forall in Hw.
  apply Hw. exact (item_in _ _ H).
Qed.

Lemma parse_feature_ok (acc fs : Features) (li_text : string) :
  features_ok (f_beds acc) (f_baths acc) (f_sqft acc) ->
  parse_feature acc li_text = Ok fs ->
  features_ok (f_beds fs) (f_baths fs) (f_sqft fs).
Proof.
  intros (Hb & Hba & Hs). unfold parse_feature, features_ok.
  destruct (clean_text (Some li_text)) as [text|]; [|discriminate].
  destruct (contains "Beds" text).
  - destruct (item (split_ws text) 0) as [b|e] eqn:Hi; cbn [bind]; [|discriminate].
    intros H. injection H as <-. cbn [f_beds f_baths f_sqft].
    split; [|split; assumption].
    intros b' E'. injection E' as <-. exact (first_word_is_word _ Hi).
  - destruct (contains "Baths" text).
    + destruct (item (split_on "|" text) 0) as [part0|e]; cbn [bind]; [|discriminate].
      destruct (item (split_ws (strip part0)) 0) as [w|e] eqn:Hi; cbn [bind];
        [|discriminate].
      intros H. injection H as <-. cbn [f_beds f_baths f_sqft].
      split; [assumption|]. split; [|assumption].
      intros b' E'. injection E' as <-. exists w.
      split; [exact (first_word_is_word _ Hi)|].
      destruct (split_on "|" text) as [|? [|part1 ?]]; auto.
      destruct (contains "Half" part1); auto.
    + destruct (contains "sq. ft." text);
        [|intros H; injection H as <-; split; [|split]; assumption].
      destruct (item (split_ws text) 0) as [w|e] eqn:Hi; cbn [bind]; [|discriminate].
      intros H. injection H as <-. cbn [f_beds f_baths f_sqft].
      split; [assumption|]. split; [assumption|].
      intros s' E'. injection E' as <-.
      apply replace_comma. exact (proj2 (first_word_is_word _ Hi)).
Qed.

Lemma card_feature_list_ok (c : Card) (fs : Features) :
  card_feature_list c = Ok fs ->
  features_ok (f_beds fs) (f_baths fs) (f_sqft fs).
Proof.
  assert (Hnone : features_ok (f_beds no_features) (f_baths no_features)
                              (f_sqft no_features))
    by (repeat split; discriminate).
  unfold card_feature_list. destruct (card_features c) as [lis|].
  - generalize no_features Hnone. induction lis as [|li lis IH]; intros acc Hacc; simpl.
    + intros H. now injection H as <-.
    + destruct (parse_feature acc li) as [acc'|e] eqn:Hp; cbn [bind]; [|discriminate].
      apply IH. exact (@parse_feature_ok acc acc' li Hacc Hp).
  - intros H. now injection H as <-.
Qed.

(** The other fields of an emitted plan. *)
Lemma parse_plan_card_fields (c : Card) (p : HomePlan.t) :
  parse_plan_card c = Ok (Some p) ->
  exists fs,
    card_feature_list c = Ok fs /\
    PlanDetails.beds (HomePlan.details p) = f_beds fs /\
    PlanDetails.baths (HomePlan.details p) = f_baths fs /\
    PlanDetails.sqft (HomePlan.details p) = f_sqft fs /\
    PlanDetails.price (HomePlan.details p) = card_price_text c /\
    PlanDetails.image_url (HomePlan.details p) = plan_image c /\
    PlanDetails.status (HomePlan.details p) = "Actively selling" /\
    HomePlan.floorplan_images p = [] /\
    HomePlan.includedFeatures p =
    match card_content c with
    | Some cc => included_features 0 (content_items cc)
    | None => []
    end.
Proof.
  unfold parse_plan_card. intros H.
  destruct (card_title c) as [l|]; cbn [bind] in H.
  - unfold href_of in H. destruct (href l) as [hr|]; cbn [bind] in H; [|discriminate].
    destruct (card_feature_list c) as [fs|e]; cbn [bind] in H; [|discriminate].
    cbn [fst snd HomePlan.name HomePlan.url] in H.
    destruct (truthy_opt (clean_text (Some (link_text l))) && _); [|discriminate].
    injection H as <-. exists fs. cbn. repeat split; reflexivity.
  - destruct (card_feature_list c) as [fs|e]; cbn in H; discriminate.
Qed.

Lemma parse_homeplans_in (panel : option (list Card)) (p : HomePlan.t) :
  In p (parse_homeplans panel) -> exists c, parse_plan_card c = Ok (Some p).
Proof.
  destruct panel as [cards|]; simpl; [|tauto].
  intros Hin. apply in_flat_map in Hin as (c & _ & Hc).
  unfold plan_card_output in Hc.
  destruct (parse_plan_card c) as [[p'|]|e] eqn:Hp; simpl in Hc; try tauto.
  destruct Hc as [<- | []]. now exists c.
Qed.

Lemma parse_homeplans_card (panel : option (list Card)) (p : HomePlan.t) :
  In p (parse_homeplans panel) ->
  exists cards c,
    panel = Some cards /\ In c cards /\ parse_plan_card c = Ok (Some p).
Proof.
  destruct panel as [cards|]; simpl; [|tauto].
  intros Hin. apply in_flat_map in Hin as (c & Hcards & Hc).
  unfold plan_card_output in Hc.
  destruct (parse_plan_card c) as [[p'|]|e] eqn:Hp; simpl in Hc; try tauto.
  destruct Hc as [<- | []]. now exists cards, c.
Qed.

(** In every plan and homesite of the output, beds is a single word,
    baths is a single word with or without the suffix for a half bath,
    and the area has no whitespace and no thousands separator left. *)
Theorem feature_values_are_tokens
        (E : Env) (plans_panel homes_panel : option (list Card)) :
  Forall (fun p => features_ok (PlanDetails.beds (HomePlan.details p))
                               (PlanDetails.baths (HomePlan.details p))
                               (PlanDetails.sqft (HomePlan.details p)))
         (parse_homeplans plans_panel) /\
  Forall (fun h => features_ok (Homesite.beds h) (Homesite.baths h) (Homesite.sqft h))
         (parse_homesites E homes_panel).
Proof.
  split; apply Forall_forall.
  - intros p Hin. destruct (parse_homeplans_in _ _ Hin) as (c & Hc).
    destruct (parse_plan_card_fields _ Hc) as (fs & Hfs & -> & -> & -> & _).
    exact (card_feature_list_ok _ Hfs).
  - intros h Hin. destruct (parse_homesites_in _ _ _ Hin) as (i & c & Hc).
    destruct (parse_home_card_fields _ _ _ Hc)
      as (l & a & fs & _ & Hfs & _ & _ & _ & _ & _ & -> & -> & -> & _).
    exact (card_feature_list_ok _ Hfs).
Qed.

(** A card with a half bath and an area with a thousands separator. *)
Lemma feature_values_are_tokens_example :
  map (fun h => (Homesite.beds h, Homesite.baths h, Homesite.sqft h))
      (parse_homesites offline_env
         (Some [{| card_title := card_title jade_card;
                   card_image := None;
                   card_price := None;
                   card_features := Some ["  4  Beds"; "3 Baths | 1 Half Bath";
                                          "2,345 sq. ft."];
                   card_content := None |}]))
  = [(Some "4", Some "3.5", Some "2345")].
Proof. reflexivity. Qed.

(** ** Plans: the included features *)

Lemma feature_at_shift (start : nat) (it : string) (items : list string)
      (idxs : list nat) (l : list (string * string)) :
  Forall2 (feature_at (S start) items) idxs l ->
  Forall2 (feature_at start (it :: items)) idxs l.
Proof.
  induction 1 as [|n e idxs l (Hr & Hi & raw & Hn & Hc & Hne) _ IH]; constructor;
    [|assumption].
  split; [cbn [List.length]; lia|]. split; [assumption|].
  exists raw. split; [|now split].
  replace (n - start) with (S (n - S start)) by lia. exact Hn.
Qed.

Lemma included_features_positions (items : list string) (start : nat) :
  exists idxs,
    Forall2 (feature_at start items) idxs (included_features start items) /\
    StronglySorted lt idxs /\
    Forall (fun n => start <= n) idxs /\
    (forall k raw text,
        nth_error items k = Some raw ->
        clean_text (Some raw) = Some text -> text <> "" ->
        In (start + k) idxs).
Proof.
  revert start. induction items as [|it items IH]; intros start.
  - exists []. repeat split; try constructor.
    intros [|k] raw text H; discriminate.
  - destruct (IH (S start)) as (idxs & Hall & Hsorted & Hlow & Hevery).
    pose proof (feature_at_shift it Hall) as Hall'.
    assert (Hlow' : Forall (fun n => start <= n) idxs).
    { rewrite Forall_forall in *. intros n Hn. specialize (Hlow n Hn). lia. }
    assert (Hlater : forall k raw text,
               nth_error (it :: items) (S k) = Some raw ->
               clean_text (Some raw) = Some text -> text <> "" ->
               In (start + S k) idxs).
    { intros k raw text Hn Hc Hne.
      replace (start + S k) with (S start + k) by lia.
      exact (Hevery k raw text Hn Hc Hne). }
    cbn [included_features].
    destruct (clean_text (Some it)) as [text|] eqn:Hc.
    + destruct (truthy text) eqn:Ht.
      * exists (start :: idxs). split; [|split; [|split]].
        -- constructor; [|assumption].
           split; [cbn [List.length]; lia|]. split; [reflexivity|].
           exists it. rewrite Nat.sub_diag. split; [reflexivity|].
           split; [exact Hc | now apply truthy_true].
        -- constructor; [assumption|].
           rewrite Forall_forall in *. intros n Hn. specialize (Hlow n Hn). lia.
        -- constructor; [lia | assumption].
        -- intros [|k] raw text' Hn Hc' Hne.
           ++ rewrite Nat.add_0_r. now left.
           ++ right. exact (Hlater k raw text' Hn Hc' Hne).
      * exists idxs. split; [assumption|]. split; [assumption|].
        split; [assumption|].
        intros [|k] raw text' Hn Hc' Hne; [|exact (Hlater k raw text' Hn Hc' Hne)].
        simpl in Hn. injection Hn as <-.
        assert (text' = text) by congruence. subst text'.
        apply truthy_true in Hne. congruence.
    + exists idxs. split; [assumption|]. split; [assumption|].
      split; [assumption|].
      intros [|k] raw text' Hn Hc' Hne; [|exact (Hlater k raw text' Hn Hc' Hne)].
      simpl in Hn. injection Hn as <-. congruence.
Qed.

(** The included features of every emitted plan stand for the list items
    of the highlights of the plan's own card, in their order: each
    carries the 0-based position of its item among all the items of that
    card and the item's cleaned, non-empty text, and every item that has
    text is among them, so an item without text is left out and leaves a
    gap.  The plan has no floorplan images and the fixed status. *)
Theorem plan_included_features (panel : option (list Card)) :
  Forall (fun p =>
            exists cards c idxs,
              panel = Some cards /\ In c cards /\
              parse_plan_card c = Ok (Some p) /\
              Forall2 (feature_at 0 (card_items c)) idxs (HomePlan.includedFeatures p) /\
              StronglySorted lt idxs /\
              (forall k raw text,
                  nth_error (card_items c) k = Some raw ->
                  clean_text (Some raw) = Some text -> text <> "" ->
                  In k idxs) /\
              HomePlan.floorplan_images p = [] /\
              PlanDetails.status (HomePlan.details p) = "Actively selling")
         (parse_homeplans panel).
Proof.
  apply Forall_forall. intros p Hin.
  destruct (parse_homeplans_card _ _ Hin) as (cards & c & Hpanel & Hcards & Hc).
  destruct (parse_plan_card_fields _ Hc)
    as (fs & _ & _ & _ & _ & _ & _ & Hst & Hfl & Hinc).
  destruct (included_features_positions (card_items c) 0)
    as (idxs & Hall & Hsorted & _ & Hevery).
  exists cards, c, idxs.
  assert (Hfeatures : HomePlan.includedFeatures p = included_features 0 (card_items c)).
  { rewrite Hinc. unfold card_items. now destruct (card_content c). }
  rewrite Hfeatures. repeat split; assumption.
Qed.

(** A plan whose second highlight is blank: the third keeps position 2. *)
Lemma plan_included_features_example :
  map HomePlan.includedFeatures
      (parse_homeplans
         (Some [{| card_title := card_title full_plan_card;
                   card_image := None;
                   card_price := None;
                   card_features := None;
                   card_content :=
                     Some {| content_items := ["Covered  Entry"; "   "; " RV Garage "];
                             content_paragraph := None |} |}]))
  = [[("0", "Covered Entry"); ("2", "RV Garage")]].
Proof. reflexivity. Qed.
(** ** Detail pages: the gallery comes first *)

Lemma mem_true (u : string) (images : list string) :
  mem u images = true -> In u images.
Proof.
  unfold mem. intros H. apply existsb_exists in H as (x & Hx & He).
  apply str_eqb_eq in He. now subst.
Qed.

Lemma in_add_image (images : list string) (img_url : option string) (u : string) :
  In u (add_image images img_url) <->
  In u images \/ (img_url = Some u /\ is_valid_image_url (Some u) = true).
Proof.
  unfold add_image. destruct img_url as [v|];
    [|split; [tauto | intros [H|[H _]]; [assumption | discriminate]]].
  destruct (is_valid_image_url (Some v)) eqn:Hv; cbn [andb].
  - destruct (mem v images) eqn:Hm; cbn [negb].
    + split; [tauto|]. intros [H | [H _]]; [assumption|].
      injection H as ->. now apply mem_true.
    + rewrite in_app_iff. simpl. split.
      * intros [H | [-> | []]]; auto.
      * intros [H | [H _]]; [auto|]. injection H as ->. auto.
  - split; [tauto|]. intros [H | [H Hu]]; [assumption|].
    injection H as ->. congruence.
Qed.

Lemma in_gallery_fold (items : list Element) (acc : list string) (u : string) :
  In u (fold_left (fun images it => add_image images (data_desktop_image it)) items acc)
  <->
  In u acc \/
  exists it, In it items /\ data_desktop_image it = Some u /\
             is_valid_image_url (Some u) = true.
Proof.
  revert acc. induction items as [|it items IH]; intros acc; simpl.
  - split; [tauto | intros [H | (? & [] & _)]; assumption].
  - rewrite IH, in_add_image. split.
    + intros [[H | [H1 H2]] | (it' & Hin & H1 & H2)]; auto.
      * right. exists it. auto.
      * right. exists it'. auto.
    + intros [H | (it' & [-> | Hin] & H1 & H2)]; auto.
      right. exists it'. auto.
Qed.

(** When the gallery of a loaded detail page holds a valid image, the
    scan of the rest of the page is skipped: every image returned is a
    valid gallery image, and unless the cap of twelve is reached every
    valid gallery image is returned. *)
Theorem gallery_images_come_first (E : Env) (url : string) (page : DetailPage) :
  driver_get E url = Some page ->
  (exists u, valid_gallery_image page u) ->
  get_homesite_images E url <> [] /\
  (forall u, In u (get_homesite_images E url) -> valid_gallery_image page u) /\
  (List.length (get_homesite_images E url) < 12 ->
   forall u, valid_gallery_image page u -> In u (get_homesite_images E url)).
Proof.
  intros Hpage (u0 & Hu0). unfold get_homesite_images. rewrite Hpage.
  unfold collect_images.
  pose proof (fun u => in_gallery_fold (gallery_items page) [] u) as Hfold.
  destruct (fold_left _ (gallery_items page) []) as [|g gs] eqn:Hg.
  - exfalso. apply (proj2 (Hfold u0)). right. exact Hu0.
  - split; [discriminate|]. split.
    + intros u Hu.
      assert (Hin : In u (g :: gs)).
      { rewrite <- (firstn_skipn 12 (g :: gs)). apply in_or_app. now left. }
      apply Hfold in Hin as [[] | Hv]. exact Hv.
    + intros Hlen u Hv.
      assert (Hall : firstn 12 (g :: gs) = g :: gs).
      { apply firstn_all2. rewrite length_firstn in Hlen. lia. }
      rewrite Hall. apply Hfold. now right.
Qed.

Lemma gallery_images_come_first_witness :
  get_homesite_images gallery_env "u" <> [].
Proof.
  refine (proj1 (@gallery_images_come_first gallery_env "u" crowded_gallery
                   eq_refl _)).
  exists "https://x.widen.net/01.jpg".
  exists {| data_desktop_image := Some "https://x.widen.net/01.jpg";
            src := None; style := None |}.
  split; [|split; reflexivity].
  simpl. tauto.
Defined.

(** ** Amenities keep their phrase *)

Lemma prefix_app (p s : string) :
  prefix p s = true <-> exists r, s = p ++ r.
Proof.
  revert s. induction p as [|a p IH]; intros s; simpl.
  - split; [intros _; now exists s | intros _; now destruct s].
  - destruct s as [|b s].
    + split; [discriminate | intros (r & Hr); discriminate].
    + cbn [prefix]. destruct (char_eqb_spec a b) as [Hab|Hab]; cbn [andb].
      * rewrite IH. split; intros (r & Hr); exists r; congruence.
      * split; [discriminate | intros (r & Hr); congruence].
Qed.

Lemma contains_occurs (sub s : string) :
  contains sub s = true <-> occurs sub s.
Proof.
  induction s as [|c s IH].
  - cbn [contains]. rewrite orb_false_r, prefix_app. split.
    + intros (r & Hr). now exists "", r.
    + intros (pre & post & Heq). destruct pre; [now exists post | discriminate].
  - cbn [contains]. rewrite orb_true_iff, IH, prefix_app. split.
    + intros [(r & Hr) | (pre & post & Heq)].
      * now exists "", r.
      * exists (String c pre), post. simpl. now rewrite Heq.
    + intros H. apply occurs_cons in H. exact H.
Qed.

Lemma occurs_app_left (tok p s : string) : occurs tok s -> occurs tok (p ++ s).
Proof.
  intros (pre & post & ->). exists (p ++ pre), post.
  induction p as [|c p IH]; [reflexivity|]. simpl. now rewrite IH.
Qed.

Lemma join_cons_first (c : char) (ws : list string) :
  ws <> [] -> join " " (cons_first c ws) = String c (join " " ws).
Proof.
  destruct ws as [|w [|w' ws]]; [congruence | reflexivity | reflexivity].
Qed.

Lemma split_ws_head_word (c : char) (s : string) :
  is_space c = false -> split_ws (String c s) <> [].
Proof.
  intros Hc. simpl. rewrite Hc. destruct s as [|c' s']; [discriminate|].
  destruct (is_space c'); [discriminate|].
  destruct (split_ws (String c' s')); discriminate.
Qed.

(** Collapsing the whitespace of a text with one more character in front
    only adds in front. *)
Lemma collapse_cons (c : char) (s : string) :
  exists p, join " " (split_ws (String c s)) = p ++ join " " (split_ws s).
Proof.
  destruct s as [|c' s'].
  - simpl. destruct (is_space c); [now exists "" | now exists (String c "")].
  - rewrite split_ws_cons2. destruct (is_space c) eqn:Hc; [now exists ""|].
    destruct (is_space c') eqn:Hc'.
    + destruct (split_ws (String c' s')) as [|w ws] eqn:Hs.
      * now exists (String c "").
      * now exists (String c " ").
    + rewrite join_cons_first by now apply split_ws_head_word.
      now exists (String c "").
Qed.

(** A word at the head of a text stays at the head. *)
Lemma collapse_word_head (w post : string) :
  is_word w -> exists q, join " " (split_ws (w ++ post)) = w ++ q.
Proof.
  induction w as [|c w IH]; intros Hw.
  - destruct Hw as [Hne _]. congruence.
  - destruct (word_head Hw) as (c0 & w0 & Heq & Hc). injection Heq as <- <-.
    destruct w as [|c' w'].
    + destruct (collapse_cons c post) as (p & Hp).
      simpl append. destruct post as [|d post'].
      * simpl. rewrite Hc. now exists "".
      * rewrite split_ws_cons2, Hc. destruct (is_space d) eqn:Hd.
        -- destruct (split_ws (String d post')); [now exists "" | eexists; reflexivity].
        -- rewrite join_cons_first by now apply split_ws_head_word. eexists; reflexivity.
    + assert (Hw' : is_word (String c' w')).
      { destruct Hw as [_ Hall]. split; [discriminate|].
        simpl in Hall. now apply andb_true_iff in Hall as [_ Hall]. }
      destruct (word_head Hw') as (c1 & w1 & Heq & Hc'). injection Heq as <- <-.
      destruct (IH Hw') as (q & Hq).
      change ((String c (String c' w')) ++ post)
        with (String c (String c' (w' ++ post))).
      rewrite split_ws_cons2, Hc, Hc'.
      rewrite join_cons_first by now apply split_ws_head_word.
      change (String c' (w' ++ post)) with (String c' w' ++ post).
      rewrite Hq. now exists q.
Qed.

(** Two words with one space between them survive the collapsing of the
    whitespace around them. *)
Lemma collapse_keeps_phrase (w1 w2 s : string) :
  is_word w1 -> is_word w2 ->
  occurs (w1 ++ String " " w2) s ->
  occurs (w1 ++ String " " w2) (join " " (split_ws s)).
Proof.
  intros Hw1 Hw2 (pre & post & ->). induction pre as [|c pre IH].
  - change ("" ++ (w1 ++ String " " w2) ++ post)
      with ((w1 ++ String " " w2) ++ post).
    assert (Hassoc : (w1 ++ String " " w2) ++ post = w1 ++ String " " (w2 ++ post)).
    { clear. induction w1 as [|a w1 IH]; [reflexivity|]. simpl. now rewrite IH. }
    rewrite Hassoc, split_ws_word_space by assumption.
    destruct (collapse_word_head post Hw2) as (q & Hq).
    destruct (word_head Hw2) as (c2 & w2' & E2 & Hc2).
    assert (Hne : split_ws (w2 ++ post) <> []).
    { rewrite E2. now apply split_ws_head_word. }
    destruct (split_ws (w2 ++ post)) as [|x xs] eqn:Hs; [congruence|].
    change (join " " (w1 :: x :: xs)) with (w1 ++ " " ++ join " " (x :: xs)).
    rewrite Hq. exists "", q. simpl.
    clear. induction w1 as [|a w1 IH]; [reflexivity|]. simpl. now rewrite IH.
  - destruct (collapse_cons c (pre ++ (w1 ++ String " " w2) ++ post)) as (p & Hp).
    change (String c pre ++ (w1 ++ String " " w2) ++ post)
      with (String c (pre ++ (w1 ++ String " " w2) ++ post)).
    rewrite Hp. now apply occurs_app_left.
Qed.

Lemma amenity_re_collapse (s : string) :
  amenity_re s = true -> amenity_re (join " " (split_ws s)) = true.
Proof.
  assert (Hphrase : forall w1 w2,
             is_word w1 -> is_word w2 ->
             contains (w1 ++ String " " w2) s = true ->
             contains (w1 ++ String " " w2) (join " " (split_ws s)) = true).
  { intros w1 w2 H1 H2 H. apply contains_occurs.
    apply collapse_keeps_phrase; [assumption..|]. now apply contains_occurs. }
  assert (Hword : forall w, w <> "" ->
             str_forallb (fun c => negb (is_space c)) w = true -> is_word w)
    by (intros w; split; assumption).
  unfold amenity_re. rewrite !orb_true_iff.
  intros [[[H | H] | H] | H].
  - left; left; left.
    apply (Hphrase "RV" "Garage"); [apply Hword; [discriminate|reflexivity]..|exact H].
  - left; left; right.
    apply (Hphrase "Private" "Bedroom"); [apply Hword; [discriminate|reflexivity]..|exact H].
  - left; right.
    apply (Hphrase "Covered" "Entry"); [apply Hword; [discriminate|reflexivity]..|exact H].
  - right.
    apply (Hphrase "Sliding" "Door"); [apply Hword; [discriminate|reflexivity]..|exact H].
Qed.

Lemma amenity_re_names (s : string) : amenity_re s = true <-> names_amenity s.
Proof.
  unfold amenity_re, names_amenity.
  rewrite !orb_true_iff, !contains_occurs. tauto.
Qed.

(** The amenities stand for the texts of the page that hold one of the
    four phrases, one for each such text and in the order of the page.
    The name and the description of an amenity are the same text, never
    null: the cleaned text of the page, which still holds one of the four
    phrases and has its whitespace collapsed.  The icon is always null. *)
Theorem amenities_keep_their_phrase (p : CommunityPage) :
  (forall raw, amenity_re raw = true <-> names_amenity raw) /\
  Forall2 (fun raw a =>
             exists n,
               amenity_name a = Some n /\ amenity_description a = Some n /\
               n = join " " (split_ws raw) /\
               names_amenity n /\ normalized n /\
               icon_url a = None)
          (filter amenity_re (soup_strings p)) (parse_amenities p).
Proof.
  split; [exact amenity_re_names|].
  unfold parse_amenities.
  assert (Hall : Forall (fun raw => amenity_re raw = true)
                        (filter amenity_re (soup_strings p))).
  { apply Forall_forall. intros raw Hraw. now apply filter_In in Hraw. }
  induction Hall as [|raw texts Hre _ IH]; cbn [map]; constructor; [|exact IH].
  assert (Htruthy : truthy raw = true).
  { destruct raw; [discriminate | reflexivity]. }
  exists (join " " (split_ws raw)). cbn [amenity_name amenity_description icon_url].
  unfold clean_text. rewrite Htruthy, split_ws_strip.
  split; [reflexivity|]. split; [reflexivity|].
  split; [reflexivity|].
  split; [now apply amenity_re_names, amenity_re_collapse|].
  split; [|reflexivity].
  exact (proj1 (proj2 (join_words (split_ws_words raw)))).
Qed.

(** A text with irregular whitespace around its phrase, a text whose
    phrase is broken by a second space, and a text with a no-break space
    after its phrase. *)
Lemma amenities_keep_their_phrase_example :
  map amenity_name
      (parse_amenities
         {| soup_h1 := None;
            soup_strings := ["  Optional   RV Garage  with door "; "RV  Garage";
                             String 160%N "Covered Entry" ++ String 160%N "here"];
            soup_sales_office := NoContentDiv;
            soup_description := None;
            soup_carousel := None;
            soup_home_plans := None;
            soup_quick_move_ins := None |})
  = [Some "Optional RV Garage with door"; Some "Covered Entry here"].
Proof. reflexivity. Qed.
(** ** Plans: where the image comes from *)






(** A card without the attribute, whose style names the image. *)
Lemma plan_image_source_example :
  map (fun p => PlanDetails.image_url (HomePlan.details p))
      (parse_homeplans
         (Some [{| card_title := card_title full_plan_card;
                   card_image :=
                     Some {| anchor_desktop_image := Some "";
                             anchor_style :=
                               Some "background-image: url('https://x.widen.net/p.jpg');" |};
                   card_price := None;
                   card_features := None;
                   card_content := None |}]))
  = [Some "https://x.widen.net/p.jpg"].
Proof. reflexivity. Qed.

(** ** New records and their snapshots *)

(** A call that creates the record of [name] was made for a URL with that
    slug whose page has a heading; it stores the parsed record and a
    snapshot beside it. *)
Lemma process_new_record (E : Env) (fs : FS) (url name : string) (p : CommunityPage) :
  path_exists (output_file_of name) fs = false ->
  path_exists (output_file_of name) (process_community_url E fs url p) = true ->
  community_name_of url = Ok name /\
  soup_h1 p <> None /\
  read_file (output_file_of name) (process_community_url E fs url p)
  = Some (JsonFile (parse_community_data E url p)) /\
  path_exists (html_file_of name) (process_community_url E fs url p) = true.
Proof.
  intros Hold.
  assert (Hhj : forall n, str_eqb (html_file_of n) (output_file_of name) = false)
    by (intros n; apply str_eqb_neq, html_is_not_json).
  destruct (process_community_url_cases E fs url p)
    as [[_ ->] | (name' & Hn & _ & Hh1 & _ & [[_ ->] | [_ ->]])].
  - congruence.
  - rewrite path_exists_write, Hold, Hhj. discriminate.
  - rewrite !path_exists_write, Hold, Hhj.
    destruct (str_eqb_spec (output_file_of name') (output_file_of name))
      as [Hjson | Hjson]; [|discriminate].
    apply output_file_of_inj in Hjson. subst name'. intros _.
    split; [assumption|]. split; [assumption|].
    split; [apply read_write_file|].
    now rewrite str_eqb_refl, orb_true_r.
Qed.

Lemma process_urls_new_record
      (browser : string -> CommunityPage) (E : Env) (urls : list string)
      (fs : FS) (name : string) :
  path_exists (output_file_of name) fs = false ->
  path_exists (output_file_of name) (process_urls browser E fs urls) = true ->
  exists url,
    In url urls /\ community_name_of url = Ok name /\
    soup_h1 (browser url) <> None /\
    read_file (output_file_of name) (process_urls browser E fs urls)
    = Some (JsonFile (parse_community_data E url (browser url))) /\
    path_exists (html_file_of name) (process_urls browser E fs urls) = true.
Proof.
  revert fs. induction urls as [|u urls IH]; intros fs Hold Hnew.
  - unfold process_urls in Hnew. simpl in Hnew. congruence.
  - change (process_urls browser E fs (u :: urls))
      with (process_urls browser E (process_community_url E fs u (browser u)) urls)
      in *.
    destruct (path_exists (output_file_of name)
                          (process_community_url E fs u (browser u))) eqn:Hu.
    + destruct (@process_new_record E fs u name (browser u) Hold Hu)
        as (Hname & Hh1 & Hread & Hhtml).
      exists u. split; [now left|]. split; [assumption|]. split; [assumption|].
      split.
      * rewrite (proj2 (@process_urls_keeps_record browser E urls _ name Hu)).
        exact Hread.
      * now apply process_urls_keeps_paths.
    + destruct (IH _ Hu Hnew) as (url & Hin & Hrest).
      exists url. split; [now right | exact Hrest].
Qed.

Lemma main_as_loop (browser : string -> CommunityPage) (E : Env)
      (args : Args) (links : LinksFile) (fs : FS) :
  main browser E true args links fs
  = process_urls browser E fs (requested_urls args links).
Proof.
  unfold main, requested_urls, process_urls.
  destruct (arg_url args) as [url|]; simpl.
  - destruct (truthy url); [reflexivity|].
    destruct (arg_batch args); [|reflexivity].
    now destruct links.
  - destruct (arg_batch args); [|reflexivity].
    now destruct links.
Qed.

(** Every record a run of [main] creates belongs to one of the URLs of
    the run: the URL's slug names the file, its page showed a heading,
    the file holds the record parsed for that URL, and an HTML snapshot
    for the same slug lies beside it.  Without a driver nothing is
    created. *)
Theorem new_records_have_snapshots
        (browser : string -> CommunityPage) (E : Env) (driver_started : bool)
        (args : Args) (links : LinksFile) (fs : FS) (name : string) :
  path_exists (output_file_of name) fs = false ->
  path_exists (output_file_of name)
              (main browser E driver_started args links fs) = true ->
  driver_started = true /\
  exists url,
    In url (requested_urls args links) /\
    community_name_of url = Ok name /\
    soup_h1 (browser url) <> None /\
    read_file (output_file_of name) (main browser E driver_started args links fs)
    = Some (JsonFile (parse_community_data E url (browser url))) /\
    path_exists (html_file_of name)
                (main browser E driver_started args links fs) = true.
Proof.
  intros Hold Hnew. destruct driver_started.
  - split; [reflexivity|]. rewrite main_as_loop in *.
    now apply process_urls_new_record.
  - unfold main in Hnew. congruence.
Qed.

Lemma new_records_have_snapshots_witness :
  exists url,
    In url (requested_urls no_args LinksMissing) /\
    community_name_of url = Ok "estrella-crossing-community".
Proof.
  destruct (@new_records_have_snapshots estrella_browser offline_env true no_args
              LinksMissing stored_record_fs "estrella-crossing-community"
              eq_refl eq_refl) as (_ & url & Hin & Hname & _).
  exists url. split; assumption.
Defined.

